(** * OrbiaColumnFilter: a shallow embedding of
      [jquery.dataTables.orbiaColumnFilter.js]

    The plugin adds one row of per-column filter controls to a DataTables
    table.  The embedding follows the source: the DOM inputs, the
    [data('val')] memos, the row-level [data('timeout')] handle, the browser's
    timer table and DataTables' per-column search slots are an explicit
    [world]; each bound event handler is a function on worlds; the set-up loop
    runs in an error monad because a JavaScript expression can throw. *)

From Stdlib Require Import String Ascii List ZArith QArith Lia Bool.
From stdpp Require Import base option list strings gmap.
Import ListNotations.

Local Open Scope string_scope.

(** ** JavaScript values used by the plugin *)

(** JavaScript [ToBoolean] on a string: only the empty string is falsy. *)
Definition truthy_str (s : string) : bool :=
  match s with
  | EmptyString => false
  | String _ _ => true
  end.

(** JavaScript [ToBoolean] on a number used as a timer handle. *)
Definition truthy_handle (n : nat) : bool := negb (Nat.eqb n 0).

(** [s.replace(',', '.')] with a string pattern: only the first occurrence
    of the pattern is replaced. *)
Fixpoint replace_first (pat rep : ascii) (s : string) : string :=
  match s with
  | EmptyString => EmptyString
  | String c r =>
      if Ascii.eqb c pat then String rep r
      else String c (replace_first pat rep r)
  end.

(** A JavaScript number as [parseFloat] can return it.  A finite value is
    the rational a binary64 holds, in lowest terms; the two zeros are one
    value, which no comparison of the plugin tells apart. *)
Inductive number : Type :=
| NaN
| NegInfinity
| PosInfinity
| Fin (q : Q).

Definition isNaN (n : number) : bool :=
  match n with
  | NaN => true
  | _ => false
  end.

(** The relational operator [<=] on numbers: false as soon as one operand is
    [NaN]. *)
Definition js_le (a b : number) : bool :=
  match a, b with
  | NaN, _ | _, NaN => false
  | NegInfinity, _ => true
  | _, PosInfinity => true
  | PosInfinity, _ => false
  | _, NegInfinity => false
  | Fin x, Fin y => Qle_bool x y
  end.

(** [n || 0] on a number: [NaN] and zero are falsy. *)
Definition or_zero (n : number) : number :=
  match n with
  | NaN => Fin 0
  | Fin q => if Qeq_bool q 0 then Fin 0 else Fin q
  | other => other
  end.

Definition js_neg (n : number) : number :=
  match n with
  | NaN => NaN
  | NegInfinity => PosInfinity
  | PosInfinity => NegInfinity
  | Fin q => Fin (Qopp q)
  end.

(** *** [parseFloat]

    ECMAScript [parseFloat]: leading white space is dropped, then the longest
    prefix that is a [StrDecimalLiteral] is read: an optional sign, then
    [Infinity], or digits with an optional fraction and an optional exponent
    part; the result is the Number value of the decimal read.  No such prefix
    gives [NaN]. *)

Definition is_digit (c : ascii) : bool :=
  let n := nat_of_ascii c in (48 <=? n)%nat && (n <=? 57)%nat.

Definition digit_val (c : ascii) : Z := Z.of_nat (nat_of_ascii c) - 48.

(** [StrWhiteSpaceChar], for a string held as UTF-8.  One byte: TAB, LF,
    VT, FF, CR and SP; a no-break space given as the single code unit 160 is
    taken as well (in well-formed UTF-8 that byte never starts a
    character). *)
Definition is_space (c : ascii) : bool :=
  let n := nat_of_ascii c in
  (n =? 9)%nat || (n =? 10)%nat || (n =? 11)%nat || (n =? 12)%nat
  || (n =? 13)%nat || (n =? 32)%nat || (n =? 160)%nat.

(** Two bytes: U+00A0, the no-break space. *)
Definition is_space2 (c1 c2 : ascii) : bool :=
  (nat_of_ascii c1 =? 194)%nat && (nat_of_ascii c2 =? 160)%nat.

(** Three bytes: U+1680, U+2000 to U+200A, U+2028 and U+2029 (the line and
    paragraph separators), U+202F, U+205F, U+3000 and U+FEFF. *)
Definition is_space3 (c1 c2 c3 : ascii) : bool :=
  let n1 := nat_of_ascii c1 in
  let n2 := nat_of_ascii c2 in
  let n3 := nat_of_ascii c3 in
  ((n1 =? 225) && (n2 =? 154) && (n3 =? 128))%nat
  || ((n1 =? 226) && (n2 =? 128)
      && (((128 <=? n3) && (n3 <=? 138)) || (n3 =? 168) || (n3 =? 169)
          || (n3 =? 175)))%nat
  || ((n1 =? 226) && (n2 =? 129) && (n3 =? 159))%nat
  || ((n1 =? 227) && (n2 =? 128) && (n3 =? 128))%nat
  || ((n1 =? 239) && (n2 =? 187) && (n3 =? 191))%nat.

Fixpoint skip_spaces (s : string) : string :=
  match s with
  | String c1 r1 =>
      if is_space c1 then skip_spaces r1
      else
        match r1 with
        | String c2 r2 =>
            if is_space2 c1 c2 then skip_spaces r2
            else
              match r2 with
              | String c3 r3 =>
                  if is_space3 c1 c2 c3 then skip_spaces r3 else s
              | EmptyString => s
              end
        | EmptyString => s
        end
  | EmptyString => EmptyString
  end.

(** Reads the longest run of digits: the value read so far, how many digits
    were read, and the rest of the input. *)
Fixpoint read_digits (acc : Z) (cnt : nat) (s : string) : Z * nat * string :=
  match s with
  | String c r =>
      if is_digit c then read_digits (10 * acc + digit_val c) (S cnt) r
      else (acc, cnt, s)
  | EmptyString => (acc, cnt, s)
  end.

(** The exponent part [e[+-]digits], when the input starts with one. *)
Definition read_exponent (s : string) : Z :=
  match s with
  | String c r =>
      if Ascii.eqb c "e" || Ascii.eqb c "E" then
        match r with
        | String sg r' =>
            if Ascii.eqb sg "-" then
              match read_digits 0 0 r' with
              | (_, O, _) => 0
              | (v, _, _) => - v
              end
            else if Ascii.eqb sg "+" then
              match read_digits 0 0 r' with
              | (_, O, _) => 0
              | (v, _, _) => v
              end
            else
              match read_digits 0 0 r with
              | (_, O, _) => 0
              | (v, _, _) => v
              end
        | EmptyString => 0
        end
      else 0
  | EmptyString => 0
  end%Z.

(** [m * 10^e] as an exact rational. *)
Definition scale10 (m e : Z) : Q :=
  if (0 <=? e)%Z then inject_Z (m * 10 ^ e)
  else Qmake m (Z.to_pos (10 ^ (- e))).

(** *** The Number value of a rational: IEEE 754 binary64, round to
    nearest, ties to even *)

(** [2^e <= n/d]. *)
Definition pow2_le (e : Z) (n d : positive) : bool :=
  if (0 <=? e)%Z then (Zpos d * 2 ^ e <=? Zpos n)%Z
  else (Zpos d <=? Zpos n * 2 ^ (- e))%Z.

(** The binary exponent of [n/d]: the [e] with [2^e <= n/d < 2^(e+1)]. *)
Definition binary_exponent (n d : positive) : Z :=
  let e0 := (Z.log2 (Zpos n) - Z.log2 (Zpos d))%Z in
  if pow2_le e0 n d then e0 else (e0 - 1)%Z.

(** [N/D] to the nearest integer, a tie going to the even one. *)
Definition round_half_even (N D : Z) : Z :=
  let q := (N / D)%Z in
  match (2 * (N mod D) ?= D)%Z with
  | Lt => q
  | Gt => (q + 1)%Z
  | Eq => if Z.even q then q else (q + 1)%Z
  end.

(** [m * 2^p] as a rational. *)
Definition scale2 (m p : Z) : Q :=
  if (0 <=? p)%Z then inject_Z (m * 2 ^ p)
  else Qmake m (Z.to_pos (2 ^ (- p))).

(** The binary64 nearest to the positive rational [n/d].  The last place
    of a normal number is 52 binary places below its leading one and never
    below [2^-1074], where the subnormal numbers lie; what rounds to
    [2^1024] or more is [Infinity]. *)
Definition round_binary64 (n d : positive) : number :=
  let p := Z.max (binary_exponent n d - 52) (- 1074) in
  let m :=
    if (0 <=? p)%Z then round_half_even (Zpos n) (Zpos d * 2 ^ p)
    else round_half_even (Zpos n * 2 ^ (- p)) (Zpos d) in
  if (2 ^ (1024 - p) <=? m)%Z then PosInfinity
  else Fin (Qred (scale2 m p)).

(** The Number value of a rational. *)
Definition Number_value (q : Q) : number :=
  match Qnum q with
  | Z0 => Fin 0
  | Zpos n => round_binary64 n (Qden q)
  | Zneg n =>
      match round_binary64 n (Qden q) with
      | Fin r => Fin (Qopp r)
      | PosInfinity => NegInfinity
      | other => other
      end
  end.

Definition read_unsigned (s : string) : number :=
  if String.prefix "Infinity" s then PosInfinity
  else
    match read_digits 0 0 s with
    | (ip, ni, r1) =>
        match r1 with
        | String "." r2 =>
            match read_digits ip 0 r2 with
            | (m, nf, r3) =>
                match ni, nf with
                | O, O => NaN
                | _, _ =>
                    Number_value
                      (scale10 m (read_exponent r3 - Z.of_nat nf))
                end
            end
        | _ =>
            match ni with
            | O => NaN
            | _ => Number_value (scale10 ip (read_exponent r1))
            end
        end
    end.

Definition parseFloat (s : string) : number :=
  match skip_spaces s with
  | String "+" r => read_unsigned r
  | String "-" r => js_neg (read_unsigned r)
  | t => read_unsigned t
  end.

(** ** The local range evaluator (source lines 207-215) *)

(** The body of the row predicate after its table guard:
    [min], [max] from the two inputs, [value] from the cell. *)
Definition matches (from to cellValue : string) : bool :=
  let min := parseFloat (replace_first "," "." from) in
  let max := parseFloat (replace_first "," "." to) in
  let value := or_zero (parseFloat cellValue) in
  (isNaN min && isNaN max)
  || (isNaN min && js_le value max)
  || (js_le min value && isNaN max)
  || (js_le min value && js_le value max).

(** ** The page: DOM nodes, browser timers and the DataTables host *)

(** A text input or select: its current value [$this.val()] and the memo
    [$this.data('val')], which is [undefined] until first written. *)
Record input : Type := {
  in_value : string;
  in_memo : option string
}.

(** A pending browser timer.  Every callback the plugin registers is
    [function() { api.draw(); }], so the callback is not stored. *)
Record timer : Type := {
  tm_id : nat;
  tm_deadline : nat
}.

(** The closure pushed on [$.fn.dataTable.ext.search]: the captured column
    index, table node and the two inputs it reads. *)
Record range_predicate : Type := {
  rp_ci : nat;
  rp_nTable : nat;
  rp_from : nat;
  rp_to : nat
}.

(** The function bound to a node with [bind('input change', ...)], with the
    variables its closure captures. *)
Inductive handler : Type :=
| HText (serverSide : bool) (columnIndex : nat)
| HSelect (serverSide : bool) (columnIndex : nat)
| HRangeFrom (columnIndex : nat) (to : nat)
| HRangeTo (columnIndex : nat) (from : nat)
| HRangeLocal.

(** What a [<th>] of the filter row holds. *)
Inductive control : Type :=
| TextInput (node : nat)
| SelectInput (node : nat) (options : list (string * string))
| RangeInputs (from to : nat).

Inductive placement : Type := Header | Footer.

(** One call [api.column(c).search(val [, true])]. *)
Record search_call : Type := {
  sc_time : nat;
  sc_column : nat;
  sc_input : string;
  sc_regex : bool
}.

Record world : Type := {
  now : nat;
  inputs : gmap nat input;
  bindings : gmap nat handler;
  tr_cells : list (list control);
  tr_timeout : option nat;
  tr_attached : option placement;
  next_node : nat;
  timers : list timer;
  next_timer : nat;
  col_search : gmap nat string;
  search_log : list search_call;
  draws : list nat;
  ext_search : list range_predicate;
  console_log : list string
}.

Definition with_now (t : nat) (w : world) : world :=
  {| now := t; inputs := inputs w; bindings := bindings w;
     tr_cells := tr_cells w; tr_timeout := tr_timeout w;
     tr_attached := tr_attached w; next_node := next_node w;
     timers := timers w; next_timer := next_timer w;
     col_search := col_search w; search_log := search_log w;
     draws := draws w; ext_search := ext_search w;
     console_log := console_log w |}.

Definition with_inputs (m : gmap nat input) (w : world) : world :=
  {| now := now w; inputs := m; bindings := bindings w;
     tr_cells := tr_cells w; tr_timeout := tr_timeout w;
     tr_attached := tr_attached w; next_node := next_node w;
     timers := timers w; next_timer := next_timer w;
     col_search := col_search w; search_log := search_log w;
     draws := draws w; ext_search := ext_search w;
     console_log := console_log w |}.

Definition with_bindings (m : gmap nat handler) (w : world) : world :=
  {| now := now w; inputs := inputs w; bindings := m;
     tr_cells := tr_cells w; tr_timeout := tr_timeout w;
     tr_attached := tr_attached w; next_node := next_node w;
     timers := timers w; next_timer := next_timer w;
     col_search := col_search w; search_log := search_log w;
     draws := draws w; ext_search := ext_search w;
     console_log := console_log w |}.

Definition with_tr_cells (c : list (list control)) (w : world) : world :=
  {| now := now w; inputs := inputs w; bindings := bindings w;
     tr_cells := c; tr_timeout := tr_timeout w;
     tr_attached := tr_attached w; next_node := next_node w;
     timers := timers w; next_timer := next_timer w;
     col_search := col_search w; search_log := search_log w;
     draws := draws w; ext_search := ext_search w;
     console_log := console_log w |}.

Definition with_tr_timeout (o : option nat) (w : world) : world :=
  {| now := now w; inputs := inputs w; bindings := bindings w;
     tr_cells := tr_cells w; tr_timeout := o;
     tr_attached := tr_attached w; next_node := next_node w;
     timers := timers w; next_timer := next_timer w;
     col_search := col_search w; search_log := search_log w;
     draws := draws w; ext_search := ext_search w;
     console_log := console_log w |}.

Definition with_tr_attached (o : option placement) (w : world) : world :=
  {| now := now w; inputs := inputs w; bindings := bindings w;
     tr_cells := tr_cells w; tr_timeout := tr_timeout w;
     tr_attached := o; next_node := next_node w;
     timers := timers w; next_timer := next_timer w;
     col_search := col_search w; search_log := search_log w;
     draws := draws w; ext_search := ext_search w;
     console_log := console_log w |}.

Definition with_next_node (n : nat) (w : world) : world :=
  {| now := now w; inputs := inputs w; bindings := bindings w;
     tr_cells := tr_cells w; tr_timeout := tr_timeout w;
     tr_attached := tr_attached w; next_node := n;
     timers := timers w; next_timer := next_timer w;
     col_search := col_search w; search_log := search_log w;
     draws := draws w; ext_search := ext_search w;
     console_log := console_log w |}.

Definition with_timers (l : list timer) (n : nat) (w : world) : world :=
  {| now := now w; inputs := inputs w; bindings := bindings w;
     tr_cells := tr_cells w; tr_timeout := tr_timeout w;
     tr_attached := tr_attached w; next_node := next_node w;
     timers := l; next_timer := n;
     col_search := col_search w; search_log := search_log w;
     draws := draws w; ext_search := ext_search w;
     console_log := console_log w |}.

Definition with_search (m : gmap nat string) (l : list search_call)
    (w : world) : world :=
  {| now := now w; inputs := inputs w; bindings := bindings w;
     tr_cells := tr_cells w; tr_timeout := tr_timeout w;
     tr_attached := tr_attached w; next_node := next_node w;
     timers := timers w; next_timer := next_timer w;
     col_search := m; search_log := l;
     draws := draws w; ext_search := ext_search w;
     console_log := console_log w |}.

Definition with_draws (l : list nat) (w : world) : world :=
  {| now := now w; inputs := inputs w; bindings := bindings w;
     tr_cells := tr_cells w; tr_timeout := tr_timeout w;
     tr_attached := tr_attached w; next_node := next_node w;
     timers := timers w; next_timer := next_timer w;
     col_search := col_search w; search_log := search_log w;
     draws := l; ext_search := ext_search w;
     console_log := console_log w |}.

Definition with_ext_search (l : list range_predicate) (w : world) : world :=
  {| now := now w; inputs := inputs w; bindings := bindings w;
     tr_cells := tr_cells w; tr_timeout := tr_timeout w;
     tr_attached := tr_attached w; next_node := next_node w;
     timers := timers w; next_timer := next_timer w;
     col_search := col_search w; search_log := search_log w;
     draws := draws w; ext_search := l;
     console_log := console_log w |}.

Definition with_console_log (l : list string) (w : world) : world :=
  {| now := now w; inputs := inputs w; bindings := bindings w;
     tr_cells := tr_cells w; tr_timeout := tr_timeout w;
     tr_attached := tr_attached w; next_node := next_node w;
     timers := timers w; next_timer := next_timer w;
     col_search := col_search w; search_log := search_log w;
     draws := draws w; ext_search := ext_search w;
     console_log := l |}.

(** *** DOM, browser and DataTables operations *)

(** [$(node).val()].  Every node the plugin keeps a reference to is in the
    store of a world built by [OrbiaColumnFilter]; the default stands for a
    node that does not exist. *)
Definition node_val (node : nat) (w : world) : string :=
  match inputs w !! node with
  | Some i => in_value i
  | None => ""
  end.

(** [$(node).data('val')]: [None] is [undefined]. *)
Definition node_data_val (node : nat) (w : world) : option string :=
  inputs w !! node ≫= in_memo.

(** [$(node).data('val', v)]. *)
Definition set_data_val (node : nat) (v : string) (w : world) : world :=
  with_inputs
    (alter (λ i, {| in_value := in_value i; in_memo := Some v |}) node
       (inputs w)) w.

(** [$(node).val(v)], also what a user edit does to the node. *)
Definition set_val (node : nat) (v : string) (w : world) : world :=
  with_inputs
    (alter (λ i, {| in_value := v; in_memo := in_memo i |}) node
       (inputs w)) w.

(** [clearTimeout(h)]: the timer with that handle, if still pending, is
    dropped. *)
Definition clearTimeout (h : nat) (w : world) : world :=
  with_timers (filter (λ tm, tm_id tm ≠ h) (timers w)) (next_timer w) w.

(** [setTimeout(function() { api.draw(); }, delay)]; the handle returned is
    [next_timer] of the world before the call. *)
Definition setTimeout (delay : nat) (w : world) : world :=
  with_timers
    (timers w ++ [{| tm_id := next_timer w; tm_deadline := (now w + delay)%nat |}])
    (S (next_timer w)) w.

(** [api.column(c).search(val)] and [api.column(c).search(val, true)]: the
    column's search slot takes the expression. *)
Definition api_search (c : nat) (val : string) (regex : bool) (w : world)
    : world :=
  with_search (<[c := val]> (col_search w))
    (search_log w ++
       [{| sc_time := now w; sc_column := c; sc_input := val;
           sc_regex := regex |}]) w.

(** [api.draw()]. *)
Definition api_draw (w : world) : world :=
  with_draws (draws w ++ [now w]) w.

(** The browser's event loop reaching time [t]: every pending timer whose
    deadline has come runs its callback, [api.draw()], at its deadline. *)
Definition advance (t : nat) (w : world) : world :=
  with_now (Nat.max t (now w))
    (with_draws
       (draws w ++ map tm_deadline (filter (λ tm, (tm_deadline tm ≤ t)%nat) (timers w)))
       (with_timers (filter (λ tm, (t < tm_deadline tm)%nat) (timers w))
          (next_timer w) w)).

(** Modelled from the spec: [$.fn.dataTable.util.escapeRegex] belongs to
    DataTables, not to this repository.  The spec's [escapeForLiteralMatch]
    "escapes all regex metacharacters in the value so it is treated as a
    literal"; DataTables 1.10 puts a backslash before each of
    [/ . * + ? | ( ) [ ] { } \ $ ^ -]. *)
Definition backslash : ascii := ascii_of_nat 92.

Definition is_regex_meta (c : ascii) : bool :=
  existsb (Ascii.eqb c) (list_ascii_of_string "/.*+?|()[]{}\$^-").

Fixpoint escapeRegex (s : string) : string :=
  match s with
  | EmptyString => EmptyString
  | String c r =>
      if is_regex_meta c then String backslash (String c (escapeRegex r))
      else String c (escapeRegex r)
  end.

(** ** The event handlers *)

(** Source lines 126-131 (repeated at 147-152, 177-182, 196-201):
    [if (tr.data('timeout')) clearTimeout(tr.data('timeout'));
     tr.data('timeout', setTimeout(function() { api.draw(); }, 500));] *)
Definition schedule_redraw (w : world) : world :=
  let w1 :=
    match tr_timeout w with
    | Some h => if truthy_handle h then clearTimeout h w else w
    | None => w
    end in
  with_tr_timeout (Some (next_timer w1)) (setTimeout 500 w1).

(** Source lines 117-133: the text input. *)
Definition text_handler (serverSide : bool) (columnIndex this : nat)
    (w : world) : world :=
  let val := node_val this w in
  if decide (node_data_val this w ≠ Some val) then
    let w := set_data_val this val w in
    let val := if serverSide && truthy_str val then "like:" ++ val else val in
    let w := api_search columnIndex val false w in
    schedule_redraw w
  else w.

(** Source lines 136-154: the select. *)
Definition select_handler (serverSide : bool) (columnIndex this : nat)
    (w : world) : world :=
  let val := escapeRegex (node_val this w) in
  if decide (node_data_val this w ≠ Some val) then
    let w := set_data_val this val w in
    let val :=
      if serverSide && truthy_str val then "equals:" ++ val
      else if truthy_str val then "^" ++ val ++ "$"
      else val in
    let w := api_search columnIndex val true w in
    schedule_redraw w
  else w.

(** Source lines 170-173 and 189-192:
    [var val = ''; if (valFrom !== '' || valTo !== '')
       val = 'range:' + valFrom + '~' + valTo;] *)
Definition range_expression (valFrom valTo : string) : string :=
  if negb (String.eqb valFrom "") || negb (String.eqb valTo "")
  then "range:" ++ valFrom ++ "~" ++ valTo
  else "".

(** Source lines 166-184: the lower bound in server-side mode.  The [<th>]
    holds exactly the two inputs (lines 222-223), so
    [$this.closest("th").find("input:eq(1)")] is the captured [to] node. *)
Definition range_from_handler (columnIndex to this : nat) (w : world)
    : world :=
  let valFrom := node_val this w in
  let valTo := node_val to w in
  let val := range_expression valFrom valTo in
  if decide (node_data_val this w ≠ Some val) then
    let w := set_data_val this val w in
    let w := api_search columnIndex val false w in
    schedule_redraw w
  else w.

(** Source lines 185-203: the upper bound in server-side mode;
    [find("input:eq(0)")] is the [from] node. *)
Definition range_to_handler (columnIndex from this : nat) (w : world)
    : world :=
  let valFrom := node_val from w in
  let valTo := node_val this w in
  let val := range_expression valFrom valTo in
  if decide (node_data_val this w ≠ Some val) then
    let w := set_data_val this val w in
    let w := api_search columnIndex val false w in
    schedule_redraw w
  else w.

(** Source lines 218-220: both inputs of a range in local mode. *)
Definition range_local_handler (w : world) : world := api_draw w.

(** Source lines 207-215: the row predicate of a range in local mode, called
    by DataTables with the settings of the table being filtered (of which
    only [settings.nTable] is read) and the row's search data. *)
Definition row_predicate (p : range_predicate) (w : world)
    (settings_nTable : nat) (data : list string) : bool :=
  if negb (settings_nTable =? rp_nTable p)%nat then false
  else
    matches (node_val (rp_from p) w) (node_val (rp_to p) w)
      (default "undefined" (data !! rp_ci p)).

(** Calling the function bound to node [this]. *)
Definition run_handler (h : handler) (this : nat) (w : world) : world :=
  match h with
  | HText serverSide columnIndex => text_handler serverSide columnIndex this w
  | HSelect serverSide columnIndex =>
      select_handler serverSide columnIndex this w
  | HRangeFrom columnIndex to => range_from_handler columnIndex to this w
  | HRangeTo columnIndex from => range_to_handler columnIndex from this w
  | HRangeLocal => range_local_handler w
  end.

(** An [input] or [change] event on a node. *)
Definition fire (this : nat) (w : world) : world :=
  match bindings w !! this with
  | Some h => run_handler h this w
  | None => w
  end.

(** The node takes the raw value [v] and an event is delivered to it. *)
Definition deliver (this : nat) (v : string) (w : world) : world :=
  fire this (set_val this v w).

(** A timed trace of deliveries: the event loop reaches each time stamp,
    running the timers that are due, then the event is handled. *)
Fixpoint run (evs : list (nat * (nat * string))) (w : world) : world :=
  match evs with
  | [] => w
  | (t, (node, v)) :: rest => run rest (deliver node v (advance t w))
  end.

(** ** Set-up: the constructor [$.fn.dataTable.OrbiaColumnFilter] *)

(** The values an identifier of the global object can hold here. *)
Inductive js_value : Type :=
| VUndefined
| VString (s : string)
| VObject.

Inductive js_error : Type :=
| ReferenceError (name : string)
| TypeError (msg : string).

(** The result of running statements that may throw. *)
Inductive completion (A : Type) : Type :=
| Normal (a : A)
| Throw (e : js_error).

Arguments Normal {A} a.
Arguments Throw {A} e.

#[global] Instance completion_ret : MRet completion := @Normal.

#[global] Instance completion_bind : MBind completion :=
  λ A B (k : A → completion B) (c : completion A),
    match c with
    | Normal a => k a
    | Throw e => Throw e
    end.

Definition to_string (v : js_value) : string :=
  match v with
  | VUndefined => "undefined"
  | VString s => s
  | VObject => "[object Object]"
  end.

Definition truthy (v : js_value) : bool :=
  match v with
  | VUndefined => false
  | VString s => truthy_str s
  | VObject => true
  end.

(** Reading an identifier that no enclosing function declares: it is looked
    up on the global object, and a missing binding throws. *)
Definition resolve (globals : gmap string js_value) (name : string)
    : completion js_value :=
  match globals !! name with
  | Some v => Normal v
  | None => Throw (ReferenceError name)
  end.

(** [item] of the source: the column's [orbiaColumnFilter] option. *)
Record filter_spec : Type := {
  type : string;
  values : option (list (string * string))
}.

(** An entry of [settings.aoColumns]; its [idx] is its position. *)
Record column : Type := {
  orbiaColumnFilter : option filter_spec;
  bSearchable : bool;
  bVisible : bool
}.

Record dt_settings : Type := {
  aoColumns : list column;
  bServerSide : bool;
  nTable : nat
}.

(** [$('<input>')] / [$('<select>')]: a new node, with the given
    [data('val')]. *)
Definition new_input (memo : option string) (w : world) : world :=
  with_next_node (S (next_node w))
    (with_inputs
       (<[next_node w := {| in_value := ""; in_memo := memo |}]> (inputs w))
       w).

Definition bind_handler (node : nat) (h : handler) (w : world) : world :=
  with_bindings (<[node := h]> (bindings w)) w.

(** Source line 226:
    [console && console.warn('Invalid orbiaColumnFilter type for column '
                              + value + '.');]
    No function around this line declares [value] (the [var value] of line
    213 is local to the row predicate), so both identifiers are resolved on
    the global object.  The argument is evaluated before the call. *)
Definition warn_invalid_type (globals : gmap string js_value) (w : world)
    : completion world :=
  c ← resolve globals "console";
  if truthy c then
    v ← resolve globals "value";
    match c with
    | VObject =>
        Normal
          (with_console_log
             (console_log w ++
                ["Invalid orbiaColumnFilter type for column "
                   ++ to_string v ++ "."]) w)
    | _ => Throw (TypeError "console.warn is not a function")
    end
  else Normal w.

(** Source lines 115-227: the [switch (item.type)]; the controls put in the
    [<th>] and the world after the bindings. *)
Definition setup_control (globals : gmap string js_value) (serverSide : bool)
    (table columnIndex : nat) (item : filter_spec) (w : world)
    : completion (list control * world) :=
  if String.eqb (type item) "text" then
    let node := next_node w in
    Normal ([TextInput node],
            bind_handler node (HText serverSide columnIndex)
              (new_input None w))
  else if String.eqb (type item) "select" then
    let node := next_node w in
    Normal ([SelectInput node (("", "") :: default [] (values item))],
            bind_handler node (HSelect serverSide columnIndex)
              (new_input None w))
  else if String.eqb (type item) "number-range" then
    let from := next_node w in
    let w := new_input (Some "") w in
    let to := next_node w in
    let w := new_input (Some "") w in
    let w :=
      if serverSide then
        bind_handler to (HRangeTo columnIndex from)
          (bind_handler from (HRangeFrom columnIndex to) w)
      else
        bind_handler to HRangeLocal
          (bind_handler from HRangeLocal
             (with_ext_search
                (ext_search w ++
                   [{| rp_ci := columnIndex; rp_nTable := table;
                       rp_from := from; rp_to := to |}]) w)) in
    Normal ([RangeInputs from to], w)
  else
    w ← warn_invalid_type globals w;
    Normal ([], w).

(** Source lines 110-231: the callback of
    [api.columns().flatten().each(...)] for one column index. *)
Definition setup_column (globals : gmap string js_value) (serverSide : bool)
    (table : nat) (items : list (option filter_spec)) (cols : list column)
    (columnIndex : nat) (w : world) : completion world :=
  let item := mjoin (items !! columnIndex) in
  if default false (bVisible <$> cols !! columnIndex) then
    match item with
    | Some item =>
        r ← setup_control globals serverSide table columnIndex item w;
        Normal (with_tr_cells (tr_cells (snd r) ++ [fst r]) (snd r))
    | None => Normal (with_tr_cells (tr_cells w ++ [[]]) w)
    end
  else Normal w.

Fixpoint each_column (f : nat → world → completion world)
    (indexes : list nat) (w : world) : completion world :=
  match indexes with
  | [] => Normal w
  | i :: rest => w' ← f i w; each_column f rest w'
  end.

(** Source lines 90-245.  [appendTo] is [options.appendTo] after the
    [$.extend] with the default ['header']. *)
Definition OrbiaColumnFilter (globals : gmap string js_value)
    (settings : dt_settings) (appendTo : string) (w : world)
    : completion world :=
  let items :=
    map (λ c, match orbiaColumnFilter c with
              | Some f => if bSearchable c then Some f else None
              | None => None
              end) (aoColumns settings) in
  let enabled := existsb (λ o, bool_decide (is_Some o)) items in
  if enabled then
    let serverSide := bServerSide settings in
    let w := with_tr_cells [] (with_tr_timeout None w) in
    w ← each_column
          (setup_column globals serverSide (nTable settings) items
             (aoColumns settings))
          (seq 0 (length (aoColumns settings))) w;
    Normal
      (with_tr_attached
         (Some (if String.eqb appendTo "footer" then Footer else Header)) w)
  else Normal w.

(** A page before any plugin code ran.  Browsers hand out timer handles
    greater than zero. *)
Definition initial_world : world :=
  {| now := 0; inputs := ∅; bindings := ∅; tr_cells := [];
     tr_timeout := None; tr_attached := None; next_node := 0;
     timers := []; next_timer := 1; col_search := ∅; search_log := [];
     draws := []; ext_search := []; console_log := [] |}.

(** A browser page: [console] is an object, nothing defines [value]. *)
Definition browser_globals : gmap string js_value :=
  {[ "console" := VObject ]}.

Definition text_column : column :=
  {| orbiaColumnFilter := Some {| type := "text"; values := None |};
     bSearchable := true; bVisible := true |}.

Definition range_column : column :=
  {| orbiaColumnFilter := Some {| type := "number-range"; values := None |};
     bSearchable := true; bVisible := true |}.

Definition select_column (vs : list (string * string)) : column :=
  {| orbiaColumnFilter := Some {| type := "select"; values := Some vs |};
     bSearchable := true; bVisible := true |}.

Definition unknown_column : column :=
  {| orbiaColumnFilter := Some {| type := "date"; values := None |};
     bSearchable := true; bVisible := true |}.

Definition world_of (c : completion world) : world :=
  match c with
  | Normal w => w
  | Throw _ => initial_world
  end.

(** ** Notions used to state the properties *)

(** The [val] a handler compares with [$this.data('val')] and then stores
    there; the local-mode range handler has no such guard. *)
Definition guard_val (h : handler) (this : nat) (w : world) : option string :=
  match h with
  | HText _ _ => Some (node_val this w)
  | HSelect _ _ => Some (escapeRegex (node_val this w))
  | HRangeFrom _ to =>
      Some (range_expression (node_val this w) (node_val to w))
  | HRangeTo _ from =>
      Some (range_expression (node_val from w) (node_val this w))
  | HRangeLocal => None
  end.

(** The expression a handler passes to [api.column(c).search]. *)
Definition search_arg (h : handler) (this : nat) (w : world) : string :=
  match h with
  | HText serverSide _ =>
      let val := node_val this w in
      if serverSide && truthy_str val then "like:" ++ val else val
  | HSelect serverSide _ =>
      let val := escapeRegex (node_val this w) in
      if serverSide && truthy_str val then "equals:" ++ val
      else if truthy_str val then "^" ++ val ++ "$"
      else val
  | HRangeFrom _ to => range_expression (node_val this w) (node_val to w)
  | HRangeTo _ from => range_expression (node_val from w) (node_val this w)
  | HRangeLocal => ""
  end.

Definition search_column (h : handler) : nat :=
  match h with
  | HText _ c | HSelect _ c | HRangeFrom c _ | HRangeTo c _ => c
  | HRangeLocal => 0
  end.

Definition search_regex (h : handler) : bool :=
  match h with
  | HSelect _ _ => true
  | _ => false
  end.

(** The handlers that end in [schedule_redraw]: text, select and the two
    server-side range handlers. *)
Definition debounced (h : handler) : bool :=
  match h with
  | HRangeLocal => false
  | _ => true
  end.

(** Delivering [v] to [this] gets past the handler's memo guard. *)
Definition effective (this : nat) (v : string) (w : world) : bool :=
  match bindings w !! this with
  | Some h =>
      match guard_val h this (set_val this v w) with
      | Some val => bool_decide (node_data_val this w ≠ Some val)
      | None => true
      end
  | None => false
  end.

(** The same raw value delivered twice in a row: one search-slot update,
    one [setTimeout] call, and a second delivery that changes nothing. *)
Definition applied_once (this : nat) (v : string) (w : world) : Prop :=
  let w1 := deliver this v w in
  let w2 := deliver this v w1 in
  length (search_log w2) = S (length (search_log w))
  ∧ next_timer w2 = S (next_timer w)
  ∧ w2 = w1.

(** A burst of edits of one node: each edit gets past the memo guard and
    comes less than 500 time-units after the previous one. *)
Fixpoint burst (this : nat) (prev : nat) (edits : list (nat * string))
    (w : world) : Prop :=
  match edits with
  | [] => True
  | (t, v) :: rest =>
      (prev ≤ t)%nat ∧ (t < prev + 500)%nat
      ∧ effective this v (advance t w) = true
      ∧ burst this t rest (deliver this v (advance t w))
  end.

Definition on_node (this : nat) (edits : list (nat * string))
    : list (nat * (nat * string)) :=
  map (λ e, (fst e, (this, snd e))) edits.

Fixpoint last_time (t1 : nat) (rest : list (nat * string)) : nat :=
  match rest with
  | [] => t1
  | (t, _) :: rest' => last_time t rest'
  end.

(** Once the event loop has reached the time [t1] of the first edit, the
    edits at [t1] and then [rest] add exactly one redraw, 500 time-units after
    the last of them, when the page is observed at [T]. *)
Definition one_redraw_after (this : nat) (t1 : nat) (v1 : string)
    (rest : list (nat * string)) (T : nat) (w : world) : Prop :=
  draws (advance T (run (on_node this ((t1, v1) :: rest)) w))
  = (draws (advance t1 w) ++ [(last_time t1 rest + 500)%nat])%list.

(** The worlds the page can be in: after set-up, the event loop moves on
    and events reach the nodes. *)
Inductive reachable : world → Prop :=
| reach_setup globals settings appendTo w :
    OrbiaColumnFilter globals settings appendTo initial_world = Normal w →
    reachable w
| reach_advance w t : reachable w → reachable (advance t w)
| reach_fire w node : reachable w → reachable (fire node w)
| reach_deliver w node v : reachable w → reachable (deliver node v w).

(** The controller's state [PendingApply]: exactly one redraw timer is
    pending, it is due at [d], and the row remembers its handle. *)
Definition pending_apply (d : nat) (w : world) : Prop :=
  ∃ id : nat,
    (0 < id)%nat
    ∧ timers w = [{| tm_id := id; tm_deadline := d |}]
    ∧ tr_timeout w = Some id.

(** What holds of the timers at every moment: handles are positive, and
    either no redraw is pending or exactly one is, due after now and at most
    500 time-units from now. *)
Definition timer_invariant (w : world) : Prop :=
  (0 < next_timer w)%nat
  ∧ (timers w = []
     ∨ ∃ d : nat, pending_apply d w ∧ (now w < d)%nat ∧ (d ≤ now w + 500)%nat).

(** Two worlds with the same clock, timers and row handle. *)
Definition same_timers (w w' : world) : Prop :=
  now w' = now w ∧ timers w' = timers w ∧ next_timer w' = next_timer w
  ∧ tr_timeout w' = tr_timeout w.

(** The order of the extended reals on numbers; [NaN] is not comparable. *)
Definition num_le (a b : number) : Prop :=
  match a, b with
  | NaN, _ | _, NaN => False
  | NegInfinity, _ => True
  | _, PosInfinity => True
  | Fin x, Fin y => (x <= y)%Q
  | _, _ => False
  end.

(** *** Sample pages *)

Definition page (cols : list column) (serverSide : bool) (table : nat)
    : world :=
  world_of
    (OrbiaColumnFilter browser_globals
       {| aoColumns := cols; bServerSide := serverSide; nTable := table |}
       "header" initial_world).

(** One text column; its input is node 0. *)
Definition text_page (serverSide : bool) : world :=
  page [text_column] serverSide 1.

(** One select column; the select is node 0. *)
Definition select_page (serverSide : bool) : world :=
  page [select_column [("a.b", "A or B")]] serverSide 1.

(** One number-range column; [from] is node 0 and [to] is node 1. *)
Definition range_page (serverSide : bool) : world :=
  page [range_column] serverSide 1.

(** ** The "clear filters" feature (source lines 280-298) *)

(** The [:input] elements a [<th>] control consists of, in document
    order. *)
Definition control_nodes (c : control) : list nat :=
  match c with
  | TextInput node => [node]
  | SelectInput node _ => [node]
  | RangeInputs from to => [from; to]
  end.

(** The inputs and selects under the filter row, in document order. *)
Definition row_nodes (w : world) : list nat :=
  concat (map (λ th, concat (map control_nodes th)) (tr_cells w)).

(** [$("#" + tableId + "_orbia_column_filters :input")]: the selector looks
    the row up in the document, where it is once the constructor has
    appended it to the table's header or footer. *)
Definition row_inputs (w : world) : list nat :=
  match tr_attached w with
  | Some _ => row_nodes w
  | None => []
  end.

(** The click handler of the button, source lines 286-290:
    [.each(function() { $(this).val('').trigger('change'); })]. *)
Definition clear_filters (w : world) : world :=
  foldl (λ w' node, deliver node "" w') w (row_inputs w).

(** ** Notions about set-up and about the row *)

Definition known_type (s : string) : bool :=
  String.eqb s "text" || String.eqb s "select" || String.eqb s "number-range".

(** The column gets a control: it has a filter, is searchable and
    visible. *)
Definition rendered (c : column) : option filter_spec :=
  match orbiaColumnFilter c with
  | Some f => if bSearchable c && bVisible c then Some f else None
  | None => None
  end.

Definition unknown_rendered (c : column) : bool :=
  match rendered c with
  | Some f => negb (known_type (type f))
  | None => false
  end.

Definition range_rendered (c : column) : bool :=
  match rendered c with
  | Some f => String.eqb (type f) "number-range"
  | None => false
  end.

(** The indexes of the number-range columns that get a control, in column
    order. *)
Definition range_columns (cols : list column) : list nat :=
  List.filter (λ i, default false (range_rendered <$> cols !! i))
    (seq 0 (length cols)).

(** [enabled] of the source, line 94-103. *)
Definition enabled (settings : dt_settings) : bool :=
  existsb
    (λ c, match orbiaColumnFilter c with
          | Some _ => bSearchable c
          | None => false
          end) (aoColumns settings).

(** The host state the plugin can act on, besides the row itself. *)
Definition same_host (w w' : world) : Prop :=
  col_search w' = col_search w ∧ search_log w' = search_log w
  ∧ draws w' = draws w ∧ timers w' = timers w ∧ now w' = now w
  ∧ next_timer w' = next_timer w.

(** The column's search slot is empty: never written, or holding [""],
    which is how DataTables reads a slot that takes part in no search. *)
Definition slot_clear (c : nat) (w : world) : Prop :=
  default "" (col_search w !! c) = "".

(** The other input of a server-side range. *)
Definition sibling_of (h : handler) : option nat :=
  match h with
  | HRangeFrom _ to => Some to
  | HRangeTo _ from => Some from
  | _ => None
  end.

(** How the constructor leaves the row: every bound node is an input of the
    row, the two inputs of a server-side range point at each other, and no
    two controls write the same column's search slot. *)
Record row_structure (w : world) : Prop := {
  rs_input : ∀ n h, bindings w !! n = Some h → is_Some (inputs w !! n);
  rs_from : ∀ n c to,
    bindings w !! n = Some (HRangeFrom c to) →
    bindings w !! to = Some (HRangeTo c n) ∧ n ≠ to;
  rs_to : ∀ n c from,
    bindings w !! n = Some (HRangeTo c from) →
    bindings w !! from = Some (HRangeFrom c n) ∧ n ≠ from;
  rs_column : ∀ n1 n2 h1 h2,
    bindings w !! n1 = Some h1 → bindings w !! n2 = Some h2 →
    debounced h1 = true → debounced h2 = true →
    search_column h1 = search_column h2 →
    n1 = n2 ∨ sibling_of h1 = Some n2;
  rs_listed : ∀ n h, bindings w !! n = Some h → n ∈ row_inputs w;
  rs_nodes : ∀ n, n ∈ row_inputs w → is_Some (inputs w !! n);
  rs_preds : ∀ p, p ∈ ext_search w →
    rp_from p ∈ row_inputs w ∧ rp_to p ∈ row_inputs w
}.

(** What the text handler sends for the value [m]. *)
Definition text_expression (serverSide : bool) (m : string) : string :=
  if serverSide && truthy_str m then "like:" ++ m else m.

(** What the select handler sends for the escaped value [m]. *)
Definition select_expression (serverSide : bool) (m : string) : string :=
  if serverSide && truthy_str m then "equals:" ++ m
  else if truthy_str m then "^" ++ m ++ "$"
  else m.

(** A page whose table already holds the column searches [cs] when the
    constructor runs: DataTables fills the slots from its [searchCols]
    option, or from a saved state, before the plugin sees the table.
    [host_page ∅] is [initial_world]. *)
Definition host_page (cs : gmap nat string) : world :=
  with_search cs [] initial_world.

(** The worlds such a page can be in: after set-up, the event loop moves on
    and events reach the nodes. *)
Inductive reachable_from (cs : gmap nat string) : world → Prop :=
| from_setup globals settings appendTo w :
    OrbiaColumnFilter globals settings appendTo (host_page cs) = Normal w →
    reachable_from cs w
| from_advance w t : reachable_from cs w → reachable_from cs (advance t w)
| from_fire w node : reachable_from cs w → reachable_from cs (fire node w)
| from_deliver w node v :
    reachable_from cs w → reachable_from cs (deliver node v w).

(** A sample page set up over a host that held the column searches
    [cs]. *)
Definition page_from (cs : gmap nat string) (cols : list column)
    (serverSide : bool) (table : nat) : world :=
  world_of
    (OrbiaColumnFilter browser_globals
       {| aoColumns := cols; bServerSide := serverSide; nTable := table |}
       "header" (host_page cs)).

(** A saved state: a range on column 0 and a text search on column 1. *)
Definition saved_search : gmap nat string :=
  {[ 0%nat := "range:3~9"; 1%nat := "like:old" ]}.

(** A server-side page over that state, with a number-range column (nodes 0
    and 1) and a text column (node 2). *)
Definition saved_page : world :=
  page_from saved_search [range_column; text_column] true 1.

(** The column's slot is empty, or it is as the host held it before
    set-up. *)
Definition slot_rest (cs : gmap nat string) (c : nat) (w : world) : Prop :=
  slot_clear c w ∨ col_search w !! c = cs !! c.

(** A text input or select and its column's slot agree: the input was never
    edited, is empty and the slot is as the host held it before set-up; or
    the memo is the (escaped) current value and the slot holds its
    expression. *)
Definition single_coherent (enc : string → string) (esc : string → string)
    (cs : gmap nat string) (c n : nat) (w : world) : Prop :=
  (node_data_val n w = None ∧ node_val n w = ""
   ∧ col_search w !! c = cs !! c)
  ∨ (node_data_val n w = Some (esc (node_val n w))
     ∧ col_search w !! c = Some (enc (esc (node_val n w)))).

(** The two inputs of a server-side range and their column's slot: an empty
    memo goes with an empty value, and the slot is empty or as the host held
    it before set-up whenever both values are empty, or one memo and the
    other value are. *)
Definition range_coherent (cs : gmap nat string) (c from to : nat)
    (w : world) : Prop :=
  (node_data_val from w = Some "" → node_val from w = "")
  ∧ (node_data_val to w = Some "" → node_val to w = "")
  ∧ (node_data_val from w = Some "" → node_val to w = "" → slot_rest cs c w)
  ∧ (node_data_val to w = Some "" → node_val from w = "" → slot_rest cs c w)
  ∧ (node_val from w = "" → node_val to w = "" → slot_rest cs c w).

Definition node_coherent (cs : gmap nat string) (w : world) (n : nat)
    (h : handler) : Prop :=
  match h with
  | HText serverSide c =>
      single_coherent (text_expression serverSide) (λ v, v) cs c n w
  | HSelect serverSide c =>
      single_coherent (select_expression serverSide) escapeRegex cs c n w
  | HRangeFrom c to => range_coherent cs c n to w
  | HRangeTo _ _ => True
  | HRangeLocal => True
  end.

(** Every slot that is no longer as the host held it before set-up belongs
    to a control of the row, and every control agrees with its slot. *)
Definition slots_coherent (cs : gmap nat string) (w : world) : Prop :=
  (∀ c, col_search w !! c ≠ cs !! c →
        ∃ n h, bindings w !! n = Some h ∧ debounced h = true
               ∧ search_column h = c)
  ∧ (∀ n h, bindings w !! n = Some h → node_coherent cs w n h).

(** The loop invariant of the constructor before column [i] is visited. *)
Record setup_invariant (i : nat) (w : world) : Prop := {
  si_fresh : ∀ n, is_Some (inputs w !! n) → (n < next_node w)%nat;
  si_input : ∀ n h, bindings w !! n = Some h → is_Some (inputs w !! n);
  si_from : ∀ n c to,
    bindings w !! n = Some (HRangeFrom c to) →
    bindings w !! to = Some (HRangeTo c n) ∧ n ≠ to;
  si_to : ∀ n c from,
    bindings w !! n = Some (HRangeTo c from) →
    bindings w !! from = Some (HRangeFrom c n) ∧ n ≠ from;
  si_column : ∀ n h,
    bindings w !! n = Some h → (search_column h < i)%nat;
  si_unique : ∀ n1 n2 h1 h2,
    bindings w !! n1 = Some h1 → bindings w !! n2 = Some h2 →
    debounced h1 = true → debounced h2 = true →
    search_column h1 = search_column h2 →
    n1 = n2 ∨ sibling_of h1 = Some n2;
  si_listed : ∀ n h, bindings w !! n = Some h → n ∈ row_nodes w;
  si_nodes : ∀ n, n ∈ row_nodes w → is_Some (inputs w !! n);
  si_preds : ∀ p, p ∈ ext_search w →
    rp_from p ∈ row_nodes w ∧ rp_to p ∈ row_nodes w;
  si_blank : ∀ n h,
    bindings w !! n = Some h →
    node_val n w = ""
    ∧ node_data_val n w
      = (match h with
         | HText _ _ | HSelect _ _ => None
         | _ => Some ""
         end)
}.

(** Every pending timer and every redraw so far comes 500 time-units after
    a call of [search]. *)
Definition redraws_justified (w : world) : Prop :=
  (∀ tm, tm ∈ timers w →
         ∃ s, s ∈ search_log w ∧ (sc_time s + 500)%nat = tm_deadline tm)
  ∧ (∀ d, d ∈ draws w →
          ∃ s, s ∈ search_log w ∧ (sc_time s + 500)%nat = d).

(** ** Decimal texts

    The specification's words for the bounds: "parse as decimals, accepting
    both [.] and [,] as the decimal separator".  A plain decimal text is an
    optional minus sign, whole digits, a separator and fraction digits; it
    denotes its digits read as one integer, over ten to the number of
    fraction digits. *)

Definition all_digits (s : string) : Prop :=
  ∀ c, In c (list_ascii_of_string s) →
       (48 ≤ nat_of_ascii c)%nat ∧ (nat_of_ascii c ≤ 57)%nat.

Fixpoint digits_value (s : string) : Z :=
  match s with
  | EmptyString => 0
  | String c r =>
      (Z.of_nat (nat_of_ascii c) - 48) * 10 ^ Z.of_nat (String.length r)
      + digits_value r
  end%Z.

Definition decimal_text (negative : bool) (whole : string) (sep : ascii)
    (frac : string) : string :=
  (if negative then "-" else "") ++ whole ++ String sep frac.

Definition decimal_value (negative : bool) (whole frac : string) : Q :=
  Qmake ((if negative then - 1 else 1) * digits_value (whole ++ frac))
    (Z.to_pos (10 ^ Z.of_nat (String.length frac))).

(** U+00A0, the no-break space, as UTF-8. *)
Definition nbsp : string :=
  String (ascii_of_nat 194) (String (ascii_of_nat 160) "").

(** * Properties *)

(** Closed side conditions on sample pages are settled by evaluation. *)
Ltac by_eval :=
  first
    [ vm_compute; reflexivity
    | eexists; vm_compute; reflexivity
    | vm_compute; discriminate
    | vm_compute; lia ].

(** ** The local range evaluator *)

Lemma js_le_num_le (a b : number) : js_le a b = true ↔ num_le a b.
Proof.
  destruct a, b; simpl; try (split; [discriminate | tauto]);
    try (split; [tauto | reflexivity]).
  apply Qle_bool_iff.
Qed.

Lemma isNaN_true (n : number) : isNaN n = true ↔ n = NaN.
Proof. destruct n; simpl; split; congruence. Qed.

Lemma or_zero_not_NaN (n : number) : or_zero n ≠ NaN.
Proof.
  destruct n; simpl; try discriminate.
  destruct (Qeq_bool q 0); discriminate.
Qed.

Lemma replace_first_absent (pat rep : ascii) (s : string) :
  ¬ In pat (list_ascii_of_string s) → replace_first pat rep s = s.
Proof.
  induction s as [| c r IH]; simpl; intros Hn; [reflexivity |].
  destruct (Ascii.eqb_spec c pat) as [-> | Hne]; [tauto |].
  rewrite IH; [reflexivity | tauto].
Qed.

(** *** Reading a plain decimal text *)

Lemma string_length_app (a b : string) :
  String.length (a ++ b) = (String.length a + String.length b)%nat.
Proof.
  induction a as [| c a IH]; [reflexivity |].
  change (String c a ++ b) with (String c (a ++ b)).
  cbn [String.length]. rewrite IH. reflexivity.
Qed.

Lemma string_app_nil_r (a : string) : a ++ "" = a.
Proof.
  induction a as [| c a IH]; [reflexivity |].
  change (String c a ++ "") with (String c (a ++ "")).
  rewrite IH. reflexivity.
Qed.

Lemma all_digits_cons (c : ascii) (r : string) :
  all_digits (String c r) →
  ((48 ≤ nat_of_ascii c)%nat ∧ (nat_of_ascii c ≤ 57)%nat) ∧ all_digits r.
Proof.
  intros H. split; [apply H; simpl; auto |].
  intros c' Hin. apply H. simpl. auto.
Qed.

Lemma all_digits_app (a b : string) :
  all_digits a → all_digits b → all_digits (a ++ b).
Proof.
  intros Ha Hb. induction a as [| c a IH]; [exact Hb |].
  apply all_digits_cons in Ha as [Hc Ha].
  change (String c a ++ b) with (String c (a ++ b)).
  intros c' [<- | Hin]; [exact Hc | exact (IH Ha c' Hin)].
Qed.

Lemma is_digit_true (c : ascii) :
  (48 ≤ nat_of_ascii c)%nat ∧ (nat_of_ascii c ≤ 57)%nat → is_digit c = true.
Proof.
  intros [Hlo Hhi]. unfold is_digit. apply andb_true_iff.
  split; apply Nat.leb_le; assumption.
Qed.

Lemma digits_value_app (a b : string) :
  digits_value (a ++ b)
  = (digits_value a * 10 ^ Z.of_nat (String.length b) + digits_value b)%Z.
Proof.
  induction a as [| c a IH]; simpl; [reflexivity |].
  rewrite IH, string_length_app, Nat2Z.inj_add, Z.pow_add_r by lia. ring.
Qed.

Lemma digits_value_nonneg (a : string) :
  all_digits a → (0 ≤ digits_value a)%Z.
Proof.
  induction a as [| c a IH]; simpl; intros Ha; [lia |].
  apply all_digits_cons in Ha as [[Hlo Hhi] Ha]. specialize (IH Ha).
  assert (0 ≤ 10 ^ Z.of_nat (String.length a))%Z by (apply Z.pow_nonneg; lia).
  nia.
Qed.

Lemma read_digits_app (a rest : string) :
  all_digits a →
  (∀ c r, rest = String c r → is_digit c = false) →
  ∀ (acc : Z) (cnt : nat),
    read_digits acc cnt (a ++ rest)
    = ((acc * 10 ^ Z.of_nat (String.length a) + digits_value a)%Z,
       (cnt + String.length a)%nat, rest).
Proof.
  intros Ha Hrest. induction a as [| c a IH]; intros acc cnt.
  - simpl. rewrite Z.mul_1_r, Z.add_0_r, Nat.add_0_r.
    destruct rest as [| c r]; [reflexivity |].
    simpl. rewrite (Hrest c r eq_refl). reflexivity.
  - apply all_digits_cons in Ha as [Hc Ha].
    change (String c a ++ rest) with (String c (a ++ rest)).
    cbn [read_digits]. rewrite (is_digit_true c Hc), (IH Ha).
    cbn [digits_value String.length]. unfold digit_val.
    rewrite Nat2Z.inj_succ, Z.pow_succ_r by lia.
    f_equal. f_equal; [ring | lia].
Qed.

Lemma replace_first_app (pat rep : ascii) (a s : string) :
  ¬ In pat (list_ascii_of_string a) →
  replace_first pat rep (a ++ s) = a ++ replace_first pat rep s.
Proof.
  induction a as [| c a IH]; simpl; intros Hn; [reflexivity |].
  destruct (Ascii.eqb_spec c pat) as [-> | Hne]; [tauto |].
  rewrite IH; [reflexivity | tauto].
Qed.

Lemma all_digits_without (pat : ascii) (a : string) :
  (nat_of_ascii pat < 48)%nat →
  all_digits a → ¬ In pat (list_ascii_of_string a).
Proof. intros Hp Ha Hin. apply Ha in Hin. lia. Qed.

(** A character of the ASCII range that is no white space starts no white
    space. *)
Lemma skip_spaces_ascii (c : ascii) (r : string) :
  (nat_of_ascii c < 128)%nat → is_space c = false →
  skip_spaces (String c r) = String c r.
Proof.
  intros Hc Hs. cbn [skip_spaces]. rewrite Hs.
  destruct r as [| c2 r2]; [reflexivity |].
  unfold is_space2.
  replace (nat_of_ascii c =? 194)%nat with false
    by (symmetry; apply Nat.eqb_neq; lia).
  simpl. destruct r2 as [| c3 r3]; [reflexivity |].
  unfold is_space3.
  replace (nat_of_ascii c =? 225)%nat with false
    by (symmetry; apply Nat.eqb_neq; lia).
  replace (nat_of_ascii c =? 226)%nat with false
    by (symmetry; apply Nat.eqb_neq; lia).
  replace (nat_of_ascii c =? 227)%nat with false
    by (symmetry; apply Nat.eqb_neq; lia).
  replace (nat_of_ascii c =? 239)%nat with false
    by (symmetry; apply Nat.eqb_neq; lia).
  reflexivity.
Qed.

Lemma digit_not_space (c : ascii) :
  (48 ≤ nat_of_ascii c)%nat ∧ (nat_of_ascii c ≤ 57)%nat → is_space c = false.
Proof.
  intros [Hlo Hhi]. unfold is_space.
  repeat (apply orb_false_iff; split); apply Nat.eqb_neq; lia.
Qed.

Lemma parseFloat_digit (c : ascii) (r : string) :
  (48 ≤ nat_of_ascii c)%nat ∧ (nat_of_ascii c ≤ 57)%nat →
  parseFloat (String c r) = read_unsigned (String c r).
Proof.
  intros Hc. unfold parseFloat.
  rewrite skip_spaces_ascii; [| lia | apply digit_not_space, Hc].
  destruct c as [b0 b1 b2 b3 b4 b5 b6 b7].
  destruct b0, b1, b2, b3, b4, b5, b6, b7; try reflexivity;
    exfalso; vm_compute in Hc; lia.
Qed.

Lemma prefix_Infinity_digit (c : ascii) (r : string) :
  (48 ≤ nat_of_ascii c)%nat ∧ (nat_of_ascii c ≤ 57)%nat →
  String.prefix "Infinity" (String c r) = false.
Proof.
  intros Hc. destruct c as [b0 b1 b2 b3 b4 b5 b6 b7].
  destruct b0, b1, b2, b3, b4, b5, b6, b7; try reflexivity;
    exfalso; vm_compute in Hc; lia.
Qed.

Lemma read_unsigned_fraction (s : string) (ip m : Z) (ni nf : nat)
    (r2 r3 : string) :
  String.prefix "Infinity" s = false →
  read_digits 0 0 s = (ip, S ni, String "." r2) →
  read_digits ip 0 r2 = (m, nf, r3) →
  read_unsigned s
  = Number_value (scale10 m (read_exponent r3 - Z.of_nat nf)).
Proof. unfold read_unsigned. intros -> -> ->. reflexivity. Qed.

Lemma scale10_fraction (m : Z) (k : nat) :
  scale10 m (0 - Z.of_nat k) = Qmake m (Z.to_pos (10 ^ Z.of_nat k)).
Proof.
  unfold scale10. destruct k as [| k].
  - simpl. rewrite Z.mul_1_r. reflexivity.
  - replace (0 <=? 0 - Z.of_nat (S k))%Z with false
      by (symmetry; apply Z.leb_gt; lia).
    replace (- (0 - Z.of_nat (S k)))%Z with (Z.of_nat (S k)) by lia.
    reflexivity.
Qed.

(** The whole digits, a point and the fraction digits, read unsigned. *)
Lemma read_unsigned_decimal (whole frac : string) :
  whole ≠ "" → all_digits whole → all_digits frac →
  read_unsigned (whole ++ String "." frac)
  = Number_value (decimal_value false whole frac).
Proof.
  intros Hne Hw Hf.
  destruct whole as [| c w]; [contradiction |].
  pose proof (all_digits_cons c w Hw) as [Hc _].
  rewrite (read_unsigned_fraction _ (digits_value (String c w))
             (digits_value (String c w)
              * 10 ^ Z.of_nat (String.length frac) + digits_value frac)
             (String.length w) (String.length frac) frac "").
  - cbn [read_exponent]. rewrite scale10_fraction.
    unfold decimal_value. rewrite Z.mul_1_l, digits_value_app. reflexivity.
  - apply prefix_Infinity_digit, Hc.
  - rewrite (read_digits_app (String c w) (String "." frac) Hw).
    + rewrite Z.mul_0_l, Z.add_0_l. reflexivity.
    + intros c' r' [= <- _]. reflexivity.
  - rewrite <- (string_app_nil_r frac) at 1.
    rewrite (read_digits_app frac "" Hf); [| discriminate].
    rewrite Nat.add_0_l. reflexivity.
Qed.

Lemma js_neg_Number_value (m : Z) (d : positive) :
  (0 ≤ m)%Z →
  js_neg (Number_value (Qmake m d)) = Number_value (Qmake (- 1 * m) d).
Proof.
  intros Hm. destruct m as [| n | n]; [reflexivity | | lia].
  replace (- 1 * Z.pos n)%Z with (Z.neg n) by lia.
  unfold Number_value. cbn [Qnum Qden].
  unfold round_binary64.
  destruct (2 ^ _ <=? _)%Z; reflexivity.
Qed.

(** A plain decimal text, with a point or, after the replacement made for
    the bounds, with a comma, reads as the Number value of the decimal it
    denotes. *)
Lemma parseFloat_decimal (negative : bool) (whole frac : string) :
  whole ≠ "" → all_digits whole → all_digits frac →
  parseFloat (decimal_text negative whole "." frac)
  = Number_value (decimal_value negative whole frac)
  ∧ replace_first "," "." (decimal_text negative whole "," frac)
    = decimal_text negative whole "." frac
  ∧ replace_first "," "." (decimal_text negative whole "." frac)
    = decimal_text negative whole "." frac.
Proof.
  intros Hne Hw Hf.
  assert (Hcw : ¬ In ","%char (list_ascii_of_string whole))
    by (apply all_digits_without; [vm_compute; lia | exact Hw]).
  assert (Hcf : ¬ In ","%char (list_ascii_of_string frac))
    by (apply all_digits_without; [vm_compute; lia | exact Hf]).
  split; [| split].
  - unfold decimal_text. destruct negative.
    + change ("-" ++ whole ++ String "." frac)
        with (String "-" (whole ++ String "." frac)).
      unfold parseFloat.
      rewrite skip_spaces_ascii; [| vm_compute; lia | reflexivity].
      rewrite (read_unsigned_decimal whole frac Hne Hw Hf).
      unfold decimal_value. rewrite Z.mul_1_l.
      apply js_neg_Number_value.
      apply digits_value_nonneg, all_digits_app; assumption.
    + change ("" ++ whole ++ String "." frac)
        with (whole ++ String "." frac).
      destruct whole as [| c w]; [contradiction |].
      pose proof (all_digits_cons c w Hw) as [Hc _].
      change (String c w ++ String "." frac)
        with (String c (w ++ String "." frac)).
      rewrite (parseFloat_digit c _ Hc).
      apply (read_unsigned_decimal (String c w) frac Hne Hw Hf).
  - unfold decimal_text. destruct negative.
    + change ("-" ++ whole ++ String "," frac)
        with (String "-" (whole ++ String "," frac)).
      cbn [replace_first]. change (Ascii.eqb "-" ",") with false. cbv iota.
      rewrite (replace_first_app _ _ whole _ Hcw).
      cbn [replace_first]. rewrite Ascii.eqb_refl. reflexivity.
    + change ("" ++ whole ++ String "," frac)
        with (whole ++ String "," frac).
      rewrite (replace_first_app _ _ whole _ Hcw).
      cbn [replace_first]. rewrite Ascii.eqb_refl. reflexivity.
  - unfold decimal_text. destruct negative.
    + change ("-" ++ whole ++ String "." frac)
        with (String "-" (whole ++ String "." frac)).
      cbn [replace_first]. change (Ascii.eqb "-" ",") with false. cbv iota.
      rewrite (replace_first_app _ _ whole _ Hcw).
      cbn [replace_first]. change (Ascii.eqb "." ",") with false. cbv iota.
      rewrite (replace_first_absent _ _ frac Hcf). reflexivity.
    + change ("" ++ whole ++ String "." frac)
        with (whole ++ String "." frac).
      rewrite (replace_first_app _ _ whole _ Hcw).
      cbn [replace_first]. change (Ascii.eqb "." ",") with false. cbv iota.
      rewrite (replace_first_absent _ _ frac Hcf). reflexivity.
Qed.

(** C4: [matches from to cellValue] reads the two bounds with [parseFloat]
    after turning the decimal comma into a point, reads the cell with
    [parseFloat] and takes 0 when that gives not-a-number, and is true exactly
    when: both bounds are not-a-number; or only the lower one is and
    value <= max; or only the upper one is and min <= value; or both are
    numbers and min <= value <= max.  A bound written as a plain decimal,
    with a comma or a point, is read as the binary64 nearest to the decimal it
    denotes.  The five sample evaluations of the specification hold, and so do
    samples that tell the comma, the sign, the exponent, leading white space
    (a no-break space too) and the rounding apart. *)
Theorem matches_range_semantics :
  (∀ from to cellValue : string,
     let min := parseFloat (replace_first "," "." from) in
     let max := parseFloat (replace_first "," "." to) in
     let value := or_zero (parseFloat cellValue) in
     value = (if isNaN (parseFloat cellValue) then Fin 0 else value)
     ∧ value ≠ NaN
     ∧ (matches from to cellValue = true ↔
          (min = NaN ∧ max = NaN)
          ∨ (min = NaN ∧ max ≠ NaN ∧ num_le value max)
          ∨ (min ≠ NaN ∧ max = NaN ∧ num_le min value)
          ∨ (min ≠ NaN ∧ max ≠ NaN ∧ num_le min value ∧ num_le value max)))
  ∧ matches "" "" "5" = true
  ∧ matches "1" "" "0" = false
  ∧ matches "1" "10" "5" = true
  ∧ matches "1" "10" "10.0" = true
  ∧ matches "1,5" "" "2" = true
  ∧ (∀ (negative : bool) (whole frac : string),
       whole ≠ "" → all_digits whole → all_digits frac →
       parseFloat (replace_first "," "." (decimal_text negative whole "," frac))
       = Number_value (decimal_value negative whole frac)
       ∧ parseFloat
           (replace_first "," "." (decimal_text negative whole "." frac))
         = Number_value (decimal_value negative whole frac)
       ∧ parseFloat (decimal_text negative whole "." frac)
         = Number_value (decimal_value negative whole frac))
  ∧ matches "1,5" "" "1.2" = false
  ∧ matches "" "1.2" "1,5" = true
  ∧ matches "-1" "" "-2" = false
  ∧ matches "1e2" "" "50" = false
  ∧ matches " 1" "" "0" = false
  ∧ matches (nbsp ++ "5") "" "4" = false
  ∧ matches "abc" "x" "-7" = true
  ∧ matches "0" "1" "n/a" = true
  ∧ matches "0.10000000000000000001" "0.1" "0.1" = true
  ∧ matches "9007199254740993" "" "9007199254740992" = true
  ∧ Number_value (1 # 10) = Fin (3602879701896397 # 36028797018963968).
Proof.
  split; [| split_and!;
              try match goal with
                  | |- matches _ _ _ = _ => vm_compute; reflexivity
                  | |- Number_value _ = _ => vm_compute; reflexivity
                  end].
  - intros from to cellValue min max value.
    split; [| split].
    + subst value. destruct (parseFloat cellValue); reflexivity.
    + apply or_zero_not_NaN.
    + unfold matches. fold min max value.
      rewrite !orb_true_iff, !andb_true_iff, !isNaN_true, !js_le_num_le.
      assert (Hv : value ≠ NaN) by apply or_zero_not_NaN.
      destruct min eqn:Emin, max eqn:Emax; simpl;
        intuition (try congruence; try tauto).
  - intros negative whole frac Hne Hw Hf.
    destruct (parseFloat_decimal negative whole frac Hne Hw Hf)
      as (Hp & Hcomma & Hpoint).
    rewrite Hcomma, Hpoint. auto.
Qed.

(** The bound [-12,50] is read as the number -12.5. *)
Lemma matches_range_semantics_witness :
  parseFloat (replace_first "," "." (decimal_text true "12" "," "50"))
  = Number_value (decimal_value true "12" "50")
  ∧ Number_value (decimal_value true "12" "50") = Fin (- 25 # 2).
Proof.
  split; [| vm_compute; reflexivity].
  apply (proj1 (proj2 (proj2 (proj2 (proj2 (proj2 (proj2
           matches_range_semantics))))))
           true "12" "50").
  - discriminate.
  - intros c Hin. simpl in Hin.
    destruct Hin as [<- | [<- | []]]; vm_compute; lia.
  - intros c Hin. simpl in Hin.
    destruct Hin as [<- | [<- | []]]; vm_compute; lia.
Defined.

(** ** Projections of the world after the basic operations *)

Lemma node_val_set_val (this : nat) (v : string) (w : world) :
  is_Some (inputs w !! this) → node_val this (set_val this v w) = v.
Proof.
  intros [i Hi]. unfold node_val, set_val. simpl.
  rewrite lookup_alter_eq, Hi. reflexivity.
Qed.

Lemma node_val_set_val_ne (n this : nat) (v : string) (w : world) :
  n ≠ this → node_val n (set_val this v w) = node_val n w.
Proof.
  intros Hne. unfold node_val, set_val. simpl.
  rewrite lookup_alter_ne by congruence. reflexivity.
Qed.

Lemma node_data_val_set_val (n this : nat) (v : string) (w : world) :
  node_data_val n (set_val this v w) = node_data_val n w.
Proof.
  unfold node_data_val, set_val. simpl.
  destruct (decide (this = n)) as [->|Hne].
  - rewrite lookup_alter_eq. destruct (inputs w !! n); reflexivity.
  - rewrite lookup_alter_ne by assumption. reflexivity.
Qed.

Lemma node_val_set_data_val (n this : nat) (v : string) (w : world) :
  node_val n (set_data_val this v w) = node_val n w.
Proof.
  unfold node_val, set_data_val. simpl.
  destruct (decide (this = n)) as [->|Hne].
  - rewrite lookup_alter_eq. destruct (inputs w !! n); reflexivity.
  - rewrite lookup_alter_ne by assumption. reflexivity.
Qed.

Lemma node_data_val_set_data_val (this : nat) (v : string) (w : world) :
  is_Some (inputs w !! this) →
  node_data_val this (set_data_val this v w) = Some v.
Proof.
  intros [i Hi]. unfold node_data_val, set_data_val. simpl.
  rewrite lookup_alter_eq, Hi. reflexivity.
Qed.

Lemma set_val_same (this : nat) (v : string) (w : world) :
  node_val this w = v → set_val this v w = w.
Proof.
  intros Hv. unfold set_val.
  replace (alter _ this (inputs w)) with (inputs w);
    [destruct w; reflexivity |].
  symmetry. apply alter_id. intros [x m] Hx.
  unfold node_val in Hv. rewrite Hx in Hv. simpl in *. congruence.
Qed.

Lemma set_data_val_same (this : nat) (v : string) (w : world) :
  node_data_val this w = Some v → set_data_val this v w = w.
Proof.
  intros Hv. unfold set_data_val.
  replace (alter _ this (inputs w)) with (inputs w);
    [destruct w; reflexivity |].
  symmetry. apply alter_id. intros [x m] Hx.
  unfold node_data_val in Hv. rewrite Hx in Hv. simpl in *. congruence.
Qed.

Lemma col_search_schedule_redraw (w : world) :
  col_search (schedule_redraw w) = col_search w.
Proof.
  unfold schedule_redraw.
  destruct (tr_timeout w) as [h|]; [destruct (truthy_handle h) |];
    reflexivity.
Qed.

Lemma search_log_schedule_redraw (w : world) :
  search_log (schedule_redraw w) = search_log w.
Proof.
  unfold schedule_redraw.
  destruct (tr_timeout w) as [h|]; [destruct (truthy_handle h) |];
    reflexivity.
Qed.

Lemma draws_schedule_redraw (w : world) :
  draws (schedule_redraw w) = draws w.
Proof.
  unfold schedule_redraw.
  destruct (tr_timeout w) as [h|]; [destruct (truthy_handle h) |];
    reflexivity.
Qed.

Lemma inputs_schedule_redraw (w : world) :
  inputs (schedule_redraw w) = inputs w.
Proof.
  unfold schedule_redraw.
  destruct (tr_timeout w) as [h|]; [destruct (truthy_handle h) |];
    reflexivity.
Qed.

Lemma bindings_schedule_redraw (w : world) :
  bindings (schedule_redraw w) = bindings w.
Proof.
  unfold schedule_redraw.
  destruct (tr_timeout w) as [h|]; [destruct (truthy_handle h) |];
    reflexivity.
Qed.

Lemma now_schedule_redraw (w : world) : now (schedule_redraw w) = now w.
Proof.
  unfold schedule_redraw.
  destruct (tr_timeout w) as [h|]; [destruct (truthy_handle h) |];
    reflexivity.
Qed.

Lemma next_timer_schedule_redraw (w : world) :
  next_timer (schedule_redraw w) = S (next_timer w).
Proof.
  unfold schedule_redraw.
  destruct (tr_timeout w) as [h|]; [destruct (truthy_handle h) |];
    reflexivity.
Qed.

(** Every handler but the local-mode range handler has the same shape: a
    guard on the memo, then memo, search slot and redraw timer. *)
Lemma run_handler_debounced (h : handler) (this : nat) (w : world)
    (val : string) :
  guard_val h this w = Some val →
  run_handler h this w =
    if decide (node_data_val this w ≠ Some val) then
      schedule_redraw
        (api_search (search_column h) (search_arg h this w) (search_regex h)
           (set_data_val this val w))
    else w.
Proof.
  destruct h; simpl; intros [= <-]; reflexivity.
Qed.

Lemma debounced_guard_val (h : handler) (this : nat) (w : world) :
  debounced h = true → ∃ val, guard_val h this w = Some val.
Proof. destruct h; simpl; intros; try discriminate; eauto. Qed.

(** What a delivery that passes the guard leaves behind. *)
Lemma deliver_effective (h : handler) (this : nat) (v : string) (w : world)
    (val : string) :
  bindings w !! this = Some h →
  guard_val h this (set_val this v w) = Some val →
  node_data_val this w ≠ Some val →
  deliver this v w =
    schedule_redraw
      (api_search (search_column h) (search_arg h this (set_val this v w))
         (search_regex h) (set_data_val this val (set_val this v w))).
Proof.
  intros Hb Hg Hm. unfold deliver, fire.
  replace (bindings (set_val this v w)) with (bindings w) by reflexivity.
  rewrite Hb, (run_handler_debounced _ _ _ _ Hg).
  rewrite node_data_val_set_val. rewrite decide_True by assumption.
  reflexivity.
Qed.

Lemma deliver_suppressed (h : handler) (this : nat) (v : string) (w : world)
    (val : string) :
  bindings w !! this = Some h →
  guard_val h this (set_val this v w) = Some val →
  node_data_val this w = Some val →
  deliver this v w = set_val this v w.
Proof.
  intros Hb Hg Hm. unfold deliver, fire.
  replace (bindings (set_val this v w)) with (bindings w) by reflexivity.
  rewrite Hb, (run_handler_debounced _ _ _ _ Hg).
  rewrite node_data_val_set_val. rewrite decide_False; [reflexivity |].
  intros Hn. apply Hn, Hm.
Qed.

(** ** The row predicate and other tables *)

(** C1: the predicate registered for a local-mode range column of table 1,
    called by DataTables while it filters another table (node 2), returns
    false for every row, although both bounds are empty; the specification
    asks for true there. *)
Theorem foreign_table_rows_rejected :
  let p := {| rp_ci := 0; rp_nTable := 1; rp_from := 0; rp_to := 1 |} in
  ext_search (range_page false) = [p]
  ∧ (∀ data : list string, row_predicate p (range_page false) 1 data = true)
  ∧ (∀ data : list string, row_predicate p (range_page false) 2 data = false).
Proof.
  simpl. split; [reflexivity |]. split; intros data.
  - unfold row_predicate. simpl.
    replace (node_val 0 (range_page false)) with "" by reflexivity.
    replace (node_val 1 (range_page false)) with "" by reflexivity.
    reflexivity.
  - reflexivity.
Qed.

(** The guard of the predicate, for any registered predicate and any table
    other than its own. *)
Lemma row_predicate_other_table (p : range_predicate) (w : world)
    (table : nat) (data : list string) :
  table ≠ rp_nTable p → row_predicate p w table data = false.
Proof.
  intros Hne. unfold row_predicate.
  destruct (Nat.eqb_spec table (rp_nTable p)); [contradiction | reflexivity].
Qed.

(** ** Set-up and unknown filter types *)

Lemma warn_invalid_type_throws (globals : gmap string js_value) (w : world) :
  globals !! "console" = Some VObject →
  globals !! "value" = None →
  warn_invalid_type globals w = Throw (ReferenceError "value").
Proof.
  intros Hc Hv. unfold warn_invalid_type, resolve. rewrite Hc. simpl.
  rewrite Hv. reflexivity.
Qed.

(** C2: with a column of unknown type before a text column, on a page whose
    [console] exists and where nothing defines [value], the constructor ends
    in a [ReferenceError]: no warning is logged, the text column gets no
    input and the filter row is never attached; the specification asks for a
    warning and for set-up to go on. *)
Theorem unknown_type_aborts_setup :
  OrbiaColumnFilter browser_globals
    {| aoColumns := [unknown_column; text_column]; bServerSide := false;
       nTable := 1 |} "header" initial_world
  = Throw (ReferenceError "value")
  ∧ OrbiaColumnFilter browser_globals
      {| aoColumns := [text_column]; bServerSide := false; nTable := 1 |}
      "header" initial_world
    = Normal (text_page false)
  ∧ tr_attached (text_page false) = Some Header
  ∧ tr_cells (text_page false) = [[TextInput 0]].
Proof. repeat split; reflexivity. Qed.

(** ** The expressions sent to the search slot *)

Lemma col_search_deliver_effective (h : handler) (this : nat) (v : string)
    (w : world) (val : string) :
  bindings w !! this = Some h →
  guard_val h this (set_val this v w) = Some val →
  node_data_val this w ≠ Some val →
  col_search (deliver this v w) !! search_column h
  = Some (search_arg h this (set_val this v w)).
Proof.
  intros Hb Hg Hm. rewrite (deliver_effective _ _ _ _ _ Hb Hg Hm).
  rewrite col_search_schedule_redraw. simpl. apply lookup_insert_eq.
Qed.

(** C3: in server-side mode the select handler sends the key after
    [escapeRegex], so the key [a.b] goes out as [equals:a\.b], not as
    ["equals:" + k]; in local mode the same key gives the anchored
    [^a\.b$], and the empty value gives the empty expression. *)
Theorem select_remote_sends_escaped_key :
  col_search (deliver 0 "a.b" (select_page true)) !! 0 = Some "equals:a\.b"
  ∧ "equals:a\.b" ≠ "equals:" ++ "a.b"
  ∧ col_search (deliver 0 "a.b" (select_page false)) !! 0
    = Some ("^" ++ escapeRegex "a.b" ++ "$")
  ∧ col_search (deliver 0 "" (select_page true)) !! 0 = Some ""
  ∧ col_search (deliver 0 "" (select_page false)) !! 0 = Some "".
Proof. repeat split; try reflexivity. discriminate. Qed.

(** The select handler in general: what it sends for a key [k]. *)
Lemma select_encoding (w : world) (this c : nat) (serverSide : bool)
    (k : string) :
  bindings w !! this = Some (HSelect serverSide c) →
  is_Some (inputs w !! this) →
  node_data_val this w ≠ Some (escapeRegex k) →
  col_search (deliver this k w) !! c
  = Some (if truthy_str (escapeRegex k)
          then if serverSide then "equals:" ++ escapeRegex k
               else "^" ++ escapeRegex k ++ "$"
          else "").
Proof.
  intros Hb Hi Hm.
  pose proof (col_search_deliver_effective (HSelect serverSide c) this k w
                (escapeRegex k) Hb) as H.
  simpl in H. rewrite node_val_set_val in H by assumption.
  rewrite (H eq_refl Hm).
  destruct serverSide, (escapeRegex k); reflexivity.
Qed.

(** C6: a text input whose value [v] differs from its memo sends
    ["like:" + v] in server-side mode and [v] itself in local mode when [v]
    is not empty, and the empty expression when [v] is empty. *)
Theorem text_encoding (w : world) (this c : nat) (serverSide : bool)
    (v : string) :
  bindings w !! this = Some (HText serverSide c) →
  is_Some (inputs w !! this) →
  node_data_val this w ≠ Some v →
  let slot := col_search (deliver this v w) !! c in
  (v ≠ "" → serverSide = true → slot = Some ("like:" ++ v))
  ∧ (v ≠ "" → serverSide = false → slot = Some v)
  ∧ (v = "" → slot = Some "").
Proof.
  intros Hb Hi Hm slot.
  pose proof (col_search_deliver_effective (HText serverSide c) this v w v
                Hb) as H.
  simpl in H. rewrite node_val_set_val in H by assumption.
  specialize (H eq_refl Hm). fold slot in H.
  repeat split.
  - intros Hv ->. rewrite H. destruct v; [contradiction | reflexivity].
  - intros Hv ->. rewrite H. reflexivity.
  - intros ->. rewrite H. destruct serverSide; reflexivity.
Qed.

(** The text input of a one-column page, in both modes. *)
Lemma text_encoding_witness :
  col_search (deliver 0 "abc" (text_page true)) !! 0 = Some "like:abc"
  ∧ col_search (deliver 0 "abc" (text_page false)) !! 0 = Some "abc"
  ∧ col_search (deliver 0 "" (text_page true)) !! 0 = Some "".
Proof.
  split; [| split].
  - refine (proj1 (text_encoding (text_page true) 0 0 true "abc" _ _ _) _ _);
      [reflexivity | eexists; reflexivity | discriminate | discriminate
      | reflexivity].
  - refine (proj1 (proj2
              (text_encoding (text_page false) 0 0 false "abc" _ _ _)) _ _);
      [reflexivity | eexists; reflexivity | discriminate | discriminate
      | reflexivity].
  - refine (proj2 (proj2
              (text_encoding (text_page true) 0 0 true "" _ _ _)) _);
      [reflexivity | eexists; reflexivity | discriminate | reflexivity].
Defined.

Lemma range_expression_nonempty (valFrom valTo : string) :
  valFrom ≠ "" ∨ valTo ≠ "" →
  range_expression valFrom valTo = "range:" ++ valFrom ++ "~" ++ valTo.
Proof.
  intros H. unfold range_expression.
  destruct (String.eqb_spec valFrom ""), (String.eqb_spec valTo "");
    simpl; try reflexivity.
  destruct H; contradiction.
Qed.

(** C5: for a number-range column in server-side mode, an edit of either
    input that gets past the memo guard puts in the column's search slot
    ["range:" + from + "~" + to] as soon as one bound is not empty, built
    from the edited value and the current value of the other input, and the
    empty expression when both bounds are empty. *)
Theorem range_remote_encoding (w : world) (c from to : nat) (v : string) :
  bindings w !! from = Some (HRangeFrom c to) →
  bindings w !! to = Some (HRangeTo c from) →
  from ≠ to →
  is_Some (inputs w !! from) →
  is_Some (inputs w !! to) →
  let e_from := range_expression v (node_val to w) in
  let e_to := range_expression (node_val from w) v in
  (node_data_val from w ≠ Some e_from →
   col_search (deliver from v w) !! c = Some e_from)
  ∧ (node_data_val to w ≠ Some e_to →
     col_search (deliver to v w) !! c = Some e_to)
  ∧ (v ≠ "" ∨ node_val to w ≠ "" →
     e_from = "range:" ++ v ++ "~" ++ node_val to w)
  ∧ (node_val from w ≠ "" ∨ v ≠ "" →
     e_to = "range:" ++ node_val from w ++ "~" ++ v)
  ∧ (v = "" → node_val to w = "" → e_from = "")
  ∧ (node_val from w = "" → v = "" → e_to = "").
Proof.
  intros Hbf Hbt Hne Hif Hit e_from e_to.
  split; [| split; [| split; [| split; [| split]]]].
  - intros Hm.
    pose proof (col_search_deliver_effective (HRangeFrom c to) from v w
                  e_from Hbf) as H.
    simpl in H. rewrite node_val_set_val in H by assumption.
    rewrite node_val_set_val_ne in H by congruence.
    exact (H eq_refl Hm).
  - intros Hm.
    pose proof (col_search_deliver_effective (HRangeTo c from) to v w
                  e_to Hbt) as H.
    simpl in H. rewrite node_val_set_val in H by assumption.
    rewrite node_val_set_val_ne in H by congruence.
    exact (H eq_refl Hm).
  - apply range_expression_nonempty.
  - apply range_expression_nonempty.
  - intros -> Ht. subst e_from. rewrite Ht. reflexivity.
  - intros Hf ->. subst e_to. rewrite Hf. reflexivity.
Qed.

(** The end-to-end example of the specification: [from = 3] gives
    [range:3~], then [to = 9] gives [range:3~9]. *)
Lemma range_remote_encoding_witness :
  col_search (deliver 0 "3" (range_page true)) !! 0 = Some "range:3~"
  ∧ col_search (deliver 1 "9" (deliver 0 "3" (range_page true))) !! 0
    = Some "range:3~9".
Proof.
  split.
  - transitivity
      (Some (range_expression "3" (node_val 1 (range_page true))));
      [| vm_compute; reflexivity].
    apply (range_remote_encoding (range_page true) 0 0 1 "3"); by_eval.
  - transitivity
      (Some (range_expression
               (node_val 0 (deliver 0 "3" (range_page true))) "9"));
      [| vm_compute; reflexivity].
    apply (range_remote_encoding (deliver 0 "3" (range_page true)) 0 0 1 "9");
      by_eval.
Defined.

(** ** Local-mode range inputs *)

(** C10: in local mode the two inputs of a number-range column are bound to
    a handler that only calls [api.draw()], and set-up registers the row
    predicate: set-up and every edit leave the column search slots and the log
    of search calls as they were, no timer is started, and each edit adds a
    redraw at the very time of the edit. *)
Theorem range_local_redraws_at_once :
  (∀ (globals : gmap string js_value) (table c : nat) (item : filter_spec)
     (w : world),
     type item = "number-range" →
     ∃ w' : world,
       setup_control globals false table c item w
       = Normal ([RangeInputs (next_node w) (S (next_node w))], w')
       ∧ bindings w' !! next_node w = Some HRangeLocal
       ∧ bindings w' !! S (next_node w) = Some HRangeLocal
       ∧ col_search w' = col_search w
       ∧ search_log w' = search_log w
       ∧ ext_search w'
         = (ext_search w ++
              [{| rp_ci := c; rp_nTable := table; rp_from := next_node w;
                  rp_to := S (next_node w) |}])%list)
  ∧ (∀ (w : world) (this : nat) (v : string),
       bindings w !! this = Some HRangeLocal →
       let w' := deliver this v w in
       col_search w' = col_search w
       ∧ search_log w' = search_log w
       ∧ draws w' = (draws w ++ [now w])%list
       ∧ timers w' = timers w
       ∧ tr_timeout w' = tr_timeout w).
Proof.
  split.
  - intros globals table c item w Ht. unfold setup_control. rewrite Ht.
    simpl. eexists. split; [reflexivity |]. simpl.
    rewrite lookup_insert_ne by lia. rewrite !lookup_insert_eq.
    repeat split; reflexivity.
  - intros w this v Hb w'. subst w'. unfold deliver, fire.
    replace (bindings (set_val this v w)) with (bindings w) by reflexivity.
    rewrite Hb. simpl. repeat split; reflexivity.
Qed.

(** The lower bound of a local-mode range, edited to [5]. *)
Lemma range_local_redraws_at_once_witness :
  bindings (range_page false) !! 0 = Some HRangeLocal
  ∧ col_search (deliver 0 "5" (range_page false)) = col_search (range_page false)
  ∧ draws (deliver 0 "5" (range_page false))
    = (draws (range_page false) ++ [now (range_page false)])%list.
Proof.
  assert (Hb : bindings (range_page false) !! 0 = Some HRangeLocal)
    by by_eval.
  split; [exact Hb |].
  pose proof (proj2 range_local_redraws_at_once (range_page false) 0 "5" Hb)
    as (Hc & _ & Hd & _).
  split; [exact Hc | exact Hd].
Defined.

(** ** Timers *)

Lemma timer_invariant_ext (w w' : world) :
  now w' = now w → timers w' = timers w → next_timer w' = next_timer w →
  tr_timeout w' = tr_timeout w →
  timer_invariant w → timer_invariant w'.
Proof.
  unfold timer_invariant, pending_apply.
  intros -> -> -> ->. tauto.
Qed.

(** Scheduling replaces: whatever was pending is cancelled and the one
    timer left is the new one. *)
Lemma schedule_redraw_replaces (w : world) :
  (0 < next_timer w)%nat →
  (timers w = [] ∨ ∃ d, pending_apply d w) →
  timers (schedule_redraw w)
  = [{| tm_id := next_timer w; tm_deadline := (now w + 500)%nat |}]
  ∧ tr_timeout (schedule_redraw w) = Some (next_timer w).
Proof.
  intros Hn [He | (d & id & Hid & Ht & Hh)]; unfold schedule_redraw.
  - destruct (tr_timeout w) as [h|]; [destruct (truthy_handle h) |];
      simpl; rewrite ?He; split; reflexivity.
  - rewrite Hh.
    assert (Htr : truthy_handle id = true).
    { unfold truthy_handle. destruct (Nat.eqb_spec id 0); [lia | reflexivity]. }
    rewrite Htr. simpl. rewrite Ht.
    rewrite filter_cons, decide_False by (simpl; tauto).
    split; reflexivity.
Qed.

Lemma timer_invariant_schedule_redraw (w : world) :
  timer_invariant w → timer_invariant (schedule_redraw w).
Proof.
  intros [Hn Hp].
  destruct (schedule_redraw_replaces w Hn) as [Ht Hh].
  { destruct Hp as [He | (d & Hd & _)]; [left | right]; eauto. }
  split.
  - rewrite next_timer_schedule_redraw. lia.
  - right. exists (now w + 500)%nat.
    rewrite now_schedule_redraw. split; [| lia].
    exists (next_timer w). auto.
Qed.

Lemma timer_invariant_advance (t : nat) (w : world) :
  timer_invariant w → timer_invariant (advance t w).
Proof.
  intros [Hn Hp]. split; [exact Hn |].
  destruct Hp as [He | (d & (id & Hid & Ht & Hh) & Hlo & Hhi)].
  - left. unfold advance. simpl. rewrite He. reflexivity.
  - destruct (decide (t < d)%nat) as [Hlt | Hge].
    + right. exists d. split; [| unfold advance; simpl; lia].
      exists id. unfold advance. simpl. rewrite Ht.
      rewrite filter_cons, decide_True by (simpl; lia). auto.
    + left. unfold advance. simpl. rewrite Ht.
      rewrite filter_cons, decide_False by (simpl; lia). reflexivity.
Qed.

Lemma timer_invariant_fire (node : nat) (w : world) :
  timer_invariant w → timer_invariant (fire node w).
Proof.
  intros Hinv. unfold fire.
  destruct (bindings w !! node) as [h|]; [| exact Hinv].
  destruct (debounced h) eqn:Hd.
  - destruct (debounced_guard_val h node w Hd) as [val Hg].
    rewrite (run_handler_debounced _ _ _ _ Hg).
    destruct (decide (node_data_val node w ≠ Some val)); [| exact Hinv].
    apply timer_invariant_schedule_redraw.
    revert Hinv. apply timer_invariant_ext; reflexivity.
  - destruct h; try discriminate. simpl.
    revert Hinv. apply timer_invariant_ext; reflexivity.
Qed.

Lemma timer_invariant_deliver (node : nat) (v : string) (w : world) :
  timer_invariant w → timer_invariant (deliver node v w).
Proof.
  intros Hinv. unfold deliver. apply timer_invariant_fire.
  revert Hinv. apply timer_invariant_ext; reflexivity.
Qed.

(** Set-up starts no timer and leaves the clock alone. *)
Lemma setup_control_same_timers (globals : gmap string js_value)
    (serverSide : bool) (table c : nat) (item : filter_spec) (w : world)
    (r : list control * world) :
  setup_control globals serverSide table c item w = Normal r →
  same_timers w (snd r).
Proof.
  unfold setup_control, same_timers.
  destruct (String.eqb (type item) "text"); [intros [= <-]; simpl; tauto |].
  destruct (String.eqb (type item) "select");
    [intros [= <-]; simpl; tauto |].
  destruct (String.eqb (type item) "number-range").
  { destruct serverSide; intros [= <-]; simpl; tauto. }
  unfold warn_invalid_type.
  destruct (resolve globals "console") as [cv|]; simpl; [| discriminate].
  destruct (truthy cv); simpl; [| intros [= <-]; simpl; tauto].
  destruct (resolve globals "value") as [vv|]; simpl; [| discriminate].
  destruct cv; simpl; try discriminate.
  intros [= <-]. simpl. tauto.
Qed.

Lemma setup_column_same_timers (globals : gmap string js_value)
    (serverSide : bool) (table : nat) (items : list (option filter_spec))
    (cols : list column) (i : nat) (w w' : world) :
  setup_column globals serverSide table items cols i w = Normal w' →
  same_timers w w'.
Proof.
  unfold setup_column.
  destruct (default false (bVisible <$> cols !! i));
    [| intros [= <-]; unfold same_timers; tauto].
  destruct (mjoin (items !! i)) as [item|];
    [| intros [= <-]; unfold same_timers; simpl; tauto].
  destruct (setup_control globals serverSide table i item w) as [r|] eqn:Hr;
    simpl; [| discriminate].
  intros [= <-]. apply setup_control_same_timers in Hr.
  unfold same_timers in *. simpl. exact Hr.
Qed.

Lemma each_column_same_timers (f : nat → world → completion world)
    (indexes : list nat) :
  (∀ i w w', f i w = Normal w' → same_timers w w') →
  ∀ w w', each_column f indexes w = Normal w' → same_timers w w'.
Proof.
  intros Hf. induction indexes as [| i rest IH]; simpl; intros w w'.
  - intros [= <-]. unfold same_timers. tauto.
  - destruct (f i w) as [w1|] eqn:H1; simpl; [| discriminate].
    intros H2. apply Hf in H1. apply IH in H2.
    unfold same_timers in *. intuition congruence.
Qed.

Lemma setup_timer_invariant (globals : gmap string js_value)
    (settings : dt_settings) (appendTo : string) (w : world) :
  OrbiaColumnFilter globals settings appendTo initial_world = Normal w →
  timer_invariant w.
Proof.
  unfold OrbiaColumnFilter.
  match goal with |- context [if ?b then _ else _] => destruct b end.
  - match goal with
    | |- context [each_column ?f ?l ?w0] =>
        destruct (each_column f l w0) as [w1|] eqn:H1
    end; simpl; [| discriminate].
    intros [= <-].
    apply each_column_same_timers in H1;
      [| intros i u u'; apply setup_column_same_timers].
    destruct H1 as (Hnow & Ht & Hn & Hh). simpl in *.
    split; simpl; [rewrite Hn; lia | left; exact Ht].
  - intros [= <-]. split; simpl; [lia | left; reflexivity].
Qed.

Lemma reachable_timer_invariant (w : world) :
  reachable w → timer_invariant w.
Proof.
  induction 1.
  - eapply setup_timer_invariant; eassumption.
  - apply timer_invariant_advance; assumption.
  - apply timer_invariant_fire; assumption.
  - apply timer_invariant_deliver; assumption.
Qed.

(** C9: in every world the page can reach there is at most one pending
    redraw timer; scheduling a redraw cancels what was pending and leaves
    exactly the new timer, due 500 time-units later; and a pending timer is
    due at most 500 time-units from now, at which time the event loop runs
    it: the redraw happens then and nothing stays pending. *)
Theorem at_most_one_pending_timer :
  (∀ w : world,
     reachable w → (length (timers w) ≤ 1)%nat ∧ timer_invariant w)
  ∧ (∀ w : world,
       timer_invariant w →
       timers (schedule_redraw w)
       = [{| tm_id := next_timer w; tm_deadline := (now w + 500)%nat |}]
       ∧ tr_timeout (schedule_redraw w) = Some (next_timer w))
  ∧ (∀ (w : world) (tm : timer),
       reachable w → tm ∈ timers w →
       (tm_deadline tm ≤ now w + 500)%nat
       ∧ timers (advance (tm_deadline tm) w) = []
       ∧ draws (advance (tm_deadline tm) w)
         = (draws w ++ [tm_deadline tm])%list).
Proof.
  split; [| split].
  - intros w Hr. pose proof (reachable_timer_invariant w Hr) as Hinv.
    split; [| exact Hinv].
    destruct Hinv as [_ [He | (d & (id & _ & Ht & _) & _)]].
    + rewrite He. simpl. lia.
    + rewrite Ht. simpl. lia.
  - intros w [Hn Hp]. apply schedule_redraw_replaces; [exact Hn |].
    destruct Hp as [He | (d & Hd & _)]; eauto.
  - intros w tm Hr Hin.
    destruct (reachable_timer_invariant w Hr)
      as [_ [He | (d & (id & _ & Ht & _) & Hlo & Hhi)]].
    + rewrite He in Hin. inversion Hin.
    + rewrite Ht in Hin. apply list_elem_of_singleton in Hin. subst tm.
      simpl. split; [exact Hhi |].
      unfold advance. simpl. rewrite Ht.
      rewrite !filter_cons.
      rewrite decide_False by (simpl; lia).
      rewrite decide_True by (simpl; lia).
      split; reflexivity.
Qed.

(** Two edits of a text input, 100 time-units apart. *)
Lemma at_most_one_pending_timer_witness :
  (length
     (timers (deliver 0 "ab" (advance 100 (deliver 0 "a" (text_page true)))))
   ≤ 1)%nat.
Proof.
  apply (proj1 at_most_one_pending_timer).
  apply reach_deliver, reach_advance, reach_deliver.
  apply (reach_setup browser_globals
           {| aoColumns := [text_column]; bServerSide := true; nTable := 1 |}
           "header").
  vm_compute. reflexivity.
Defined.

(** ** Duplicate deliveries *)

Lemma node_val_inputs (n : nat) (w w' : world) :
  inputs w' = inputs w → node_val n w' = node_val n w.
Proof. unfold node_val. intros ->. reflexivity. Qed.

Lemma guard_val_inputs (h : handler) (this : nat) (w w' : world) :
  inputs w' = inputs w → guard_val h this w' = guard_val h this w.
Proof.
  intros Hi. destruct h; simpl; rewrite ?(node_val_inputs _ _ _ Hi);
    reflexivity.
Qed.

Lemma guard_val_set_data_val (h : handler) (this n : nat) (val : string)
    (w : world) :
  guard_val h this (set_data_val n val w) = guard_val h this w.
Proof. destruct h; simpl; rewrite ?node_val_set_data_val; reflexivity. Qed.

Lemma effective_inv (this : nat) (v : string) (w : world) :
  effective this v w = true →
  ∀ h, bindings w !! this = Some h → debounced h = true →
  ∃ val, guard_val h this (set_val this v w) = Some val
         ∧ node_data_val this w ≠ Some val.
Proof.
  unfold effective. intros He h Hb Hd. rewrite Hb in He.
  destruct (debounced_guard_val h this (set_val this v w) Hd) as [val Hg].
  rewrite Hg in He. exists val. split; [exact Hg |].
  apply bool_decide_eq_true in He. exact He.
Qed.

(** A second delivery of the same value finds the memo set and returns at
    the guard. *)
Lemma deliver_twice (w : world) (this : nat) (h : handler) (v : string) :
  bindings w !! this = Some h →
  debounced h = true →
  is_Some (inputs w !! this) →
  deliver this v (deliver this v w) = deliver this v w.
Proof.
  intros Hb Hd Hi.
  destruct (debounced_guard_val h this (set_val this v w) Hd) as [val Hg].
  assert (Hi0 : is_Some (inputs (set_val this v w) !! this)).
  { unfold set_val. simpl. rewrite lookup_alter_eq.
    destruct Hi as [i ->]. simpl. eauto. }
  destruct (decide (node_data_val this w = Some val)) as [Hm | Hm].
  - rewrite (deliver_suppressed _ _ _ _ _ Hb Hg Hm).
    assert (Hsame : set_val this v (set_val this v w) = set_val this v w).
    { apply set_val_same, node_val_set_val, Hi. }
    rewrite (deliver_suppressed h this v (set_val this v w) val);
      [exact Hsame | exact Hb | rewrite Hsame; exact Hg |].
    rewrite node_data_val_set_val. exact Hm.
  - rewrite (deliver_effective _ _ _ _ _ Hb Hg Hm).
    set (w1 := schedule_redraw _).
    assert (Hin : inputs w1 = inputs (set_data_val this val (set_val this v w))).
    { unfold w1. rewrite inputs_schedule_redraw. reflexivity. }
    assert (Hsame : set_val this v w1 = w1).
    { apply set_val_same. rewrite (node_val_inputs _ _ _ Hin).
      rewrite node_val_set_data_val. apply node_val_set_val, Hi. }
    rewrite (deliver_suppressed h this v w1 val); [exact Hsame | | |].
    + unfold w1. rewrite bindings_schedule_redraw. exact Hb.
    + rewrite Hsame, (guard_val_inputs _ _ _ _ Hin), guard_val_set_data_val.
      exact Hg.
    + unfold node_data_val. rewrite Hin.
      apply (node_data_val_set_data_val this val (set_val this v w) Hi0).
Qed.

(** C7, as the code has it: for a text input, a select and the two inputs
    of a server-side number range, a second delivery of the same raw value
    changes nothing; when the first delivery gets past the memo guard, the
    two deliveries together make exactly one search-slot update and one
    [setTimeout] call. *)
Theorem duplicate_delivery_suppressed (w : world) (this : nat) (h : handler)
    (v : string) :
  bindings w !! this = Some h →
  debounced h = true →
  is_Some (inputs w !! this) →
  deliver this v (deliver this v w) = deliver this v w
  ∧ (effective this v w = true → applied_once this v w).
Proof.
  intros Hb Hd Hi.
  pose proof (deliver_twice w this h v Hb Hd Hi) as H2.
  split; [exact H2 |].
  intros He. unfold applied_once. rewrite H2.
  destruct (effective_inv this v w He h Hb Hd) as (val & Hg & Hm).
  rewrite (deliver_effective _ _ _ _ _ Hb Hg Hm).
  rewrite search_log_schedule_redraw, next_timer_schedule_redraw. simpl.
  rewrite length_app. simpl. repeat split; lia.
Qed.

(** One instance for each kind of guarded input. *)
Lemma duplicate_delivery_suppressed_witness :
  applied_once 0 "abc" (text_page true)
  ∧ applied_once 0 "a.b" (select_page false)
  ∧ applied_once 0 "3" (range_page true).
Proof.
  split; [| split].
  - apply (duplicate_delivery_suppressed (text_page true) 0 (HText true 0));
      by_eval.
  - apply (duplicate_delivery_suppressed (select_page false) 0
             (HSelect false 0)); by_eval.
  - apply (duplicate_delivery_suppressed (range_page true) 0
             (HRangeFrom 0 1)); by_eval.
Defined.

(** C7 as stated fails on an input of a local-mode number range: the
    [input] and [change] events of one edit make no search-slot update and
    two redraws, and the second delivery is not suppressed. *)
Lemma local_range_duplicate_not_suppressed :
  ¬ applied_once 0 "5" (range_page false)
  ∧ search_log (deliver 0 "5" (deliver 0 "5" (range_page false))) = []
  ∧ draws (deliver 0 "5" (deliver 0 "5" (range_page false))) = [0; 0]%nat.
Proof.
  split; [| split; vm_compute; reflexivity].
  intros (Hlog & _).
  assert (E : length (search_log
                        (deliver 0 "5" (deliver 0 "5" (range_page false))))
              = 0%nat) by (vm_compute; reflexivity).
  rewrite E in Hlog. simpl in Hlog. discriminate.
Qed.

(** ** Debounce *)

Lemma pending_apply_ext (d : nat) (w w' : world) :
  timers w' = timers w → tr_timeout w' = tr_timeout w →
  pending_apply d w → pending_apply d w'.
Proof. unfold pending_apply. intros -> ->. tauto. Qed.

(** The event loop moving on to a time before the deadline runs nothing. *)
Lemma advance_before_deadline (d t : nat) (w : world) :
  pending_apply d w → (t < d)%nat →
  pending_apply d (advance t w) ∧ draws (advance t w) = draws w.
Proof.
  intros (id & Hid & Ht & Hh) Hlt. unfold advance, pending_apply. simpl.
  rewrite Ht, !filter_cons.
  rewrite decide_True by (simpl; lia).
  rewrite decide_False by (simpl; lia).
  simpl. rewrite app_nil_r. split; [| reflexivity].
  exists id. auto.
Qed.

(** Reaching the deadline runs the pending redraw, at the deadline. *)
Lemma advance_fires (d T : nat) (w : world) :
  pending_apply d w → (d ≤ T)%nat →
  draws (advance T w) = (draws w ++ [d])%list.
Proof.
  intros (id & Hid & Ht & Hh) Hle. unfold advance. simpl.
  rewrite Ht, filter_cons.
  rewrite decide_True by (simpl; lia). reflexivity.
Qed.

(** A delivery that gets past the guard: the slot is written at once and the
    row is left with exactly one timer, due 500 time-units from now. *)
Lemma deliver_effective_pending (this : nat) (h : handler) (v : string)
    (w : world) :
  bindings w !! this = Some h →
  debounced h = true →
  effective this v w = true →
  (0 < next_timer w)%nat →
  (timers w = [] ∨ ∃ d, pending_apply d w) →
  let w' := deliver this v w in
  pending_apply (now w + 500) w'
  ∧ now w' = now w
  ∧ draws w' = draws w
  ∧ bindings w' = bindings w
  ∧ (0 < next_timer w')%nat
  ∧ ∃ e : string,
      search_log w'
      = (search_log w ++
           [{| sc_time := now w; sc_column := search_column h;
               sc_input := e; sc_regex := search_regex h |}])%list.
Proof.
  intros Hb Hd He Hn Hp w'. subst w'.
  destruct (effective_inv this v w He h Hb Hd) as (val & Hg & Hm).
  rewrite (deliver_effective _ _ _ _ _ Hb Hg Hm).
  set (X := api_search _ _ _ _).
  destruct (schedule_redraw_replaces X) as [Ht Hh].
  { exact Hn. }
  { destruct Hp as [He' | [d Hpd]]; [left; exact He' | right; exists d].
    revert Hpd. apply pending_apply_ext; reflexivity. }
  rewrite now_schedule_redraw, draws_schedule_redraw,
    bindings_schedule_redraw, next_timer_schedule_redraw,
    search_log_schedule_redraw.
  split; [| split; [| split; [| split; [| split]]]];
    try reflexivity; [| simpl; lia | eexists; reflexivity].
  exists (next_timer X). split; [exact Hn |]. split; [exact Ht | exact Hh].
Qed.

(** The edits after the first: each one replaces the pending timer. *)
Lemma burst_run_pending (this : nat) (h : handler) :
  debounced h = true →
  ∀ (rest : list (nat * string)) (w : world) (t : nat),
    bindings w !! this = Some h →
    (0 < next_timer w)%nat →
    pending_apply (t + 500) w →
    now w = t →
    burst this t rest w →
    let w' := run (on_node this rest) w in
    pending_apply (last_time t rest + 500) w'
    ∧ draws w' = draws w
    ∧ ∃ l : list search_call,
        search_log w' = (search_log w ++ l)%list
        ∧ map sc_time l = map fst rest
        ∧ Forall (λ s, sc_column s = search_column h) l.
Proof.
  intros Hd. induction rest as [| [t' v] rest IH]; intros w t Hb Hn Hp Hnow Hbu.
  - simpl. split; [exact Hp |]. split; [reflexivity |].
    exists []. rewrite app_nil_r. repeat split; constructor.
  - simpl in Hbu. destruct Hbu as (Hle & Hlt & He & Hbu).
    destruct (advance_before_deadline (t + 500) t' w Hp Hlt) as [Hp1 Hd1].
    set (w1 := advance t' w) in *.
    assert (Hnow1 : now w1 = t') by (unfold w1, advance; simpl; lia).
    destruct (deliver_effective_pending this h v w1)
      as (Hp2 & Hnow2 & Hd2 & Hb2 & Hn2 & e & Hlog2);
      [exact Hb | exact Hd | exact He | exact Hn | right; eauto |].
    set (w2 := deliver this v w1) in *.
    rewrite Hnow1 in Hp2, Hnow2, Hlog2.
    destruct (IH w2 t') as (Hp3 & Hd3 & l & Hlog3 & Htimes & Hcols);
      [rewrite Hb2; exact Hb | exact Hn2 | exact Hp2 | exact Hnow2
      | exact Hbu |].
    change (run (on_node this ((t', v) :: rest)) w)
      with (run (on_node this rest) w2).
    change (last_time t ((t', v) :: rest)) with (last_time t' rest).
    cbv zeta.
    split; [exact Hp3 |]. split; [congruence |].
    eexists (_ :: l). split; [| split].
    + rewrite Hlog3, Hlog2.
      replace (search_log w1) with (search_log w) by reflexivity.
      rewrite <- app_assoc. reflexivity.
    + simpl. rewrite Htimes. reflexivity.
    + constructor; [reflexivity | exact Hcols].
Qed.

(** C8, as the code has it: for a text input, a select and the two inputs
    of a server-side number range, a burst of one or more edits that each get
    past the memo guard and each come less than 500 time-units after the
    previous one ends in exactly one redraw, 500 time-units after the last
    edit; the search slot is written at the time of every one of the
    edits. *)
Theorem burst_redraws_once (w : world) (this : nat) (h : handler) (t1 : nat)
    (v1 : string) (rest : list (nat * string)) (T : nat) :
  timer_invariant w →
  bindings w !! this = Some h →
  debounced h = true →
  (now w ≤ t1)%nat →
  effective this v1 (advance t1 w) = true →
  burst this t1 rest (deliver this v1 (advance t1 w)) →
  (last_time t1 rest + 500 ≤ T)%nat →
  one_redraw_after this t1 v1 rest T w
  ∧ ∃ l : list search_call,
      search_log (run (on_node this ((t1, v1) :: rest)) w)
      = (search_log w ++ l)%list
      ∧ map sc_time l = t1 :: map fst rest
      ∧ Forall (λ s, sc_column s = search_column h) l.
Proof.
  intros Hinv Hb Hd Hnow He Hbu HT.
  pose proof (timer_invariant_advance t1 w Hinv) as [Hn1 Hp1].
  set (w1 := advance t1 w) in *.
  assert (Hnow1 : now w1 = t1) by (unfold w1, advance; simpl; lia).
  destruct (deliver_effective_pending this h v1 w1)
    as (Hp2 & Hnow2 & Hd2 & Hb2 & Hn2 & e & Hlog2);
    [exact Hb | exact Hd | exact He | exact Hn1
    | destruct Hp1 as [Hidle | (d & Hpd & _)]; eauto |].
  set (w2 := deliver this v1 w1) in *.
  rewrite Hnow1 in Hp2, Hnow2, Hlog2.
  destruct (burst_run_pending this h Hd rest w2 t1)
    as (Hp3 & Hd3 & l & Hlog3 & Htimes & Hcols);
    [rewrite Hb2; exact Hb | exact Hn2 | exact Hp2 | exact Hnow2
    | exact Hbu |].
  assert (Hrun : run (on_node this ((t1, v1) :: rest)) w
                 = run (on_node this rest) w2) by reflexivity.
  split.
  - unfold one_redraw_after. rewrite Hrun. fold w1.
    rewrite (advance_fires _ _ _ Hp3 HT). congruence.
  - rewrite Hrun. eexists (_ :: l). split; [| split].
    + rewrite Hlog3, Hlog2.
      replace (search_log w1) with (search_log w) by reflexivity.
      rewrite <- app_assoc. reflexivity.
    + simpl. rewrite Htimes. reflexivity.
    + constructor; [reflexivity | exact Hcols].
Qed.

(** Three edits of a server-side text input at times 10, 200 and 600: one
    redraw, at 1100. *)
Lemma burst_redraws_once_witness :
  one_redraw_after 0 10 "a" [(200, "ab"); (600, "abc")]%nat 1100
    (text_page true)
  ∧ draws (advance 1100
             (run (on_node 0 [(10, "a"); (200, "ab"); (600, "abc")]%nat)
                (text_page true)))
    = [1100]%nat.
Proof.
  split; [| vm_compute; reflexivity].
  apply (burst_redraws_once (text_page true) 0 (HText true 0) 10 "a"
           [(200, "ab"); (600, "abc")]%nat 1100);
    try by_eval.
  split; [vm_compute; lia | left; vm_compute; reflexivity].
Defined.

(** C8 as stated fails on an input of a local-mode number range: two edits
    100 time-units apart make two redraws, each at the time of its edit, and
    none 500 time-units after the last one. *)
Lemma local_range_burst_redraws_each_time :
  ¬ one_redraw_after 0 0 "1" [(100, "12")]%nat 1000 (range_page false)
  ∧ draws (advance 1000
             (run (on_node 0 [(0, "1"); (100, "12")]%nat) (range_page false)))
    = [0; 100]%nat.
Proof.
  split; [| vm_compute; reflexivity].
  unfold one_redraw_after. vm_compute. discriminate.
Qed.

(** ** The constructor: which columns get a control *)

Lemma enabled_unfold (settings : dt_settings) :
  existsb (λ o : option filter_spec, bool_decide (is_Some o))
    (map (λ c, match orbiaColumnFilter c with
               | Some f => if bSearchable c then Some f else None
               | None => None
               end) (aoColumns settings))
  = enabled settings.
Proof.
  unfold enabled. induction (aoColumns settings) as [| c cols IH];
    [reflexivity |].
  simpl. rewrite IH. f_equal.
  destruct (orbiaColumnFilter c); [destruct (bSearchable c) |]; reflexivity.
Qed.

Lemma item_lookup (cols : list column) (i : nat) :
  mjoin (map (λ c, match orbiaColumnFilter c with
                   | Some f => if bSearchable c then Some f else None
                   | None => None
                   end) cols !! i)
  = cols !! i ≫= (λ c, match orbiaColumnFilter c with
                        | Some f => if bSearchable c then Some f else None
                        | None => None
                        end).
Proof.
  rewrite list_lookup_fmap. destruct (cols !! i); reflexivity.
Qed.

(** One visit of the column loop, read off the column's own fields. *)
Lemma setup_column_unfold (globals : gmap string js_value) (serverSide : bool)
    (table : nat) (cols : list column) (i : nat) (w : world) :
  setup_column globals serverSide table
    (map (λ c, match orbiaColumnFilter c with
               | Some f => if bSearchable c then Some f else None
               | None => None
               end) cols) cols i w
  = match cols !! i with
    | Some c =>
        if bVisible c then
          match rendered c with
          | Some item =>
              r ← setup_control globals serverSide table i item w;
              Normal (with_tr_cells (tr_cells (snd r) ++ [fst r]) (snd r))
          | None => Normal (with_tr_cells (tr_cells w ++ [[]]) w)
          end
        else Normal w
    | None => Normal w
    end.
Proof.
  unfold setup_column. rewrite item_lookup.
  destruct (cols !! i) as [c|]; simpl; [| reflexivity].
  unfold rendered.
  destruct (bVisible c); [| reflexivity].
  destruct (orbiaColumnFilter c); [destruct (bSearchable c) |]; reflexivity.
Qed.

Lemma each_column_seq_total (P : nat → world → Prop)
    (f : nat → world → completion world) :
  ∀ (k a : nat) (w : world),
    P a w →
    (∀ i u, (a ≤ i < a + k)%nat → P i u →
            ∃ u', f i u = Normal u' ∧ P (S i) u') →
    ∃ w', each_column f (seq a k) w = Normal w' ∧ P (a + k)%nat w'.
Proof.
  induction k as [| k IH]; intros a w Hw Hstep; simpl.
  - exists w. rewrite Nat.add_0_r. auto.
  - destruct (Hstep a w) as (u & Hu & HPu); [lia | exact Hw |].
    rewrite Hu. simpl.
    destruct (IH (S a) u HPu) as (w' & Hw' & HP').
    { intros i v Hi. apply Hstep. lia. }
    exists w'. split; [exact Hw' |].
    replace (a + S k)%nat with (S a + k)%nat by lia. exact HP'.
Qed.

Lemma each_column_seq_ind (P : nat → world → Prop)
    (f : nat → world → completion world) :
  ∀ (k a : nat) (w w' : world),
    P a w →
    (∀ i u u', (a ≤ i < a + k)%nat → P i u → f i u = Normal u' →
               P (S i) u') →
    each_column f (seq a k) w = Normal w' → P (a + k)%nat w'.
Proof.
  induction k as [| k IH]; intros a w w' Hw Hstep; simpl.
  - intros [= <-]. rewrite Nat.add_0_r. exact Hw.
  - destruct (f a w) as [u|] eqn:Hu; simpl; [| discriminate].
    intros Hrest.
    replace (a + S k)%nat with (S a + k)%nat by lia.
    apply (IH (S a) u w'); [| | exact Hrest].
    + apply (Hstep a w u); [lia | exact Hw | exact Hu].
    + intros i v v' Hi. apply Hstep. lia.
Qed.

Lemma setup_control_known (globals : gmap string js_value)
    (serverSide : bool) (table c : nat) (item : filter_spec) (w : world) :
  known_type (type item) = true →
  ∃ r, setup_control globals serverSide table c item w = Normal r
       ∧ length (fst r) = 1%nat.
Proof.
  unfold known_type, setup_control. intros Hk.
  destruct (String.eqb (type item) "text"); [eexists; split; reflexivity |].
  destruct (String.eqb (type item) "select");
    [eexists; split; reflexivity |].
  destruct (String.eqb (type item) "number-range"); [| discriminate].
  eexists; split; reflexivity.
Qed.

Lemma enabled_false_none (settings : dt_settings) (c : column) :
  enabled settings = false → c ∈ aoColumns settings → rendered c = None.
Proof.
  unfold enabled, rendered. intros He Hin.
  apply list_elem_of_In in Hin.
  destruct (orbiaColumnFilter c) eqn:Hf; [| reflexivity].
  destruct (bSearchable c) eqn:Hs; [| reflexivity].
  exfalso. rewrite <- not_true_iff_false in He. apply He.
  apply existsb_exists. exists c. rewrite Hf, Hs. auto.
Qed.

Lemma OrbiaColumnFilter_unfold (globals : gmap string js_value)
    (settings : dt_settings) (appendTo : string) (w : world) :
  OrbiaColumnFilter globals settings appendTo w
  = if enabled settings then
      w' ← each_column
             (setup_column globals (bServerSide settings) (nTable settings)
                (map (λ c, match orbiaColumnFilter c with
                           | Some f => if bSearchable c then Some f else None
                           | None => None
                           end) (aoColumns settings))
                (aoColumns settings))
             (seq 0 (length (aoColumns settings)))
             (with_tr_cells [] (with_tr_timeout None w));
      Normal
        (with_tr_attached
           (Some (if String.eqb appendTo "footer" then Footer else Header))
           w')
    else Normal w.
Proof.
  unfold OrbiaColumnFilter. rewrite enabled_unfold. reflexivity.
Qed.

(** X1: when no column is both filtered and searchable, the constructor
    does nothing at all: no row, no node, no binding, and no exception
    whatever the page's globals are. *)
Theorem constructor_without_filters (globals : gmap string js_value)
    (settings : dt_settings) (appendTo : string) (w : world) :
  (∀ c, c ∈ aoColumns settings →
        orbiaColumnFilter c = None ∨ bSearchable c = false) →
  OrbiaColumnFilter globals settings appendTo w = Normal w.
Proof.
  intros Hnone. rewrite OrbiaColumnFilter_unfold.
  replace (enabled settings) with false; [reflexivity |].
  symmetry. apply not_true_iff_false. unfold enabled.
  rewrite existsb_exists. intros (c & Hin & Hc).
  apply list_elem_of_In in Hin.
  destruct (Hnone c Hin) as [Hf | Hs].
  - rewrite Hf in Hc. discriminate.
  - rewrite Hs in Hc. destruct (orbiaColumnFilter c); discriminate.
Qed.

(** A filtered column that is not searchable, even of unknown type. *)
Lemma constructor_without_filters_witness :
  OrbiaColumnFilter ∅
    {| aoColumns :=
         [{| orbiaColumnFilter := Some {| type := "date"; values := None |};
             bSearchable := false; bVisible := true |};
          {| orbiaColumnFilter := None; bSearchable := true;
             bVisible := true |}];
       bServerSide := true; nTable := 1 |} "footer" initial_world
  = Normal initial_world.
Proof.
  apply constructor_without_filters. intros c Hc.
  repeat (apply elem_of_cons in Hc; destruct Hc as [-> | Hc]);
    [right; reflexivity | left; reflexivity | inversion Hc].
Defined.

(** X2: when every column that gets a control has one of the three known
    types, the constructor completes whatever the page's globals are; if some
    column is filtered and searchable the row then holds exactly one cell per
    visible column, is attached to the footer when [appendTo] is ['footer']
    and to the header otherwise, and carries no timer handle. *)
Theorem constructor_completes (globals : gmap string js_value)
    (settings : dt_settings) (appendTo : string) (w : world) :
  (∀ c, c ∈ aoColumns settings → unknown_rendered c = false) →
  enabled settings = true →
  ∃ w',
    OrbiaColumnFilter globals settings appendTo w = Normal w'
    ∧ length (tr_cells w')
      = length (List.filter bVisible (aoColumns settings))
    ∧ tr_attached w'
      = Some (if String.eqb appendTo "footer" then Footer else Header)
    ∧ tr_timeout w' = None.
Proof.
  intros Hknown Hen. rewrite OrbiaColumnFilter_unfold, Hen.
  set (cols := aoColumns settings) in *.
  destruct (each_column_seq_total
              (λ i u, length (tr_cells u)
                      = length (List.filter bVisible (take i cols))
                      ∧ tr_timeout u = None)
              (setup_column globals (bServerSide settings) (nTable settings)
                 (map (λ c, match orbiaColumnFilter c with
                            | Some f =>
                                if bSearchable c then Some f else None
                            | None => None
                            end) cols) cols)
              (length cols) 0
              (with_tr_cells [] (with_tr_timeout None w)))
    as (w' & Hw' & Hlen & Hto).
  { split; reflexivity. }
  { intros i u Hi [Hu Hto]. rewrite setup_column_unfold.
    destruct (cols !! i) as [c|] eqn:Hc;
      [| apply lookup_ge_None in Hc; lia].
    rewrite (take_S_r _ _ _ Hc), List.filter_app, length_app. simpl.
    assert (Hkc : unknown_rendered c = false).
    { apply Hknown. eapply list_elem_of_lookup_2. exact Hc. }
    unfold unknown_rendered in Hkc.
    destruct (bVisible c); simpl.
    - destruct (rendered c) as [item|].
      + apply negb_false_iff in Hkc.
        destruct (setup_control_known globals (bServerSide settings)
                    (nTable settings) i item u Hkc) as (r & Hr & _).
        rewrite Hr. simpl. eexists. split; [reflexivity |]. simpl.
        rewrite length_app. simpl.
        pose proof (setup_control_same_timers _ _ _ _ _ _ _ Hr)
          as (_ & _ & _ & Hh).
        assert (Hcells : tr_cells (snd r) = tr_cells u).
        { clear -Hr. unfold setup_control in Hr.
          destruct (String.eqb (type item) "text");
            [injection Hr as <-; reflexivity |].
          destruct (String.eqb (type item) "select");
            [injection Hr as <-; reflexivity |].
          destruct (String.eqb (type item) "number-range").
          { destruct (bServerSide settings); injection Hr as <-;
              reflexivity. }
          unfold warn_invalid_type in Hr.
          destruct (resolve globals "console") as [cv|]; simpl in Hr;
            [| discriminate].
          destruct (truthy cv); simpl in Hr;
            [| injection Hr as <-; reflexivity].
          destruct (resolve globals "value") as [vv|]; simpl in Hr;
            [| discriminate].
          destruct cv; simpl in Hr; try discriminate.
          injection Hr as <-. reflexivity. }
        rewrite Hcells, Hu, Hh. split; [lia | exact Hto].
      + eexists. split; [reflexivity |]. simpl.
        rewrite length_app. simpl. split; [lia | exact Hto].
    - eexists. split; [reflexivity |]. split; [lia | exact Hto]. }
  rewrite Hw'. simpl. eexists. split; [reflexivity |]. simpl.
  rewrite Hlen, Hto. simpl. rewrite firstn_all. auto.
Qed.

(** Three columns, the middle one hidden: two cells, in the footer. *)
Lemma constructor_completes_witness :
  ∃ w',
    OrbiaColumnFilter ∅
      {| aoColumns :=
           [text_column;
            {| orbiaColumnFilter := Some {| type := "date"; values := None |};
               bSearchable := true; bVisible := false |};
            {| orbiaColumnFilter := None; bSearchable := true;
               bVisible := true |}];
         bServerSide := true; nTable := 1 |} "footer" initial_world
    = Normal w'
    ∧ length (tr_cells w') = 2%nat
    ∧ tr_attached w' = Some Footer
    ∧ tr_timeout w' = None.
Proof.
  apply (constructor_completes ∅
           {| aoColumns :=
                [text_column;
                 {| orbiaColumnFilter :=
                      Some {| type := "date"; values := None |};
                    bSearchable := true; bVisible := false |};
                 {| orbiaColumnFilter := None; bSearchable := true;
                    bVisible := true |}];
              bServerSide := true; nTable := 1 |} "footer" initial_world).
  - intros c Hc.
    repeat (apply elem_of_cons in Hc; destruct Hc as [-> | Hc]);
      [reflexivity | reflexivity | reflexivity | inversion Hc].
  - reflexivity.
Defined.

(** ** The constructor: unknown types *)

Lemma setup_control_unknown (globals : gmap string js_value)
    (serverSide : bool) (table c : nat) (item : filter_spec) (w : world) :
  known_type (type item) = false →
  setup_control globals serverSide table c item w
  = (w' ← warn_invalid_type globals w; Normal ([], w')).
Proof.
  unfold known_type, setup_control. intros Hk.
  destruct (String.eqb (type item) "text"); [discriminate |].
  destruct (String.eqb (type item) "select"); [discriminate |].
  destruct (String.eqb (type item) "number-range"); [discriminate |].
  reflexivity.
Qed.

Lemma rendered_visible (c : column) (item : filter_spec) :
  rendered c = Some item → bVisible c = true.
Proof.
  unfold rendered. destruct (orbiaColumnFilter c); [| discriminate].
  destruct (bSearchable c), (bVisible c); simpl; congruence.
Qed.

Lemma setup_column_outcome (globals : gmap string js_value)
    (serverSide : bool) (table : nat) (cols : list column) (i : nat)
    (w : world) :
  globals !! "console" = Some VObject →
  globals !! "value" = None →
  if default false (unknown_rendered <$> cols !! i) then
    setup_column globals serverSide table
      (map (λ c, match orbiaColumnFilter c with
                 | Some f => if bSearchable c then Some f else None
                 | None => None
                 end) cols) cols i w
    = Throw (ReferenceError "value")
  else
    ∃ w', setup_column globals serverSide table
            (map (λ c, match orbiaColumnFilter c with
                       | Some f => if bSearchable c then Some f else None
                       | None => None
                       end) cols) cols i w
          = Normal w'.
Proof.
  intros Hc Hv. rewrite setup_column_unfold.
  destruct (cols !! i) as [c|]; simpl; [| eauto].
  unfold unknown_rendered.
  destruct (rendered c) as [item|] eqn:Hr.
  - rewrite (rendered_visible c item Hr).
    destruct (known_type (type item)) eqn:Hk; simpl.
    + destruct (setup_control_known globals serverSide table i item w Hk)
        as (r & -> & _). simpl. eauto.
    + rewrite (setup_control_unknown _ _ _ _ _ _ Hk).
      rewrite (warn_invalid_type_throws globals w Hc Hv). reflexivity.
  - destruct (bVisible c); eauto.
Qed.

Lemma each_column_outcome (f : nat → world → completion world)
    (bad : nat → bool) (e : js_error) :
  (∀ i u, if bad i then f i u = Throw e else ∃ u', f i u = Normal u') →
  ∀ (l : list nat) (w : world),
    if existsb bad l then each_column f l w = Throw e
    else ∃ w', each_column f l w = Normal w'.
Proof.
  intros Hf. induction l as [| i l IH]; intros w; simpl; [eauto |].
  specialize (Hf i w). destruct (bad i); simpl.
  - rewrite Hf. reflexivity.
  - destruct Hf as [u ->]. simpl. apply IH.
Qed.

Lemma existsb_indexes (cols : list column) (g : column → bool) :
  existsb (λ i, default false (g <$> cols !! i)) (seq 0 (length cols)) = true
  ↔ ∃ c, c ∈ cols ∧ g c = true.
Proof.
  rewrite existsb_exists. split.
  - intros (i & _ & Hi). destruct (cols !! i) as [c|] eqn:Hc;
      [| discriminate].
    exists c. split; [eapply list_elem_of_lookup_2; exact Hc | exact Hi].
  - intros (c & Hin & Hg). apply list_elem_of_lookup in Hin as [i Hi].
    exists i. split.
    + apply in_seq. apply lookup_lt_Some in Hi. lia.
    + rewrite Hi. exact Hg.
Qed.

(** X3: on a page whose [console] is an object and where nothing defines
    [value], the constructor ends in [ReferenceError: value] exactly when some
    column that gets a control (filtered, searchable and visible) has a type
    other than the three known ones, whatever else the table holds; a hidden
    or unsearchable column of unknown type does no harm. *)
Theorem constructor_throws_iff (globals : gmap string js_value)
    (settings : dt_settings) (appendTo : string) (w : world) :
  globals !! "console" = Some VObject →
  globals !! "value" = None →
  OrbiaColumnFilter globals settings appendTo w
  = Throw (ReferenceError "value")
  ↔ ∃ c, c ∈ aoColumns settings ∧ unknown_rendered c = true.
Proof.
  intros Hc Hv. rewrite <- existsb_indexes.
  rewrite OrbiaColumnFilter_unfold.
  pose proof (each_column_outcome _ _ (ReferenceError "value")
                (λ i u, setup_column_outcome globals (bServerSide settings)
                          (nTable settings) (aoColumns settings) i u Hc Hv)
                (seq 0 (length (aoColumns settings)))
                (with_tr_cells [] (with_tr_timeout None w))) as Hloop.
  destruct (existsb _ (seq 0 (length (aoColumns settings)))) eqn:Hex.
  - split; [reflexivity | intros _].
    replace (enabled settings) with true; [rewrite Hloop; reflexivity |].
    symmetry. apply existsb_indexes in Hex as (c & Hin & Hu).
    unfold enabled. apply existsb_exists. exists c.
    split; [apply list_elem_of_In; exact Hin |].
    unfold unknown_rendered, rendered in Hu.
    destruct (orbiaColumnFilter c); [| discriminate].
    destruct (bSearchable c); [reflexivity | discriminate].
  - split; [| discriminate].
    destruct (enabled settings); [| discriminate].
    destruct Hloop as [w' ->]. discriminate.
Qed.

(** The unknown type after two good columns, and the same type hidden. *)
Lemma constructor_throws_iff_witness :
  OrbiaColumnFilter browser_globals
    {| aoColumns := [text_column; range_column; unknown_column];
       bServerSide := true; nTable := 1 |} "header" initial_world
  = Throw (ReferenceError "value").
Proof.
  apply (constructor_throws_iff browser_globals
           {| aoColumns := [text_column; range_column; unknown_column];
              bServerSide := true; nTable := 1 |} "header" initial_world);
    [by_eval | by_eval |].
  exists unknown_column. split; [| reflexivity].
  apply list_elem_of_In. simpl. auto.
Defined.

(** ** The constructor and the host *)

Lemma setup_control_same_host (globals : gmap string js_value)
    (serverSide : bool) (table c : nat) (item : filter_spec) (w : world)
    (r : list control * world) :
  setup_control globals serverSide table c item w = Normal r →
  same_host w (snd r) ∧ tr_cells (snd r) = tr_cells w.
Proof.
  unfold setup_control, same_host.
  destruct (String.eqb (type item) "text"); [intros [= <-]; simpl; tauto |].
  destruct (String.eqb (type item) "select");
    [intros [= <-]; simpl; tauto |].
  destruct (String.eqb (type item) "number-range").
  { destruct serverSide; intros [= <-]; simpl; tauto. }
  unfold warn_invalid_type.
  destruct (resolve globals "console") as [cv|]; simpl; [| discriminate].
  destruct (truthy cv); simpl; [| intros [= <-]; simpl; tauto].
  destruct (resolve globals "value") as [vv|]; simpl; [| discriminate].
  destruct cv; simpl; try discriminate.
  intros [= <-]. simpl. tauto.
Qed.

Lemma setup_column_same_host (globals : gmap string js_value)
    (serverSide : bool) (table : nat) (items : list (option filter_spec))
    (cols : list column) (i : nat) (w w' : world) :
  setup_column globals serverSide table items cols i w = Normal w' →
  same_host w w'.
Proof.
  unfold setup_column.
  destruct (default false (bVisible <$> cols !! i));
    [| intros [= <-]; unfold same_host; tauto].
  destruct (mjoin (items !! i)) as [item|];
    [| intros [= <-]; unfold same_host; simpl; tauto].
  destruct (setup_control globals serverSide table i item w) as [r|] eqn:Hr;
    simpl; [| discriminate].
  intros [= <-]. apply setup_control_same_host in Hr as [Hr _].
  unfold same_host in *. simpl. exact Hr.
Qed.

Lemma same_host_trans (w1 w2 w3 : world) :
  same_host w1 w2 → same_host w2 w3 → same_host w1 w3.
Proof. unfold same_host. intuition congruence. Qed.

Lemma constructor_leaves_host_alone_aux (globals : gmap string js_value)
    (settings : dt_settings) (appendTo : string) (w w' : world) :
  OrbiaColumnFilter globals settings appendTo w = Normal w' →
  col_search w' = col_search w ∧ timers w' = timers w
  ∧ draws w' = draws w ∧ search_log w' = search_log w.
Proof.
  rewrite OrbiaColumnFilter_unfold.
  destruct (enabled settings); [| intros [= <-]; tauto].
  match goal with
  | |- context [each_column ?f ?l ?w0] =>
      destruct (each_column f l w0) as [w1|] eqn:H1
  end; simpl; [| discriminate].
  intros [= <-].
  apply (each_column_seq_ind (λ _ u, same_host w u)) in H1.
  - unfold same_host in *. simpl. tauto.
  - unfold same_host. simpl. tauto.
  - intros i u u' _ Hu Hstep. apply setup_column_same_host in Hstep.
    eapply same_host_trans; eassumption.
Qed.

(** X4: the constructor only builds the row: when it completes, no search
    slot was written, [search] and [draw] were not called, no timer was
    started, and the clock did not move. *)
Theorem constructor_leaves_host_alone (globals : gmap string js_value)
    (settings : dt_settings) (appendTo : string) (w w' : world) :
  OrbiaColumnFilter globals settings appendTo w = Normal w' →
  same_host w w'.
Proof.
  rewrite OrbiaColumnFilter_unfold.
  destruct (enabled settings);
    [| intros [= <-]; unfold same_host; tauto].
  match goal with
  | |- context [each_column ?f ?l ?w0] =>
      destruct (each_column f l w0) as [w1|] eqn:H1
  end; simpl; [| discriminate].
  intros [= <-].
  apply (each_column_seq_ind (λ _ u, same_host w u)) in H1.
  - unfold same_host in *. simpl. exact H1.
  - unfold same_host. simpl. tauto.
  - intros i u u' _ Hu Hstep. apply setup_column_same_host in Hstep.
    eapply same_host_trans; eassumption.
Qed.

Lemma constructor_leaves_host_alone_witness :
  same_host initial_world (range_page true).
Proof.
  apply (constructor_leaves_host_alone browser_globals
           {| aoColumns := [range_column]; bServerSide := true;
              nTable := 1 |} "header").
  vm_compute. reflexivity.
Defined.

(** ** The shape of the row the constructor builds *)

Lemma row_nodes_snoc (w w' : world) (th : list control) :
  tr_cells w' = (tr_cells w ++ [th])%list →
  row_nodes w' = (row_nodes w ++ concat (map control_nodes th))%list.
Proof.
  unfold row_nodes. intros ->.
  rewrite map_app, concat_app. simpl. rewrite app_nil_r. reflexivity.
Qed.

Ltac split_insert H :=
  apply lookup_insert_Some in H;
  destruct H as [[? ?] | [? H]]; subst.

Lemma setup_invariant_keep (i : nat) (w w' : world) :
  inputs w' = inputs w → bindings w' = bindings w →
  next_node w' = next_node w → ext_search w' = ext_search w →
  row_nodes w' = row_nodes w →
  setup_invariant i w → setup_invariant (S i) w'.
Proof.
  intros Hi Hb Hn He Hr [].
  split; unfold node_val, node_data_val in *;
    rewrite ?Hi, ?Hb, ?Hn, ?He, ?Hr; eauto.
  intros n h Hh. specialize (si_column0 n h Hh). lia.
Qed.

(** A text input or a select is added for column [i]. *)
Lemma setup_invariant_add_single (i : nat) (w w' : world) (h : handler)
    (ctl : control) :
  setup_invariant i w →
  (∃ serverSide, h = HText serverSide i ∨ h = HSelect serverSide i) →
  control_nodes ctl = [next_node w] →
  inputs w' = <[next_node w := {| in_value := ""; in_memo := None |}]>
                (inputs w) →
  bindings w' = <[next_node w := h]> (bindings w) →
  next_node w' = S (next_node w) →
  ext_search w' = ext_search w →
  tr_cells w' = (tr_cells w ++ [[ctl]])%list →
  setup_invariant (S i) w'.
Proof.
  intros [] (ss & Hh) Hctl Hi Hb Hn He Hc.
  assert (Hr : row_nodes w' = (row_nodes w ++ [next_node w])%list).
  { rewrite (row_nodes_snoc w w' [ctl] Hc). simpl. rewrite Hctl.
    reflexivity. }
  assert (Hold : ∀ n h', bindings w !! n = Some h' → n ≠ next_node w).
  { intros n h' Hn'. apply si_input0, si_fresh0 in Hn'. lia. }
  assert (Hcol : search_column h = i ∧ debounced h = true
                 ∧ sibling_of h = None).
  { destruct Hh as [-> | ->]; auto. }
  destruct Hcol as (Hcol & Hdeb & Hsib).
  split; unfold node_val, node_data_val in *;
    rewrite ?Hi, ?Hb, ?Hn, ?He, ?Hr.
  - intros n Hs. apply lookup_insert_is_Some in Hs as [<- | [_ Hs]];
      [lia | apply si_fresh0 in Hs; lia].
  - intros n h' Hn'. apply lookup_insert_is_Some.
    split_insert Hn'; [left; reflexivity |].
    right. split; [assumption | eapply si_input0; eassumption].
  - intros n c to Hn'. split_insert Hn';
      [destruct Hh; discriminate |].
    destruct (si_from0 n c to Hn') as [Hto Hne]. split; [| exact Hne].
    rewrite lookup_insert_ne; [exact Hto |].
    intros <-. apply (Hold _ _ Hto). reflexivity.
  - intros n c from Hn'. split_insert Hn';
      [destruct Hh; discriminate |].
    destruct (si_to0 n c from Hn') as [Hfrom Hne]. split; [| exact Hne].
    rewrite lookup_insert_ne; [exact Hfrom |].
    intros <-. apply (Hold _ _ Hfrom). reflexivity.
  - intros n h' Hn'. split_insert Hn'; [lia |].
    specialize (si_column0 n h' Hn'). lia.
  - intros n1 n2 h1 h2 H1 H2 Hd1 Hd2 Hcc.
    split_insert H1; split_insert H2.
    + left; reflexivity.
    + specialize (si_column0 n2 h2 H2). lia.
    + specialize (si_column0 n1 h1 H1). lia.
    + eapply si_unique0; eassumption.
  - intros n h' Hn'. apply elem_of_app. split_insert Hn'.
    + right. apply list_elem_of_singleton. reflexivity.
    + left. eapply si_listed0; eassumption.
  - intros n Hin. apply lookup_insert_is_Some.
    apply elem_of_app in Hin as [Hin | Hin].
    + destruct (decide (next_node w = n)); [left; assumption |].
      right. split; [assumption | apply si_nodes0; exact Hin].
    + apply list_elem_of_singleton in Hin. left. congruence.
  - intros p Hp. destruct (si_preds0 p Hp).
    split; apply elem_of_app; left; assumption.
  - intros n h' Hn'. split_insert Hn'.
    + rewrite lookup_insert_eq. simpl.
      split; [reflexivity | destruct Hh as [-> | ->]; reflexivity].
    + rewrite lookup_insert_ne by assumption.
      apply (si_blank0 n h' Hn').
Qed.

(** The two inputs of a number range are added for column [i]: bound to
    each other in server-side mode, to the local handler and a new row
    predicate otherwise. *)
Lemma setup_invariant_add_range (i table : nat) (w w' : world)
    (hf ht : handler) (preds : list range_predicate) :
  setup_invariant i w →
  (hf = HRangeFrom i (S (next_node w)) ∧ ht = HRangeTo i (next_node w)
   ∧ preds = [])
  ∨ (hf = HRangeLocal ∧ ht = HRangeLocal
     ∧ preds = [{| rp_ci := i; rp_nTable := table; rp_from := next_node w;
                   rp_to := S (next_node w) |}]) →
  inputs w'
  = <[S (next_node w) := {| in_value := ""; in_memo := Some "" |}]>
      (<[next_node w := {| in_value := ""; in_memo := Some "" |}]>
         (inputs w)) →
  bindings w' = <[S (next_node w) := ht]> (<[next_node w := hf]> (bindings w)) →
  next_node w' = S (S (next_node w)) →
  ext_search w' = (ext_search w ++ preds)%list →
  tr_cells w'
  = (tr_cells w ++ [[RangeInputs (next_node w) (S (next_node w))]])%list →
  setup_invariant (S i) w'.
Proof.
  intros [] Hh Hi Hb Hn He Hc.
  assert (Hr : row_nodes w'
               = (row_nodes w ++ [next_node w; S (next_node w)])%list).
  { rewrite (row_nodes_snoc w w' _ Hc). reflexivity. }
  assert (Hold : ∀ n h', bindings w !! n = Some h' → (n < next_node w)%nat).
  { intros n h' Hn'. apply si_input0, si_fresh0 in Hn'. exact Hn'. }
  assert (Hcol : (search_column hf ≤ i)%nat ∧ (search_column ht ≤ i)%nat).
  { destruct Hh as [(-> & -> & _) | (-> & -> & _)]; simpl; lia. }
  split; unfold node_val, node_data_val in *;
    rewrite ?Hi, ?Hb, ?Hn, ?He, ?Hr.
  - intros n Hs.
    apply lookup_insert_is_Some in Hs as [<- | [_ Hs]]; [lia |].
    apply lookup_insert_is_Some in Hs as [<- | [_ Hs]]; [lia |].
    apply si_fresh0 in Hs. lia.
  - intros n h' Hn'. rewrite !lookup_insert_is_Some.
    apply lookup_insert_Some in Hn' as [[<- _] | [Hn1 Hn']];
      [left; reflexivity |].
    apply lookup_insert_Some in Hn' as [[<- _] | [Hn2 Hn']];
      [right; split; [lia | left; reflexivity] |].
    right. split; [assumption |]. right. split; [assumption |].
    eapply si_input0; eassumption.
  - intros n c to Hn'.
    apply lookup_insert_Some in Hn' as [[<- Hht] | [Hn1 Hn']].
    { destruct Hh as [(_ & ? & _) | (_ & ? & _)]; congruence. }
    apply lookup_insert_Some in Hn' as [[<- Hhf] | [Hn2 Hn']].
    { destruct Hh as [(Ha & Hb' & _) | (Ha & _ & _)]; [| congruence].
      rewrite Ha in Hhf. injection Hhf as <- <-.
      rewrite lookup_insert_eq, Hb'. split; [reflexivity | lia]. }
    destruct (si_from0 n c to Hn') as [Hto Hne]. split; [| exact Hne].
    pose proof (Hold _ _ Hto).
    rewrite !lookup_insert_ne by lia. exact Hto.
  - intros n c from Hn'.
    apply lookup_insert_Some in Hn' as [[<- Hht] | [Hn1 Hn']].
    { destruct Hh as [(Ha & Hb' & _) | (_ & Hb' & _)]; [| congruence].
      rewrite Hb' in Hht. injection Hht as <- <-.
      rewrite lookup_insert_ne by lia. rewrite lookup_insert_eq, Ha.
      split; [reflexivity | lia]. }
    apply lookup_insert_Some in Hn' as [[<- Hhf] | [Hn2 Hn']].
    { destruct Hh as [(? & _ & _) | (? & _ & _)]; congruence. }
    destruct (si_to0 n c from Hn') as [Hfrom Hne]. split; [| exact Hne].
    pose proof (Hold _ _ Hfrom).
    rewrite !lookup_insert_ne by lia. exact Hfrom.
  - intros n h' Hn'.
    apply lookup_insert_Some in Hn' as [[<- <-] | [Hn1 Hn']]; [lia |].
    apply lookup_insert_Some in Hn' as [[<- <-] | [Hn2 Hn']]; [lia |].
    specialize (si_column0 n h' Hn'). lia.
  - intros n1 n2 h1 h2 H1 H2 Hd1 Hd2 Hcc.
    apply lookup_insert_Some in H1 as [[<- <-] | [Hn1 H1]];
      [| apply lookup_insert_Some in H1 as [[<- <-] | [Hn1' H1]]];
      (apply lookup_insert_Some in H2 as [[<- <-] | [Hn2 H2]];
       [| apply lookup_insert_Some in H2 as [[<- <-] | [Hn2' H2]]]);
      try (left; reflexivity);
      try (destruct Hh as [(-> & -> & _) | (-> & -> & _)];
           [right; reflexivity | discriminate]);
      try (specialize (si_column0 _ _ H1);
           destruct Hh as [(-> & -> & _) | (-> & -> & _)]; simpl in *;
           first [lia | discriminate]);
      try (specialize (si_column0 _ _ H2);
           destruct Hh as [(-> & -> & _) | (-> & -> & _)]; simpl in *;
           first [lia | discriminate]).
    eapply si_unique0; eassumption.
  - intros n h' Hn'. apply elem_of_app.
    apply lookup_insert_Some in Hn' as [[<- _] | [Hn1 Hn']];
      [right; apply list_elem_of_In; simpl; auto |].
    apply lookup_insert_Some in Hn' as [[<- _] | [Hn2 Hn']];
      [right; apply list_elem_of_In; simpl; auto |].
    left. eapply si_listed0; eassumption.
  - intros n Hin. rewrite !lookup_insert_is_Some.
    destruct (decide (S (next_node w) = n)); [left; assumption |].
    right. split; [assumption |].
    destruct (decide (next_node w = n)); [left; assumption |].
    right. split; [assumption |].
    apply elem_of_app in Hin as [Hin | Hin]; [apply si_nodes0; exact Hin |].
    apply list_elem_of_In in Hin. simpl in Hin. intuition congruence.
  - intros p Hp. apply elem_of_app in Hp as [Hp | Hp].
    + destruct (si_preds0 p Hp). split; apply elem_of_app; left; assumption.
    + destruct Hh as [(_ & _ & ->) | (_ & _ & ->)]; [inversion Hp |].
      apply list_elem_of_singleton in Hp. subst p. simpl.
      split; apply elem_of_app; right; apply list_elem_of_In; simpl; auto.
  - intros n h' Hn'.
    apply lookup_insert_Some in Hn' as [[<- <-] | [Hn1 Hn']].
    { rewrite lookup_insert_eq. simpl. split; [reflexivity |].
      destruct Hh as [(_ & -> & _) | (_ & -> & _)]; reflexivity. }
    apply lookup_insert_Some in Hn' as [[<- <-] | [Hn2 Hn']].
    { rewrite lookup_insert_ne by lia. rewrite lookup_insert_eq. simpl.
      split; [reflexivity |].
      destruct Hh as [(-> & _ & _) | (-> & _ & _)]; reflexivity. }
    rewrite !lookup_insert_ne by assumption.
    apply (si_blank0 n h' Hn').
Qed.

Lemma row_nodes_empty_cell (w w' : world) :
  tr_cells w' = (tr_cells w ++ [[]])%list → row_nodes w' = row_nodes w.
Proof.
  intros H. rewrite (row_nodes_snoc w w' [] H). apply app_nil_r.
Qed.

Lemma setup_column_invariant (globals : gmap string js_value)
    (serverSide : bool) (table : nat) (cols : list column) (i : nat)
    (w w' : world) :
  setup_invariant i w →
  setup_column globals serverSide table
    (map (λ c, match orbiaColumnFilter c with
               | Some f => if bSearchable c then Some f else None
               | None => None
               end) cols) cols i w
  = Normal w' →
  setup_invariant (S i) w'.
Proof.
  intros Hinv. rewrite setup_column_unfold.
  destruct (cols !! i) as [c|];
    [| intros [= <-]; revert Hinv; apply setup_invariant_keep; reflexivity].
  destruct (bVisible c);
    [| intros [= <-]; revert Hinv; apply setup_invariant_keep; reflexivity].
  destruct (rendered c) as [item|].
  2:{ intros [= <-]. revert Hinv.
      apply setup_invariant_keep; try reflexivity.
      apply row_nodes_empty_cell. reflexivity. }
  unfold setup_control.
  destruct (String.eqb (type item) "text").
  { simpl. intros [= <-].
    eapply (setup_invariant_add_single i w _ (HText serverSide i)
              (TextInput (next_node w)) Hinv); eauto; reflexivity. }
  destruct (String.eqb (type item) "select").
  { simpl. intros [= <-].
    eapply (setup_invariant_add_single i w _ (HSelect serverSide i)
              (SelectInput (next_node w) _) Hinv); eauto; reflexivity. }
  destruct (String.eqb (type item) "number-range").
  { destruct serverSide; simpl; intros [= <-].
    - eapply (setup_invariant_add_range i table w _ _ _ [] Hinv);
        [left; repeat split; reflexivity | reflexivity | reflexivity
        | reflexivity | simpl; rewrite app_nil_r; reflexivity | reflexivity].
    - eapply (setup_invariant_add_range i table w _ _ _ _ Hinv);
        [right; repeat split; reflexivity | reflexivity | reflexivity
        | reflexivity | reflexivity | reflexivity]. }
  unfold warn_invalid_type.
  destruct (resolve globals "console") as [cv|]; simpl; [| discriminate].
  destruct (truthy cv); simpl.
  - destruct (resolve globals "value") as [vv|]; simpl; [| discriminate].
    destruct cv; simpl; try discriminate.
    intros [= <-]. revert Hinv. apply setup_invariant_keep; try reflexivity.
    apply row_nodes_empty_cell. reflexivity.
  - intros [= <-]. revert Hinv. apply setup_invariant_keep; try reflexivity.
    apply row_nodes_empty_cell. reflexivity.
Qed.

Ltac blank_world :=
  simpl; intros;
  repeat match goal with
         | H : ∅ !! _ = Some _ |- _ => rewrite lookup_empty in H; discriminate
         | H : is_Some (∅ !! _) |- _ =>
             rewrite lookup_empty in H; destruct H; discriminate
         | H : _ ∈ [] |- _ => inversion H
         end.

Lemma setup_invariant_initial (cs : gmap nat string) :
  setup_invariant 0 (with_tr_cells [] (with_tr_timeout None (host_page cs))).
Proof. split; unfold row_nodes; blank_world. Qed.

(** What a completed constructor leaves, whatever column searches the host
    held. *)
Lemma setup_row_from (cs : gmap nat string) (globals : gmap string js_value)
    (settings : dt_settings) (appendTo : string) (w : world) :
  OrbiaColumnFilter globals settings appendTo (host_page cs) = Normal w →
  row_structure w ∧ slots_coherent cs w.
Proof.
  intros Hrun.
  pose proof (constructor_leaves_host_alone_aux globals settings appendTo
                (host_page cs) w Hrun) as (Hcs & _).
  revert Hrun. rewrite OrbiaColumnFilter_unfold.
  destruct (enabled settings).
  2:{ intros [= <-].
      split; [split | split]; unfold row_inputs; blank_world.
      congruence. }
  match goal with
  | |- context [each_column ?f ?l ?w0] =>
      destruct (each_column f l w0) as [w1|] eqn:H1
  end; simpl; [| discriminate].
  intros [= <-].
  apply (each_column_seq_ind setup_invariant) in H1;
    [| apply setup_invariant_initial
     | intros i u u' _; apply setup_column_invariant].
  destruct H1. simpl in Hcs.
  split; [split | split]; unfold row_inputs, node_val, node_data_val in *;
    simpl; eauto.
  - intros c Hc. rewrite Hcs in Hc. contradiction.
  - intros n h Hb. destruct (si_blank0 n h Hb) as [Hv Hm].
    destruct h; simpl; unfold single_coherent, range_coherent, slot_rest,
      slot_clear, node_val, node_data_val; simpl; rewrite ?Hcs; auto.
    destruct (si_from0 _ _ _ Hb) as [Hto _].
    destruct (si_blank0 _ _ Hto) as [Hvt _].
    repeat split; auto.
Qed.

(** What a completed constructor leaves, from the blank page. *)
Lemma setup_row_ok (globals : gmap string js_value) (settings : dt_settings)
    (appendTo : string) (w : world) :
  OrbiaColumnFilter globals settings appendTo initial_world = Normal w →
  row_structure w ∧ slots_coherent ∅ w.
Proof. exact (setup_row_from ∅ globals settings appendTo w). Qed.

(** ** What an event changes and what it leaves alone *)

Lemma schedule_redraw_row (w : world) :
  tr_cells (schedule_redraw w) = tr_cells w
  ∧ tr_attached (schedule_redraw w) = tr_attached w
  ∧ ext_search (schedule_redraw w) = ext_search w.
Proof.
  unfold schedule_redraw.
  destruct (tr_timeout w) as [h|]; [destruct (truthy_handle h) |];
    repeat split; reflexivity.
Qed.

Lemma node_val_alter_memo (n m : nat) (val : string) (w : world) :
  node_val n (set_data_val m val w) = node_val n w.
Proof. apply node_val_set_data_val. Qed.

Lemma node_data_val_set_data_val_ne (n m : nat) (val : string) (w : world) :
  n ≠ m → node_data_val n (set_data_val m val w) = node_data_val n w.
Proof.
  intros Hne. unfold node_data_val, set_data_val. simpl.
  rewrite lookup_alter_ne by congruence. reflexivity.
Qed.

(** A handler never changes a value, a binding, the row or the list of row
    predicates; the only memo it may change is that of its own node. *)
Lemma run_handler_frame (h : handler) (m : nat) (w : world) :
  bindings (run_handler h m w) = bindings w
  ∧ tr_cells (run_handler h m w) = tr_cells w
  ∧ tr_attached (run_handler h m w) = tr_attached w
  ∧ ext_search (run_handler h m w) = ext_search w
  ∧ (∀ n, node_val n (run_handler h m w) = node_val n w)
  ∧ (∀ n, is_Some (inputs (run_handler h m w) !! n)
          ↔ is_Some (inputs w !! n))
  ∧ (∀ n, n ≠ m →
          node_data_val n (run_handler h m w) = node_data_val n w).
Proof.
  destruct (debounced h) eqn:Hd.
  - destruct (debounced_guard_val h m w Hd) as [val Hg].
    rewrite (run_handler_debounced _ _ _ _ Hg).
    destruct (decide (node_data_val m w ≠ Some val)) as [Hguard | Hguard];
      [| split_and!; auto].
    destruct (schedule_redraw_row
                (api_search (search_column h) (search_arg h m w)
                   (search_regex h) (set_data_val m val w)))
      as (Hc & Ha & He).
    rewrite bindings_schedule_redraw, Hc, Ha, He.
    split_and!; try reflexivity.
    + intros n. unfold node_val at 1. rewrite inputs_schedule_redraw.
      apply (node_val_set_data_val n m val w).
    + intros n. rewrite inputs_schedule_redraw. simpl.
      apply lookup_alter_is_Some.
    + intros n Hne. unfold node_data_val at 1.
      rewrite inputs_schedule_redraw.
      apply (node_data_val_set_data_val_ne n m val w Hne).
  - destruct h; try discriminate. simpl. split_and!; auto.
Qed.

Lemma deliver_frame (m : nat) (v : string) (w : world) :
  bindings (deliver m v w) = bindings w
  ∧ tr_cells (deliver m v w) = tr_cells w
  ∧ tr_attached (deliver m v w) = tr_attached w
  ∧ ext_search (deliver m v w) = ext_search w
  ∧ (∀ n, node_val n (deliver m v w) = node_val n (set_val m v w))
  ∧ (∀ n, is_Some (inputs (deliver m v w) !! n) ↔ is_Some (inputs w !! n))
  ∧ (∀ n, n ≠ m → node_data_val n (deliver m v w) = node_data_val n w).
Proof.
  unfold deliver, fire.
  replace (bindings (set_val m v w)) with (bindings w) by reflexivity.
  destruct (bindings w !! m) as [h|].
  - destruct (run_handler_frame h m (set_val m v w))
      as (Hb & Hc & Ha & He & Hv & Hi & Hm).
    rewrite Hb, Hc, Ha, He.
    split_and!; auto.
    + intros n. rewrite Hi. unfold set_val. simpl.
      apply lookup_alter_is_Some.
    + intros n Hne. rewrite (Hm n Hne). apply node_data_val_set_val.
  - split_and!; auto.
    + intros n. unfold set_val. simpl. apply lookup_alter_is_Some.
    + intros n _. apply node_data_val_set_val.
Qed.

Lemma row_inputs_ext (w w' : world) :
  tr_cells w' = tr_cells w → tr_attached w' = tr_attached w →
  row_inputs w' = row_inputs w.
Proof. unfold row_inputs, row_nodes. intros -> ->. reflexivity. Qed.

Lemma row_structure_ext (w w' : world) :
  bindings w' = bindings w → tr_cells w' = tr_cells w →
  tr_attached w' = tr_attached w → ext_search w' = ext_search w →
  (∀ n, is_Some (inputs w' !! n) ↔ is_Some (inputs w !! n)) →
  row_structure w → row_structure w'.
Proof.
  intros Hb Hc Ha He Hi [].
  pose proof (row_inputs_ext w w' Hc Ha) as Hr.
  split; rewrite ?Hb, ?He, ?Hr; eauto.
  - intros n h Hn. apply Hi. eauto.
  - intros n Hn. apply Hi. eauto.
Qed.

Lemma range_expression_empty (a b : string) :
  range_expression a b = "" ↔ a = "" ∧ b = "".
Proof.
  unfold range_expression.
  destruct (String.eqb_spec a ""), (String.eqb_spec b ""); simpl;
    split; try tauto; try discriminate; intros [? ?]; congruence.
Qed.

Lemma escapeRegex_empty (s : string) : escapeRegex s = "" ↔ s = "".
Proof.
  destruct s as [| c r]; simpl; [tauto |].
  destruct (is_regex_meta c); split; discriminate.
Qed.

Section PresetSearch.

(** The column searches the host held before set-up. *)
Variable cs : gmap nat string.

Lemma single_coherent_ext (enc esc : string → string) (c n : nat)
    (w w' : world) :
  node_val n w' = node_val n w →
  node_data_val n w' = node_data_val n w →
  col_search w' !! c = col_search w !! c →
  single_coherent enc esc cs c n w → single_coherent enc esc cs c n w'.
Proof. unfold single_coherent. intros -> -> ->. tauto. Qed.

Lemma range_coherent_ext (c f t : nat) (w w' : world) :
  node_val f w' = node_val f w → node_val t w' = node_val t w →
  node_data_val f w' = node_data_val f w →
  node_data_val t w' = node_data_val t w →
  col_search w' !! c = col_search w !! c →
  range_coherent cs c f t w → range_coherent cs c f t w'.
Proof.
  unfold range_coherent, slot_rest, slot_clear. intros -> -> -> -> ->. tauto.
Qed.

(** The input itself was delivered [v]: its memo is now the (escaped) value
    and the slot, written or left, holds its expression. *)
Lemma single_coherent_step (enc esc : string → string) (c n : nat)
    (v : string) (w w' : world) :
  single_coherent enc esc cs c n w →
  node_val n w' = v →
  node_data_val n w' = Some (esc v) →
  (node_data_val n w = Some (esc v)
   ∧ col_search w' !! c = col_search w !! c)
  ∨ col_search w' !! c = Some (enc (esc v)) →
  single_coherent enc esc cs c n w'.
Proof.
  unfold single_coherent. intros Hold Hv Hm Hs. right. rewrite Hv.
  split; [exact Hm |].
  destruct Hs as [[Hm0 Hs] | Hs]; [| exact Hs].
  rewrite Hs. destruct Hold as [(Hn & _) | (Hm1 & Hs1)]; [congruence |].
  rewrite Hs1. congruence.
Qed.

(** The lower bound of a server-side range was delivered [v]. *)
Lemma range_coherent_step_from (c f t : nat) (v : string) (w w' : world) :
  range_coherent cs c f t w →
  node_val f w' = v → node_val t w' = node_val t w →
  node_data_val f w' = Some (range_expression v (node_val t w)) →
  node_data_val t w' = node_data_val t w →
  (node_data_val f w = Some (range_expression v (node_val t w))
   ∧ col_search w' !! c = col_search w !! c)
  ∨ col_search w' !! c = Some (range_expression v (node_val t w)) →
  range_coherent cs c f t w'.
Proof.
  unfold range_coherent, slot_rest, slot_clear.
  intros (If & It & Kf & Kt & K) Hv Ht Hm Hmt Hs.
  rewrite Hv, Ht, Hm, Hmt.
  assert (Hclear : v = "" → node_val t w = "" →
                   default "" (col_search w' !! c) = ""
                   ∨ col_search w' !! c = cs !! c).
  { intros -> Htv. rewrite Htv in Hs.
    destruct Hs as [[Hm0 Hs] | Hs]; rewrite Hs; [| left; reflexivity].
    apply Kf; assumption. }
  repeat split.
  - intros [= He]. apply range_expression_empty in He. tauto.
  - exact It.
  - intros [= He] Htv. apply range_expression_empty in He as [-> _].
    apply Hclear; [reflexivity | exact Htv].
  - intros Hmt' ->. apply Hclear; [reflexivity | apply It, Hmt'].
  - intros -> Htv. apply Hclear; [reflexivity | exact Htv].
Qed.

(** The upper bound of a server-side range was delivered [v]. *)
Lemma range_coherent_step_to (c f t : nat) (v : string) (w w' : world) :
  range_coherent cs c f t w →
  node_val t w' = v → node_val f w' = node_val f w →
  node_data_val t w' = Some (range_expression (node_val f w) v) →
  node_data_val f w' = node_data_val f w →
  (node_data_val t w = Some (range_expression (node_val f w) v)
   ∧ col_search w' !! c = col_search w !! c)
  ∨ col_search w' !! c = Some (range_expression (node_val f w) v) →
  range_coherent cs c f t w'.
Proof.
  unfold range_coherent, slot_rest, slot_clear.
  intros (If & It & Kf & Kt & K) Hv Hf Hm Hmf Hs.
  rewrite Hv, Hf, Hm, Hmf.
  assert (Hclear : node_val f w = "" → v = "" →
                   default "" (col_search w' !! c) = ""
                   ∨ col_search w' !! c = cs !! c).
  { intros Hfv ->. rewrite Hfv in Hs.
    destruct Hs as [[Hm0 Hs] | Hs]; rewrite Hs; [| left; reflexivity].
    apply Kt; assumption. }
  repeat split.
  - exact If.
  - intros [= He]. apply range_expression_empty in He. tauto.
  - intros Hmf' ->. apply Hclear; [apply If, Hmf' | reflexivity].
  - intros [= He] Hfv. apply range_expression_empty in He as [_ ->].
    apply Hclear; [exact Hfv | reflexivity].
  - intros Hfv ->. apply Hclear; [exact Hfv | reflexivity].
Qed.

(** A delivery to a node bound to a guarded handler, in one statement for
    the suppressed and the effective case. *)
Lemma deliver_debounced_summary (w : world) (m : nat) (h : handler)
    (v : string) :
  bindings w !! m = Some h →
  debounced h = true →
  is_Some (inputs w !! m) →
  ∃ e,
    guard_val h m (set_val m v w) = Some e
    ∧ node_data_val m (deliver m v w) = Some e
    ∧ ((node_data_val m w = Some e
        ∧ col_search (deliver m v w) = col_search w)
       ∨ col_search (deliver m v w)
         = <[search_column h := search_arg h m (set_val m v w)]>
             (col_search w)).
Proof.
  intros Hb Hd Hi.
  destruct (debounced_guard_val h m (set_val m v w) Hd) as [e Hg].
  exists e. split; [exact Hg |].
  destruct (decide (node_data_val m w = Some e)) as [Hm | Hm].
  - rewrite (deliver_suppressed _ _ _ _ _ Hb Hg Hm).
    rewrite node_data_val_set_val. split; [exact Hm |].
    left. split; [exact Hm | reflexivity].
  - rewrite (deliver_effective _ _ _ _ _ Hb Hg Hm). split.
    + unfold node_data_val. rewrite inputs_schedule_redraw.
      apply (node_data_val_set_data_val m e (set_val m v w)).
      unfold set_val. simpl. apply lookup_alter_is_Some. exact Hi.
    + right. rewrite col_search_schedule_redraw. reflexivity.
Qed.

Lemma deliver_other_col_search (w : world) (m : nat) (v : string) :
  (∀ h, bindings w !! m = Some h → debounced h = false) →
  col_search (deliver m v w) = col_search w.
Proof.
  intros Hh. unfold deliver, fire.
  replace (bindings (set_val m v w)) with (bindings w) by reflexivity.
  destruct (bindings w !! m) as [h|] eqn:Hb; [| reflexivity].
  specialize (Hh h eq_refl). destruct h; try discriminate. reflexivity.
Qed.

Lemma slots_coherent_deliver (m : nat) (v : string) (w : world) :
  row_structure w → slots_coherent cs w → slots_coherent cs (deliver m v w).
Proof.
  intros Hrs [Hown Hcoh].
  destruct (deliver_frame m v w) as (HbW & _ & _ & _ & Hval & _ & Hmemo).
  assert (Hval_ne : ∀ n, n ≠ m →
            node_val n (deliver m v w) = node_val n w).
  { intros n Hne. rewrite Hval. apply node_val_set_val_ne. exact Hne. }
  destruct (bindings w !! m) as [h|] eqn:Hbm;
    [destruct (debounced h) eqn:Hd |].
  - (* a guarded handler ran *)
    pose proof (rs_input w Hrs m h Hbm) as Hi.
    assert (Hval_m : node_val m (deliver m v w) = v).
    { rewrite Hval. apply node_val_set_val. exact Hi. }
    destruct (deliver_debounced_summary w m h v Hbm Hd Hi)
      as (e & Hg & HmW & Hslot).
    assert (Hslot_ne : ∀ c, c ≠ search_column h →
              col_search (deliver m v w) !! c = col_search w !! c).
    { intros c Hc. destruct Hslot as [[_ ->] | ->]; [reflexivity |].
      apply lookup_insert_ne. congruence. }
    split.
    + intros c Hc. rewrite HbW.
      destruct (decide (c = search_column h)) as [-> | Hne]; [eauto |].
      rewrite (Hslot_ne c Hne) in Hc. apply Hown, Hc.
    + intros n h' Hn. rewrite HbW in Hn.
      pose proof (Hcoh n h' Hn) as Hold.
      destruct (decide (n = m)) as [-> | Hnm].
      * assert (h' = h) by congruence. subst h'.
        destruct h as [ss c | ss c | c t | c f |]; simpl in *;
          try exact I.
        -- injection Hg as <-.
           rewrite (node_val_set_val m v w Hi) in HmW, Hslot.
           apply (single_coherent_step _ _ c m v w _ Hold Hval_m HmW).
           destruct Hslot as [[Hm0 ->] | ->]; [left; auto | right].
           apply lookup_insert_eq.
        -- injection Hg as <-.
           rewrite (node_val_set_val m v w Hi) in HmW, Hslot.
           apply (single_coherent_step _ _ c m v w _ Hold Hval_m HmW).
           destruct Hslot as [[Hm0 ->] | ->]; [left; auto | right].
           apply lookup_insert_eq.
        -- destruct (rs_from w Hrs m c t Hbm) as [_ Hne].
           injection Hg as <-.
           rewrite (node_val_set_val m v w Hi) in HmW, Hslot.
           rewrite (node_val_set_val_ne t m v w) in HmW, Hslot by congruence.
           apply (range_coherent_step_from c m t v w _ Hold Hval_m);
             [apply Hval_ne; congruence | exact HmW
             | apply Hmemo; congruence |].
           destruct Hslot as [[Hm0 ->] | ->]; [left; auto | right].
           apply lookup_insert_eq.
      * destruct h' as [ss c | ss c | c t | c f |]; simpl in *;
          try exact I.
        -- apply (single_coherent_ext _ _ c n w _ (Hval_ne n Hnm)
                    (Hmemo n Hnm)); [| exact Hold].
           apply Hslot_ne. intros Hc.
           destruct (rs_column w Hrs n m _ _ Hn Hbm eq_refl Hd Hc)
             as [? | ?]; [contradiction | discriminate].
        -- apply (single_coherent_ext _ _ c n w _ (Hval_ne n Hnm)
                    (Hmemo n Hnm)); [| exact Hold].
           apply Hslot_ne. intros Hc.
           destruct (rs_column w Hrs n m _ _ Hn Hbm eq_refl Hd Hc)
             as [? | ?]; [contradiction | discriminate].
        -- destruct (rs_from w Hrs n c t Hn) as [Hbt Hne].
           destruct (decide (t = m)) as [-> | Htm].
           ++ assert (h = HRangeTo c n) by congruence. subst h.
              simpl in *. injection Hg as <-.
              rewrite (node_val_set_val m v w Hi) in HmW, Hslot.
              rewrite (node_val_set_val_ne n m v w Hnm) in HmW, Hslot.
              apply (range_coherent_step_to c n m v w _ Hold Hval_m
                       (Hval_ne n Hnm) HmW (Hmemo n Hnm)).
              destruct Hslot as [[Hm0 ->] | ->]; [left; auto | right].
              apply lookup_insert_eq.
           ++ apply (range_coherent_ext c n t w _ (Hval_ne n Hnm)
                       (Hval_ne t Htm) (Hmemo n Hnm) (Hmemo t Htm));
                [| exact Hold].
              apply Hslot_ne. intros Hc.
              destruct (rs_column w Hrs n m _ _ Hn Hbm eq_refl Hd Hc)
                as [? | Hs]; [contradiction |].
              simpl in Hs. congruence.
  - (* the local range handler ran *)
    assert (Hcs : col_search (deliver m v w) = col_search w).
    { apply deliver_other_col_search. intros h0 Hh0. congruence. }
    split.
    + intros c Hc. rewrite HbW. rewrite Hcs in Hc. apply Hown, Hc.
    + intros n h' Hn. rewrite HbW in Hn.
      pose proof (Hcoh n h' Hn) as Hold.
      assert (Hnm : debounced h' = true → n ≠ m).
      { intros Hd' ->. congruence. }
      destruct h' as [ss c | ss c | c t | c f |]; simpl in *;
        try exact I.
      * apply (single_coherent_ext _ _ c n w _ (Hval_ne n (Hnm eq_refl))
                 (Hmemo n (Hnm eq_refl))); [rewrite Hcs; reflexivity |].
        exact Hold.
      * apply (single_coherent_ext _ _ c n w _ (Hval_ne n (Hnm eq_refl))
                 (Hmemo n (Hnm eq_refl))); [rewrite Hcs; reflexivity |].
        exact Hold.
      * destruct (rs_from w Hrs n c t Hn) as [Hbt _].
        assert (Htm : t ≠ m).
        { intros ->. rewrite Hbt in Hbm. injection Hbm as <-.
          discriminate. }
        apply (range_coherent_ext c n t w _ (Hval_ne n (Hnm eq_refl))
                 (Hval_ne t Htm) (Hmemo n (Hnm eq_refl)) (Hmemo t Htm));
          [rewrite Hcs; reflexivity | exact Hold].
  - (* no handler is bound to the node *)
    assert (Hcs : col_search (deliver m v w) = col_search w).
    { apply deliver_other_col_search. intros h0 Hh0. congruence. }
    split.
    + intros c Hc. rewrite HbW. rewrite Hcs in Hc. apply Hown, Hc.
    + intros n h' Hn. rewrite HbW in Hn.
      pose proof (Hcoh n h' Hn) as Hold.
      assert (Hnm : n ≠ m) by (intros ->; congruence).
      destruct h' as [ss c | ss c | c t | c f |]; simpl in *;
        try exact I.
      * apply (single_coherent_ext _ _ c n w _ (Hval_ne n Hnm)
                 (Hmemo n Hnm)); [rewrite Hcs; reflexivity | exact Hold].
      * apply (single_coherent_ext _ _ c n w _ (Hval_ne n Hnm)
                 (Hmemo n Hnm)); [rewrite Hcs; reflexivity | exact Hold].
      * destruct (rs_from w Hrs n c t Hn) as [Hbt _].
        assert (Htm : t ≠ m) by (intros ->; congruence).
        apply (range_coherent_ext c n t w _ (Hval_ne n Hnm)
                 (Hval_ne t Htm) (Hmemo n Hnm) (Hmemo t Htm));
          [rewrite Hcs; reflexivity | exact Hold].
Qed.

(** ** The row in every reachable world *)

Lemma fire_as_deliver (m : nat) (w : world) :
  fire m w = deliver m (node_val m w) w.
Proof. unfold deliver. rewrite set_val_same; reflexivity. Qed.

Lemma row_structure_deliver (m : nat) (v : string) (w : world) :
  row_structure w → row_structure (deliver m v w).
Proof.
  destruct (deliver_frame m v w) as (Hb & Hc & Ha & He & _ & Hi & _).
  apply row_structure_ext; assumption.
Qed.

Lemma row_structure_advance (t : nat) (w : world) :
  row_structure w → row_structure (advance t w).
Proof. apply row_structure_ext; reflexivity. Qed.

Lemma slots_coherent_advance (t : nat) (w : world) :
  slots_coherent cs w → slots_coherent cs (advance t w).
Proof.
  intros [Hown Hcoh]. split; [exact Hown |].
  intros n h Hb. specialize (Hcoh n h Hb).
  destruct h; simpl in *; try exact I.
  - revert Hcoh. apply single_coherent_ext; reflexivity.
  - revert Hcoh. apply single_coherent_ext; reflexivity.
  - revert Hcoh. apply range_coherent_ext; reflexivity.
Qed.

Lemma reachable_from_row_ok (w : world) :
  reachable_from cs w → row_structure w ∧ slots_coherent cs w.
Proof.
  induction 1 as [globals settings appendTo w Hs | w t _ [IH1 IH2]
                 | w node _ [IH1 IH2] | w node v _ [IH1 IH2]].
  - eapply setup_row_from; eassumption.
  - split; [apply row_structure_advance | apply slots_coherent_advance];
      assumption.
  - rewrite fire_as_deliver.
    split; [apply row_structure_deliver | apply slots_coherent_deliver];
      assumption.
  - split; [apply row_structure_deliver | apply slots_coherent_deliver];
      assumption.
Qed.

End PresetSearch.

(** The blank page is the page whose host held no column search. *)
Lemma reachable_blank (w : world) : reachable w → reachable_from ∅ w.
Proof.
  induction 1 as [globals settings appendTo w Hs | w t _ IH
                 | w node _ IH | w node v _ IH].
  - exact (from_setup ∅ globals settings appendTo w Hs).
  - apply from_advance, IH.
  - apply from_fire, IH.
  - apply from_deliver, IH.
Qed.

Lemma reachable_row_ok (w : world) :
  reachable w → row_structure w ∧ slots_coherent ∅ w.
Proof. intros Hr. apply reachable_from_row_ok, reachable_blank, Hr. Qed.

(** X5: in every world the page can reach, each bound node is an input of
    the attached row, the two inputs of a server-side range are bound to each
    other for the same column and are distinct, no two controls write the same
    column's search slot, and each registered row predicate reads two inputs
    of the row. *)
Theorem reachable_row_structure (w : world) :
  reachable w → row_structure w.
Proof.
  induction 1 as [globals settings appendTo w Hs | w t _ IH
                 | w node _ IH | w node v _ IH].
  - apply (setup_row_ok globals settings appendTo w Hs).
  - apply row_structure_advance, IH.
  - rewrite fire_as_deliver. apply row_structure_deliver, IH.
  - apply row_structure_deliver, IH.
Qed.

(** After two edits of a server-side range, the upper bound (node 1) is
    still bound to the handler that points back at the lower bound. *)
Lemma reachable_row_structure_witness :
  bindings (deliver 1 "9" (deliver 0 "3" (range_page true))) !! 1
  = Some (HRangeTo 0 0)
  ∧ 0%nat ≠ 1%nat.
Proof.
  assert (Hr : reachable (deliver 1 "9" (deliver 0 "3" (range_page true)))).
  { apply reach_deliver, reach_deliver.
    apply (reach_setup browser_globals
             {| aoColumns := [range_column]; bServerSide := true;
                nTable := 1 |} "header").
    vm_compute. reflexivity. }
  apply (rs_from _ (reachable_row_structure _ Hr) 0%nat 0%nat 1%nat).
  vm_compute. reflexivity.
Defined.

(** X6: on a page whose host held the column searches [cs] before set-up
    (none, or those of DataTables' [searchCols] option or of a saved state),
    in every world the page can reach: a text input or select either was
    never edited, is empty and its column's slot is as the host held it, or
    its memo is the current (for a select: escaped) value and the slot holds
    the expression the handler builds from it, so that the slot of a
    non-empty text input always holds the expression of its value; the slot
    of a server-side range whose two bounds are empty is empty or as the host
    held it, and is empty when the host held nothing there; and every slot
    that is no longer as the host held it is the slot of some control of the
    row. *)
Theorem reachable_slots_coherent (cs : gmap nat string) (w : world) :
  reachable_from cs w →
  slots_coherent cs w
  ∧ (∀ n serverSide c,
       bindings w !! n = Some (HText serverSide c) →
       node_val n w ≠ "" →
       col_search w !! c = Some (text_expression serverSide (node_val n w)))
  ∧ (∀ n c to,
       bindings w !! n = Some (HRangeFrom c to) →
       node_val n w = "" → node_val to w = "" →
       slot_rest cs c w ∧ (default "" (cs !! c) = "" → slot_clear c w)).
Proof.
  intros Hr. destruct (reachable_from_row_ok cs w Hr) as [_ Hsc].
  split; [exact Hsc |]. destruct Hsc as [_ Hcoh]. split.
  - intros n ss c Hb Hv. specialize (Hcoh n _ Hb). simpl in Hcoh.
    destruct Hcoh as [(_ & He & _) | (_ & Hs)]; [contradiction | exact Hs].
  - intros n c to Hb Hf Ht. specialize (Hcoh n _ Hb). simpl in Hcoh.
    destruct Hcoh as (_ & _ & _ & _ & K). specialize (K Hf Ht).
    split; [exact K |].
    intros Hcs. destruct K as [K | K]; [exact K |].
    unfold slot_clear. rewrite K. exact Hcs.
Qed.

(** Over a saved state, after one edit of the text input: the text column's
    slot holds the expression of the new value, and the untouched range,
    both bounds empty, still has the saved search in its slot. *)
Lemma reachable_slots_coherent_witness :
  col_search (deliver 2 "abc" saved_page) !! 1
  = Some (text_expression true (node_val 2 (deliver 2 "abc" saved_page)))
  ∧ slot_rest saved_search 0 (deliver 2 "abc" saved_page)
  ∧ col_search (deliver 2 "abc" saved_page) !! 0 = Some "range:3~9".
Proof.
  assert (Hr : reachable_from saved_search (deliver 2 "abc" saved_page)).
  { apply from_deliver.
    apply (from_setup saved_search browser_globals
             {| aoColumns := [range_column; text_column];
                bServerSide := true; nTable := 1 |} "header").
    vm_compute. reflexivity. }
  destruct (reachable_slots_coherent saved_search _ Hr)
    as (_ & Htext & Hrange).
  split_and!.
  - apply (Htext 2%nat true 1%nat).
    + vm_compute. reflexivity.
    + vm_compute. discriminate.
  - apply (Hrange 0%nat 0%nat 1%nat); vm_compute; reflexivity.
  - vm_compute. reflexivity.
Defined.

(** ** Clear filters *)

Lemma foldl_deliver_reachable (l : list nat) :
  ∀ w, reachable w → reachable (foldl (λ w' node, deliver node "" w') w l).
Proof.
  induction l as [| n l IH]; intros w Hr; simpl; [exact Hr |].
  apply IH, reach_deliver, Hr.
Qed.

Lemma foldl_deliver_reachable_from (cs : gmap nat string) (l : list nat) :
  ∀ w, reachable_from cs w →
       reachable_from cs (foldl (λ w' node, deliver node "" w') w l).
Proof.
  induction l as [| n l IH]; intros w Hr; simpl; [exact Hr |].
  apply IH, from_deliver, Hr.
Qed.

Lemma foldl_deliver_frame (l : list nat) :
  ∀ w,
    let W := foldl (λ w' node, deliver node "" w') w l in
    bindings W = bindings w ∧ tr_cells W = tr_cells w
    ∧ tr_attached W = tr_attached w ∧ ext_search W = ext_search w
    ∧ (∀ n, is_Some (inputs W !! n) ↔ is_Some (inputs w !! n)).
Proof.
  induction l as [| m l IH]; intros w; simpl; [split_and!; auto |].
  destruct (IH (deliver m "" w)) as (Hb & Hc & Ha & He & Hi).
  destruct (deliver_frame m "" w) as (Hb' & Hc' & Ha' & He' & _ & Hi' & _).
  split_and!; try congruence.
  intros n. rewrite Hi. apply Hi'.
Qed.

Lemma node_val_set_val_empty (n m : nat) (w : world) :
  node_val n w = "" → node_val n (set_val m "" w) = "".
Proof.
  unfold node_val, set_val. simpl. rewrite lookup_alter.
  destruct (decide (m = n)) as [-> | Hne]; [| tauto].
  destruct (inputs w !! n); reflexivity.
Qed.

Lemma foldl_deliver_keeps_empty (l : list nat) :
  ∀ w n, node_val n w = "" →
         node_val n (foldl (λ w' node, deliver node "" w') w l) = "".
Proof.
  induction l as [| m l IH]; intros w n Hv; simpl; [exact Hv |].
  apply IH. destruct (deliver_frame m "" w) as (_ & _ & _ & _ & Hval & _).
  rewrite Hval. apply node_val_set_val_empty, Hv.
Qed.

Lemma foldl_deliver_empties (l : list nat) :
  ∀ w n, n ∈ l → is_Some (inputs w !! n) →
         node_val n (foldl (λ w' node, deliver node "" w') w l) = "".
Proof.
  induction l as [| m l IH]; intros w n Hin Hi; [inversion Hin |].
  simpl. destruct (deliver_frame m "" w) as (_ & _ & _ & _ & Hval & Hdom & _).
  destruct (decide (n = m)) as [-> | Hne].
  - apply foldl_deliver_keeps_empty. rewrite Hval.
    apply node_val_set_val, Hi.
  - apply elem_of_cons in Hin as [? | Hin]; [contradiction |].
    apply IH; [exact Hin | apply Hdom, Hi].
Qed.

(** After the button was clicked every input of the row is empty. *)
Lemma clear_filters_values (w : world) (n : nat) :
  row_structure w → n ∈ row_inputs w →
  node_val n (clear_filters w) = "".
Proof.
  intros Hrs Hin. unfold clear_filters.
  apply foldl_deliver_empties; [exact Hin | apply (rs_nodes w Hrs n Hin)].
Qed.

(** X7: clicking "clear filters" in any world the page can reach leaves
    every input and select of the row with the empty value, and every node a
    handler is bound to is among them. *)
Theorem clear_filters_empties_inputs (w : world) :
  reachable w →
  (∀ n, n ∈ row_inputs w → node_val n (clear_filters w) = "")
  ∧ (∀ n h, bindings w !! n = Some h →
            n ∈ row_inputs w
            ∧ bindings (clear_filters w) !! n = Some h).
Proof.
  intros Hr. destruct (reachable_row_ok w Hr) as [Hrs _]. split.
  - intros n Hin. apply clear_filters_values; assumption.
  - intros n h Hb. split; [apply (rs_listed w Hrs n h Hb) |].
    unfold clear_filters.
    destruct (foldl_deliver_frame (row_inputs w) w) as (-> & _).
    exact Hb.
Qed.

(** A range with both bounds set, then cleared. *)
Lemma clear_filters_empties_inputs_witness :
  node_val 0 (clear_filters (deliver 1 "9" (deliver 0 "3" (range_page true))))
  = ""
  ∧ node_val 1
      (clear_filters (deliver 1 "9" (deliver 0 "3" (range_page true))))
    = "".
Proof.
  assert (Hr : reachable (deliver 1 "9" (deliver 0 "3" (range_page true)))).
  { apply reach_deliver, reach_deliver.
    apply (reach_setup browser_globals
             {| aoColumns := [range_column]; bServerSide := true;
                nTable := 1 |} "header").
    vm_compute. reflexivity. }
  split; apply (proj1 (clear_filters_empties_inputs _ Hr));
    vm_compute; apply list_elem_of_In; simpl; auto.
Defined.

(** A guarded handler leaves a memo on its node, and later deliveries keep
    one there. *)
Lemma foldl_deliver_memo (l : list nat) :
  ∀ w n h,
    row_structure w → bindings w !! n = Some h → debounced h = true →
    n ∈ l ∨ is_Some (node_data_val n w) →
    is_Some (node_data_val n (foldl (λ w' node, deliver node "" w') w l)).
Proof.
  induction l as [| m l IH]; intros w n h Hrs Hb Hd Hn; simpl.
  - destruct Hn as [Hin | Hs]; [inversion Hin | exact Hs].
  - destruct (deliver_frame m "" w) as (HbW & _ & _ & _ & _ & _ & Hmemo).
    apply (IH (deliver m "" w) n h);
      [apply row_structure_deliver, Hrs | rewrite HbW; exact Hb
      | exact Hd |].
    destruct (decide (n = m)) as [-> | Hne].
    + right.
      destruct (deliver_debounced_summary w m h "" Hb Hd
                  (rs_input w Hrs m h Hb)) as (e & _ & He & _).
      rewrite He. eauto.
    + destruct Hn as [Hin | Hs].
      * apply elem_of_cons in Hin as [? | Hin]; [contradiction | auto].
      * right. rewrite (Hmemo n Hne). exact Hs.
Qed.

(** After the button was clicked the slot of a text input or select holds
    the expression of the empty value. *)
Lemma clear_filters_single (enc esc : string → string)
    (cs : gmap nat string) (c n : nat) (h : handler) (w : world) :
  row_structure w → bindings w !! n = Some h → debounced h = true →
  single_coherent enc esc cs c n (clear_filters w) →
  col_search (clear_filters w) !! c = Some (enc (esc "")).
Proof.
  intros Hrs Hb Hd Hcoh.
  pose proof (rs_listed w Hrs n h Hb) as Hin.
  pose proof (clear_filters_values w n Hrs Hin) as Hv.
  pose proof (foldl_deliver_memo (row_inputs w) w n h Hrs Hb Hd
                (or_introl Hin)) as [e He].
  fold (clear_filters w) in He.
  destruct Hcoh as [(Hnone & _) | (_ & Hs)]; [congruence |].
  rewrite Hv in Hs. exact Hs.
Qed.

(** X8: on a page whose host held the column searches [cs] before set-up,
    clicking "clear filters" in any world the page can reach leaves every
    column's search slot empty or as the host held it; the slot of a column
    with a text input or a select is then always empty, whatever the host
    held there; and when the host held no column search, every slot is
    empty.  (A server-side range that was never edited sends nothing when
    cleared, so a search the host held for its column stays.) *)
Theorem clear_filters_clears_slots (cs : gmap nat string) (w : world) :
  reachable_from cs w →
  (∀ c, slot_rest cs c (clear_filters w))
  ∧ (∀ n serverSide c,
       bindings w !! n = Some (HText serverSide c) →
       slot_clear c (clear_filters w))
  ∧ (∀ n serverSide c,
       bindings w !! n = Some (HSelect serverSide c) →
       slot_clear c (clear_filters w))
  ∧ ((∀ c, default "" (cs !! c) = "") →
     ∀ c, slot_clear c (clear_filters w)).
Proof.
  intros Hr.
  assert (HrW : reachable_from cs (clear_filters w))
    by apply foldl_deliver_reachable_from, Hr.
  destruct (reachable_from_row_ok cs w Hr) as [Hrs _].
  destruct (reachable_from_row_ok cs _ HrW) as [HrsW [Hown Hcoh]].
  assert (HbW : bindings (clear_filters w) = bindings w).
  { unfold clear_filters.
    destruct (foldl_deliver_frame (row_inputs w) w) as (Hbe & _).
    exact Hbe. }
  assert (Hempty : ∀ n h, bindings w !! n = Some h →
                          node_val n (clear_filters w) = "").
  { intros n h Hb. apply clear_filters_values; [exact Hrs |].
    apply (rs_listed w Hrs n h Hb). }
  assert (Htext : ∀ n ss c, bindings w !! n = Some (HText ss c) →
                            slot_clear c (clear_filters w)).
  { intros n ss c Hb. unfold slot_clear.
    rewrite (clear_filters_single (text_expression ss) (λ v, v) cs c n
               _ w Hrs Hb eq_refl).
    - destruct ss; reflexivity.
    - apply (Hcoh n (HText ss c)). rewrite HbW. exact Hb. }
  assert (Hselect : ∀ n ss c, bindings w !! n = Some (HSelect ss c) →
                              slot_clear c (clear_filters w)).
  { intros n ss c Hb. unfold slot_clear.
    rewrite (clear_filters_single (select_expression ss) escapeRegex cs c n
               _ w Hrs Hb eq_refl).
    - destruct ss; reflexivity.
    - apply (Hcoh n (HSelect ss c)). rewrite HbW. exact Hb. }
  assert (Hrange : ∀ f t c, bindings w !! f = Some (HRangeFrom c t) →
                            slot_rest cs c (clear_filters w)).
  { intros f t c Hbf.
    assert (HbfW : bindings (clear_filters w) !! f = Some (HRangeFrom c t))
      by (rewrite HbW; exact Hbf).
    pose proof (Hcoh f _ HbfW) as (_ & _ & _ & _ & K).
    destruct (rs_from _ Hrs f c t Hbf) as [Hbt _].
    apply K; [apply (Hempty _ _ Hbf) | apply (Hempty _ _ Hbt)]. }
  assert (Hall : ∀ c, slot_rest cs c (clear_filters w)).
  { intros c.
    destruct (decide (col_search (clear_filters w) !! c = cs !! c))
      as [Heq | Hne]; [right; exact Heq |].
    destruct (Hown c Hne) as (n & h & Hb & Hd & Hc).
    rewrite HbW in Hb.
    destruct h as [ss c' | ss c' | c' t | c' f |]; simpl in *;
      try discriminate; subst c'.
    - left. apply (Htext n ss c Hb).
    - left. apply (Hselect n ss c Hb).
    - apply (Hrange n t c Hb).
    - destruct (rs_to _ Hrs n c f Hb) as [Hbf _].
      apply (Hrange f n c Hbf). }
  split_and!; [exact Hall | exact Htext | exact Hselect |].
  intros Hcs c. destruct (Hall c) as [K | K]; [exact K |].
  unfold slot_clear. rewrite K. apply Hcs.
Qed.

(** Over a saved state, clearing a page nobody edited: the text column's
    saved search is cleared, the range's saved search stays. *)
Lemma clear_filters_clears_slots_witness :
  slot_clear 1 (clear_filters saved_page)
  ∧ slot_rest saved_search 0 (clear_filters saved_page)
  ∧ col_search (clear_filters saved_page) !! 0 = Some "range:3~9"
  ∧ col_search saved_page !! 1 = Some "like:old".
Proof.
  assert (Hr : reachable_from saved_search saved_page).
  { apply (from_setup saved_search browser_globals
             {| aoColumns := [range_column; text_column];
                bServerSide := true; nTable := 1 |} "header").
    vm_compute. reflexivity. }
  destruct (clear_filters_clears_slots saved_search saved_page Hr)
    as (Hall & Htext & _).
  split_and!.
  - apply (Htext 2%nat true 1%nat). vm_compute. reflexivity.
  - apply Hall.
  - vm_compute. reflexivity.
  - vm_compute. reflexivity.
Defined.

(** X9: after "clear filters", in any world the page can reach, every row
    predicate the plugin registered accepts every row of its own table. *)
Theorem clear_filters_accepts_rows (w : world) (p : range_predicate)
    (data : list string) :
  reachable w →
  p ∈ ext_search (clear_filters w) →
  row_predicate p (clear_filters w) (rp_nTable p) data = true.
Proof.
  intros Hr Hp. destruct (reachable_row_ok w Hr) as [Hrs _].
  unfold clear_filters in Hp.
  destruct (foldl_deliver_frame (row_inputs w) w) as (_ & _ & _ & He & _).
  rewrite He in Hp. destruct (rs_preds w Hrs p Hp) as [Hf Ht].
  unfold row_predicate. rewrite Nat.eqb_refl. simpl.
  rewrite (clear_filters_values w _ Hrs Hf).
  rewrite (clear_filters_values w _ Hrs Ht).
  reflexivity.
Qed.

(** A local range set to [3 .. 9], then cleared: the row [1] is back. *)
Lemma clear_filters_accepts_rows_witness :
  row_predicate {| rp_ci := 0; rp_nTable := 1; rp_from := 0; rp_to := 1 |}
    (clear_filters (deliver 1 "9" (deliver 0 "3" (range_page false))))
    1 ["1"]
  = true
  ∧ row_predicate {| rp_ci := 0; rp_nTable := 1; rp_from := 0; rp_to := 1 |}
      (deliver 1 "9" (deliver 0 "3" (range_page false))) 1 ["1"]
    = false.
Proof.
  split; [| vm_compute; reflexivity].
  apply (clear_filters_accepts_rows
           (deliver 1 "9" (deliver 0 "3" (range_page false)))
           {| rp_ci := 0; rp_nTable := 1; rp_from := 0; rp_to := 1 |}).
  - apply reach_deliver, reach_deliver.
    apply (reach_setup browser_globals
             {| aoColumns := [range_column]; bServerSide := false;
                nTable := 1 |} "header").
    vm_compute. reflexivity.
  - vm_compute. apply list_elem_of_In. simpl. auto.
Defined.

Lemma deliver_not_effective (m : nat) (h : handler) (v : string)
    (w : world) :
  bindings w !! m = Some h → debounced h = true →
  effective m v w = false →
  deliver m v w = set_val m v w.
Proof.
  intros Hb Hd He. unfold effective in He. rewrite Hb in He.
  destruct (debounced_guard_val h m (set_val m v w) Hd) as [e Hg].
  rewrite Hg in He. apply bool_decide_eq_false in He.
  apply (deliver_suppressed h m v w e Hb Hg).
  destruct (decide (node_data_val m w = Some e)); [assumption |].
  contradiction.
Qed.

Lemma foldl_deliver_one_redraw (l : list nat) :
  ∀ u,
    reachable u →
    (∀ n h, bindings u !! n = Some h → debounced h = true) →
    let U := foldl (λ w' node, deliver node "" w') u l in
    draws U = draws u ∧ now U = now u
    ∧ ((timers U = timers u ∧ tr_timeout U = tr_timeout u
        ∧ search_log U = search_log u)
       ∨ pending_apply (now u + 500) U).
Proof.
  induction l as [| m l IH]; intros u Hr Hdeb; simpl; [tauto |].
  assert (Hr1 : reachable (deliver m "" u)) by apply reach_deliver, Hr.
  assert (Hdeb1 : ∀ n h, bindings (deliver m "" u) !! n = Some h →
                         debounced h = true).
  { intros n h. destruct (deliver_frame m "" u) as (-> & _). apply Hdeb. }
  specialize (IH _ Hr1 Hdeb1). simpl in IH.
  destruct IH as (Hd & Hn & Ht).
  assert (Hsame : deliver m "" u = set_val m "" u →
            draws (foldl (λ w' node, deliver node "" w') (deliver m "" u) l)
            = draws u
            ∧ now (foldl (λ w' node, deliver node "" w') (deliver m "" u) l)
              = now u
            ∧ ((timers
                  (foldl (λ w' node, deliver node "" w') (deliver m "" u) l)
                = timers u
                ∧ tr_timeout
                    (foldl (λ w' node, deliver node "" w')
                       (deliver m "" u) l)
                  = tr_timeout u
                ∧ search_log
                    (foldl (λ w' node, deliver node "" w')
                       (deliver m "" u) l)
                  = search_log u)
               ∨ pending_apply (now u + 500)
                   (foldl (λ w' node, deliver node "" w')
                      (deliver m "" u) l))).
  { intros Heq. rewrite Heq in Hd, Hn, Ht. simpl in Hd, Hn, Ht.
    rewrite Heq. tauto. }
  destruct (bindings u !! m) as [h|] eqn:Hb.
  - destruct (effective m "" u) eqn:He.
    + destruct (reachable_timer_invariant u Hr) as [Hnt Hpt].
      destruct (deliver_effective_pending m h "" u Hb (Hdeb m h Hb) He Hnt)
        as (Hp1 & Hn1 & Hd1 & _).
      { destruct Hpt as [? | (d & ? & _)]; eauto. }
      rewrite Hd, Hn, Hd1, Hn1. split; [reflexivity |].
      split; [reflexivity |]. right.
      destruct Ht as [(Ht1 & Ht2 & _) | Hpend].
      * revert Hp1. apply pending_apply_ext; assumption.
      * rewrite Hn1 in Hpend. exact Hpend.
    + apply Hsame. apply (deliver_not_effective m h "" u Hb (Hdeb m h Hb) He).
  - apply Hsame. unfold deliver, fire.
    replace (bindings (set_val m "" u)) with (bindings u) by reflexivity.
    rewrite Hb. reflexivity.
Qed.

(** X10: on a page whose controls are text inputs, selects and server-side
    ranges, clicking "clear filters" in any world the page can reach redraws
    nothing at once and moves no clock: either no input sent anything and the
    timers are as before, or exactly one redraw is left pending, due 500
    time-units after the click. *)
Theorem clear_filters_one_redraw (w : world) :
  reachable w →
  (∀ n h, bindings w !! n = Some h → debounced h = true) →
  draws (clear_filters w) = draws w
  ∧ now (clear_filters w) = now w
  ∧ ((timers (clear_filters w) = timers w
      ∧ search_log (clear_filters w) = search_log w)
     ∨ pending_apply (now w + 500) (clear_filters w)).
Proof.
  intros Hr Hdeb.
  destruct (foldl_deliver_one_redraw (row_inputs w) w Hr Hdeb)
    as (Hd & Hn & Ht).
  unfold clear_filters. split; [exact Hd |]. split; [exact Hn |].
  destruct Ht as [(Ht & _ & Hl) | Hp]; [left; split; assumption |].
  right. exact Hp.
Qed.

(** Three filled-in controls cleared at time 100: one timer, due at 600. *)
Lemma clear_filters_one_redraw_witness :
  draws
    (clear_filters
       (advance 100
          (deliver 3 "a.b"
             (deliver 2 "9"
                (deliver 0 "abc"
                   (page [text_column; range_column;
                          select_column [("a.b", "A or B")]] true 1))))))
  = []
  ∧ map tm_deadline
      (timers
         (clear_filters
            (advance 100
               (deliver 3 "a.b"
                  (deliver 2 "9"
                     (deliver 0 "abc"
                        (page [text_column; range_column;
                               select_column [("a.b", "A or B")]] true
                           1)))))))
    = [600%nat].
Proof.
  split; [| vm_compute; reflexivity].
  transitivity
    (draws
       (advance 100
          (deliver 3 "a.b"
             (deliver 2 "9"
                (deliver 0 "abc"
                   (page [text_column; range_column;
                          select_column [("a.b", "A or B")]] true 1))))));
    [| vm_compute; reflexivity].
  apply clear_filters_one_redraw.
  - apply reach_advance, reach_deliver, reach_deliver, reach_deliver.
    apply (reach_setup browser_globals
             {| aoColumns := [text_column; range_column;
                              select_column [("a.b", "A or B")]];
                bServerSide := true; nTable := 1 |} "header").
    vm_compute. reflexivity.
  - intros n h Hb.
    match type of Hb with
    | bindings ?W !! _ = _ =>
        assert (HF : map_Forall (λ (_ : nat) (h' : handler),
                                   debounced h' = true) (bindings W))
          by (apply (bool_decide_unpack _); vm_compute; exact I)
    end.
    exact (HF n h Hb).
Defined.

(** ** The row predicates the constructor registers *)

Lemma setup_column_ext_search (globals : gmap string js_value)
    (serverSide : bool) (table : nat) (cols : list column) (i : nat)
    (c : column) (w w' : world) :
  cols !! i = Some c →
  setup_column globals serverSide table
    (map (λ c, match orbiaColumnFilter c with
               | Some f => if bSearchable c then Some f else None
               | None => None
               end) cols) cols i w
  = Normal w' →
  ext_search w'
  = (ext_search w ++
       (if negb serverSide && range_rendered c
        then [{| rp_ci := i; rp_nTable := table; rp_from := next_node w;
                 rp_to := S (next_node w) |}]
        else []))%list.
Proof.
  intros Hc. rewrite setup_column_unfold, Hc. unfold range_rendered.
  destruct (rendered c) as [item|] eqn:Hr.
  2:{ rewrite andb_false_r, app_nil_r.
      destruct (bVisible c); intros [= <-]; reflexivity. }
  rewrite (rendered_visible c item Hr). unfold setup_control.
  destruct (String.eqb_spec (type item) "number-range") as [Ht | Ht].
  - rewrite Ht. simpl.
    destruct serverSide; simpl; intros [= <-]; simpl;
      rewrite ?app_nil_r; reflexivity.
  - rewrite andb_false_r, app_nil_r.
    destruct (String.eqb (type item) "text");
      [simpl; intros [= <-]; reflexivity |].
    destruct (String.eqb (type item) "select");
      [simpl; intros [= <-]; reflexivity |].
    unfold warn_invalid_type.
    destruct (resolve globals "console") as [cv|]; simpl; [| discriminate].
    destruct (truthy cv); simpl; [| intros [= <-]; reflexivity].
    destruct (resolve globals "value") as [vv|]; simpl; [| discriminate].
    destruct cv; simpl; try discriminate.
    intros [= <-]. reflexivity.
Qed.

Lemma range_columns_upto (cols : list column) (i : nat) (c : column) :
  cols !! i = Some c →
  List.filter (λ i, default false (range_rendered <$> cols !! i))
    (seq 0 (S i))
  = (List.filter (λ i, default false (range_rendered <$> cols !! i))
       (seq 0 i)
     ++ (if range_rendered c then [i] else []))%list.
Proof.
  intros Hc. rewrite seq_S, List.filter_app. simpl. rewrite Hc. simpl.
  destruct (range_rendered c); reflexivity.
Qed.

Lemma range_columns_none (cols : list column) :
  (∀ c, c ∈ cols → range_rendered c = false) → range_columns cols = [].
Proof.
  intros Hnone. unfold range_columns.
  rewrite (List.filter_ext_in _ (λ _, false)); [apply List.filter_false |].
  intros i _. destruct (cols !! i) as [c|] eqn:Hc; [| reflexivity].
  simpl. apply Hnone. apply (list_elem_of_lookup_2 _ _ _ Hc).
Qed.

(** X11: the constructor registers row predicates in local mode only.  The
    predicates it appends are, read by the column index each carries,
    exactly the indexes of the number-range columns that get a control, each
    once and in column order; each carries the table's own node and two
    distinct inputs; their number is the number of such columns.  In
    server-side mode, and for every other kind of column, the list of row
    predicates is left as it was. *)
Theorem constructor_registers_predicates (globals : gmap string js_value)
    (settings : dt_settings) (appendTo : string) (w w' : world) :
  OrbiaColumnFilter globals settings appendTo w = Normal w' →
  ∃ l : list range_predicate,
    ext_search w' = (ext_search w ++ l)%list
    ∧ map rp_ci l
      = (if bServerSide settings then []
         else range_columns (aoColumns settings))
    ∧ Forall (λ p, rp_nTable p = nTable settings
                   ∧ rp_from p ≠ rp_to p
                   ∧ range_rendered <$> aoColumns settings !! rp_ci p
                     = Some true) l
    ∧ length l
      = (if bServerSide settings then 0%nat
         else length (List.filter range_rendered (aoColumns settings))).
Proof.
  rewrite OrbiaColumnFilter_unfold.
  set (cols := aoColumns settings).
  destruct (enabled settings) eqn:Hen.
  2:{ intros [= <-]. exists []. rewrite app_nil_r.
      assert (Hnone : ∀ c, c ∈ cols → range_rendered c = false).
      { intros c Hin. unfold range_rendered.
        rewrite (enabled_false_none settings c Hen Hin). reflexivity. }
      split; [reflexivity |]. split.
      { rewrite (range_columns_none cols Hnone).
        destruct (bServerSide settings); reflexivity. }
      split; [constructor |].
      destruct (bServerSide settings); [reflexivity |].
      replace (List.filter range_rendered cols) with (@nil column);
        [reflexivity |].
      symmetry.
      rewrite (List.filter_ext_in range_rendered (λ _, false) cols);
        [apply List.filter_false |].
      intros c Hin. apply list_elem_of_In in Hin. apply Hnone, Hin. }
  match goal with
  | |- context [each_column ?f ?l ?w0] =>
      destruct (each_column f l w0) as [w1|] eqn:H1
  end; simpl; [| discriminate].
  intros [= <-]. simpl.
  apply (each_column_seq_ind
           (λ i u, ∃ l : list range_predicate,
              ext_search u = (ext_search w ++ l)%list
              ∧ map rp_ci l
                = (if bServerSide settings then []
                   else List.filter
                          (λ i, default false
                                  (range_rendered <$> cols !! i))
                          (seq 0 i))
              ∧ Forall (λ p, rp_nTable p = nTable settings
                             ∧ rp_from p ≠ rp_to p
                             ∧ range_rendered <$> cols !! rp_ci p
                               = Some true) l
              ∧ length l
                = (if bServerSide settings then 0%nat
                   else length (List.filter range_rendered (take i cols)))))
    in H1.
  - simpl in H1. rewrite firstn_all in H1. exact H1.
  - exists []. simpl. rewrite app_nil_r.
    split; [reflexivity |].
    split; [destruct (bServerSide settings); reflexivity |].
    split; [constructor |].
    destruct (bServerSide settings); reflexivity.
  - intros i u u' Hi (l & He & Hm & Hf & Hl) Hstep.
    destruct (cols !! i) as [c|] eqn:Hc;
      [| apply lookup_ge_None in Hc; simpl in Hi; lia].
    rewrite (setup_column_ext_search _ _ _ _ _ _ _ _ Hc Hstep), He.
    rewrite (range_columns_upto cols i c Hc).
    rewrite (take_S_r _ _ _ Hc), List.filter_app, length_app. simpl.
    rewrite <- app_assoc. eexists. split; [reflexivity |].
    rewrite map_app, Hm.
    destruct (bServerSide settings); simpl.
    + rewrite app_nil_r.
      split; [reflexivity |]. split; [exact Hf | exact Hl].
    + destruct (range_rendered c) eqn:Hrr; simpl.
      * split; [reflexivity |].
        split; [| rewrite length_app; simpl; lia].
        apply Forall_app. split; [exact Hf |].
        constructor; [| constructor]. simpl.
        split; [reflexivity |]. split; [lia |].
        rewrite Hc. simpl. rewrite Hrr. reflexivity.
      * rewrite !app_nil_r. split; [reflexivity |].
        split; [exact Hf | lia].
Qed.

(** A local-mode table with two ranges around a text column: the
    predicates are those of columns 0 and 2, in that order. *)
Lemma constructor_registers_predicates_witness :
  ext_search (page [range_column; text_column; range_column] false 7)
  = [{| rp_ci := 0; rp_nTable := 7; rp_from := 0; rp_to := 1 |};
     {| rp_ci := 2; rp_nTable := 7; rp_from := 3; rp_to := 4 |}]
  ∧ ∃ l : list range_predicate,
      ext_search (page [range_column; text_column; range_column] false 7)
      = (ext_search initial_world ++ l)%list
      ∧ map rp_ci l = [0; 2]%nat
      ∧ length l = 2%nat.
Proof.
  split; [vm_compute; reflexivity |].
  destruct (constructor_registers_predicates browser_globals
              {| aoColumns := [range_column; text_column; range_column];
                 bServerSide := false; nTable := 7 |} "header" initial_world
              (page [range_column; text_column; range_column] false 7))
    as (l & He & Hm & _ & Hl); [vm_compute; reflexivity |].
  exists l. split; [exact He |]. split; [exact Hm | exact Hl].
Defined.

(** ** More on the local range evaluator *)

Lemma number_eq_NaN (n : number) : n = NaN ∨ n ≠ NaN.
Proof. destruct n; [left; reflexivity | right .. ]; discriminate. Qed.

Lemma js_le_or_zero (n : number) :
  n ≠ NaN → js_le n (or_zero n) = true ∧ js_le (or_zero n) n = true.
Proof.
  destruct n as [| | | q]; simpl; intros Hn; try tauto; try contradiction.
  destruct (Qeq_bool q 0) eqn:Hq; simpl.
  - apply Qeq_bool_iff in Hq. split; apply Qle_bool_iff; rewrite Hq;
      apply Qle_refl.
  - split; apply Qle_bool_iff, Qle_refl.
Qed.

(** X12: the bounds of the local range evaluator are inclusive: for a text
    [s] without a comma, a cell that reads [s] passes the lower bound [s], the
    upper bound [s] and both together. *)
Theorem matches_bounds_inclusive (s : string) :
  ¬ In ","%char (list_ascii_of_string s) →
  matches s "" s = true ∧ matches "" s s = true ∧ matches s s s = true.
Proof.
  intros Hs. unfold matches.
  rewrite (replace_first_absent _ _ s Hs).
  replace (parseFloat (replace_first "," "." "")) with NaN by reflexivity.
  destruct (number_eq_NaN (parseFloat s)) as [-> | Hn].
  - repeat split; reflexivity.
  - destruct (js_le_or_zero _ Hn) as [H1 H2]. rewrite H1, H2.
    destruct (parseFloat s); simpl; try contradiction; repeat split;
      reflexivity.
Qed.

Lemma matches_bounds_inclusive_witness :
  matches "2.50" "" "2.50" = true
  ∧ matches "" "2.50" "2.50" = true
  ∧ matches "2.50" "2.50" "2.50" = true.
Proof.
  apply matches_bounds_inclusive. vm_compute. intuition discriminate.
Defined.

(** X13: when both bounds of the local range evaluator are finite numbers
    and the lower one is greater than the upper one, no cell passes. *)
Theorem matches_reversed_bounds (from to cellValue : string) (a b : Q) :
  parseFloat (replace_first "," "." from) = Fin a →
  parseFloat (replace_first "," "." to) = Fin b →
  (b < a)%Q →
  matches from to cellValue = false.
Proof.
  intros Ha Hb Hlt. unfold matches. rewrite Ha, Hb. simpl.
  rewrite andb_false_r. simpl.
  destruct (or_zero (parseFloat cellValue)) as [| | | q]; simpl;
    try reflexivity; try (rewrite andb_false_r; reflexivity).
  destruct (Qle_bool a q) eqn:H1; [| reflexivity].
  destruct (Qle_bool q b) eqn:H2; [| reflexivity].
  apply Qle_bool_iff in H1, H2. exfalso.
  apply (Qlt_not_le _ _ Hlt). eapply Qle_trans; eassumption.
Qed.

(** Bounds 10 and 1,5; and two bounds that differ in the last place of a
    binary64 only. *)
Lemma matches_reversed_bounds_witness :
  matches "10" "1,5" "5" = false
  ∧ matches "0.10000000000000002" "0.1" "0.1" = false.
Proof.
  split.
  - apply (matches_reversed_bounds "10" "1,5" "5" 10 (3 # 2));
      [vm_compute; reflexivity | vm_compute; reflexivity | reflexivity].
  - apply (matches_reversed_bounds "0.10000000000000002" "0.1" "0.1"
             (7205759403792795 # 72057594037927936)
             (3602879701896397 # 36028797018963968));
      [vm_compute; reflexivity | vm_compute; reflexivity | reflexivity].
Defined.

(** X14: a row predicate reads the inputs as they are when the table is
    filtered: after an edit of either bound, the predicate, asked about its
    own table, decides with the edited value and the other bound's current
    value. *)
Theorem row_predicate_follows_edits (w : world) (p : range_predicate)
    (v : string) (data : list string) :
  is_Some (inputs w !! rp_from p) →
  is_Some (inputs w !! rp_to p) →
  rp_from p ≠ rp_to p →
  row_predicate p (deliver (rp_from p) v w) (rp_nTable p) data
  = matches v (node_val (rp_to p) w) (default "undefined" (data !! rp_ci p))
  ∧ row_predicate p (deliver (rp_to p) v w) (rp_nTable p) data
    = matches (node_val (rp_from p) w) v
        (default "undefined" (data !! rp_ci p)).
Proof.
  intros Hf Ht Hne. unfold row_predicate. rewrite Nat.eqb_refl. simpl.
  destruct (deliver_frame (rp_from p) v w) as (_ & _ & _ & _ & Hv1 & _).
  destruct (deliver_frame (rp_to p) v w) as (_ & _ & _ & _ & Hv2 & _).
  rewrite !Hv1, !Hv2.
  rewrite !node_val_set_val by assumption.
  rewrite !node_val_set_val_ne by congruence.
  split; reflexivity.
Qed.

Lemma row_predicate_follows_edits_witness :
  row_predicate {| rp_ci := 0; rp_nTable := 1; rp_from := 0; rp_to := 1 |}
    (deliver 0 "3" (range_page false)) 1 ["2"]
  = matches "3" (node_val 1 (range_page false)) "2".
Proof.
  apply (proj1 (row_predicate_follows_edits (range_page false)
                  {| rp_ci := 0; rp_nTable := 1; rp_from := 0; rp_to := 1 |}
                  "3" ["2"] ltac:(by_eval) ltac:(by_eval) ltac:(by_eval))).
Defined.

(** ** What a delivery leaves alone *)

(** X15: an event delivered to a node changes the value of that node only
    and no memo but that node's; it changes no binding, no cell of the row
    and no registered row predicate; and the only search slot it may write is
    the one of the column its handler was bound for. *)
Theorem delivery_touches_one_node (w : world) (m : nat) (v : string) :
  bindings (deliver m v w) = bindings w
  ∧ tr_cells (deliver m v w) = tr_cells w
  ∧ ext_search (deliver m v w) = ext_search w
  ∧ (∀ n, n ≠ m →
          node_val n (deliver m v w) = node_val n w
          ∧ node_data_val n (deliver m v w) = node_data_val n w)
  ∧ (∀ c, (∀ h, bindings w !! m = Some h → search_column h ≠ c) →
          col_search (deliver m v w) !! c = col_search w !! c).
Proof.
  destruct (deliver_frame m v w) as (Hb & Hc & _ & He & Hval & _ & Hmemo).
  split_and!; try assumption.
  - intros n Hne. split; [| apply Hmemo, Hne].
    rewrite Hval. apply node_val_set_val_ne, Hne.
  - intros c Hcol. unfold deliver, fire.
    replace (bindings (set_val m v w)) with (bindings w) by reflexivity.
    destruct (bindings w !! m) as [h|] eqn:Hbm; [| reflexivity].
    specialize (Hcol h eq_refl).
    destruct (debounced h) eqn:Hd.
    + destruct (debounced_guard_val h m (set_val m v w) Hd) as [e Hg].
      rewrite (run_handler_debounced _ _ _ _ Hg).
      destruct (decide (node_data_val m (set_val m v w) ≠ Some e));
        [| reflexivity].
      rewrite col_search_schedule_redraw. simpl.
      apply lookup_insert_ne. exact Hcol.
    + destruct h; try discriminate. reflexivity.
Qed.

(** Typing in the text column of a two-column page leaves the range
    column's slot and inputs alone. *)
Lemma delivery_touches_one_node_witness :
  col_search (deliver 0 "abc" (page [text_column; range_column] true 1)) !! 1
  = col_search (page [text_column; range_column] true 1) !! 1
  ∧ node_val 1 (deliver 0 "abc" (page [text_column; range_column] true 1))
    = node_val 1 (page [text_column; range_column] true 1).
Proof.
  destruct (delivery_touches_one_node
              (page [text_column; range_column] true 1) 0 "abc")
    as (_ & _ & _ & Hnodes & Hslots).
  split.
  - apply Hslots. intros h Hb.
    assert (Hh : bindings (page [text_column; range_column] true 1) !! 0
                 = Some (HText true 0)) by (vm_compute; reflexivity).
    rewrite Hh in Hb. injection Hb as <-. simpl. lia.
  - apply (Hnodes 1%nat). lia.
Defined.

(** ** The select handler's call of [search] *)

(** X16: a select whose escaped value differs from its memo calls
    [search] once, for its own column and with the regex flag set in both
    modes; the expression is ["equals:"] followed by the escaped value in
    server-side mode, the escaped value between [^] and [$] in local mode, and
    empty when the value is empty; the memo becomes the escaped value. *)
Theorem select_sends_escaped_value (w : world) (this c : nat)
    (serverSide : bool) (k : string) :
  bindings w !! this = Some (HSelect serverSide c) →
  is_Some (inputs w !! this) →
  node_data_val this w ≠ Some (escapeRegex k) →
  search_log (deliver this k w)
  = (search_log w ++
       [{| sc_time := now w; sc_column := c;
           sc_input := select_expression serverSide (escapeRegex k);
           sc_regex := true |}])%list
  ∧ col_search (deliver this k w) !! c
    = Some (select_expression serverSide (escapeRegex k))
  ∧ node_data_val this (deliver this k w) = Some (escapeRegex k)
  ∧ (k = "" → select_expression serverSide (escapeRegex k) = "").
Proof.
  intros Hb Hi Hm.
  assert (Hg : guard_val (HSelect serverSide c) this (set_val this k w)
               = Some (escapeRegex k)).
  { simpl. rewrite node_val_set_val by assumption. reflexivity. }
  rewrite (deliver_effective _ _ _ _ _ Hb Hg Hm).
  rewrite search_log_schedule_redraw, col_search_schedule_redraw.
  simpl. rewrite node_val_set_val by assumption.
  split_and!.
  - reflexivity.
  - apply lookup_insert_eq.
  - unfold node_data_val. rewrite inputs_schedule_redraw.
    apply (node_data_val_set_data_val this (escapeRegex k)
             (set_val this k w)).
    unfold set_val. simpl. apply lookup_alter_is_Some. exact Hi.
  - intros ->. destruct serverSide; reflexivity.
Qed.

Lemma select_sends_escaped_value_witness :
  search_log (deliver 0 "a.b" (select_page true))
  = (search_log (select_page true) ++
       [{| sc_time := now (select_page true); sc_column := 0;
           sc_input := select_expression true (escapeRegex "a.b");
           sc_regex := true |}])%list.
Proof.
  apply (select_sends_escaped_value (select_page true) 0 0 true "a.b");
    by_eval.
Defined.

(** ** No redraw without a search *)

Lemma schedule_redraw_timers (w : world) (tm : timer) :
  tm ∈ timers (schedule_redraw w) →
  tm ∈ timers w ∨ tm_deadline tm = (now w + 500)%nat.
Proof.
  unfold schedule_redraw.
  destruct (tr_timeout w) as [h|]; [destruct (truthy_handle h) |]; simpl;
    intros Hin; apply elem_of_app in Hin as [Hin | Hin];
    try (right; apply list_elem_of_singleton in Hin; subst tm; reflexivity);
    try (left; exact Hin).
  left. apply list_elem_of_filter in Hin. tauto.
Qed.

Lemma redraws_justified_deliver (m : nat) (v : string) (w : world) :
  (∀ h, bindings w !! m = Some h → debounced h = true) →
  redraws_justified w → redraws_justified (deliver m v w).
Proof.
  intros Hdeb [Ht Hd].
  destruct (bindings w !! m) as [h|] eqn:Hb.
  - specialize (Hdeb h eq_refl).
    destruct (debounced_guard_val h m (set_val m v w) Hdeb) as [e Hg].
    destruct (decide (node_data_val m w = Some e)) as [Hm | Hm].
    + rewrite (deliver_suppressed _ _ _ _ _ Hb Hg Hm). split; assumption.
    + rewrite (deliver_effective _ _ _ _ _ Hb Hg Hm).
      split.
      * intros tm Hin. rewrite search_log_schedule_redraw. simpl.
        apply schedule_redraw_timers in Hin as [Hin | Hin].
        -- destruct (Ht tm Hin) as (s & Hs & Htime).
           exists s. split; [apply elem_of_app; left; exact Hs | exact Htime].
        -- eexists. split;
             [apply elem_of_app; right; apply list_elem_of_singleton;
              reflexivity |].
           simpl. symmetry. exact Hin.
      * intros d Hin. rewrite draws_schedule_redraw in Hin.
        rewrite search_log_schedule_redraw. simpl.
        destruct (Hd d Hin) as (s & Hs & Htime).
        exists s. split; [apply elem_of_app; left; exact Hs | exact Htime].
  - unfold deliver, fire.
    replace (bindings (set_val m v w)) with (bindings w) by reflexivity.
    rewrite Hb. split; assumption.
Qed.

Lemma redraws_justified_advance (t : nat) (w : world) :
  redraws_justified w → redraws_justified (advance t w).
Proof.
  intros [Ht Hd]. split.
  - intros tm Hin. unfold advance in Hin. simpl in Hin.
    apply list_elem_of_filter in Hin as [_ Hin]. apply (Ht tm Hin).
  - intros d Hin. unfold advance in Hin. simpl in Hin.
    apply elem_of_app in Hin as [Hin | Hin]; [apply (Hd d Hin) |].
    apply list_elem_of_fmap in Hin as (tm & -> & Hin).
    apply list_elem_of_filter in Hin as [_ Hin]. apply (Ht tm Hin).
Qed.

(** X17: on a page whose controls are text inputs, selects and server-side
    ranges, no redraw comes out of the blue: in every world the page can
    reach, each redraw happened exactly 500 time-units after some call of
    [search], and so will each redraw still pending. *)
Theorem redraw_follows_search (w : world) :
  reachable w →
  (∀ n h, bindings w !! n = Some h → debounced h = true) →
  redraws_justified w.
Proof.
  induction 1 as [globals settings appendTo w Hs | w t _ IH
                 | w node _ IH | w node v _ IH]; intros Hdeb.
  - destruct (constructor_leaves_host_alone_aux _ _ _ _ _ Hs)
      as (_ & Ht & Hd & _).
    split; [intros tm Hin; rewrite Ht in Hin; inversion Hin |].
    intros d Hin. rewrite Hd in Hin. inversion Hin.
  - apply redraws_justified_advance, IH, Hdeb.
  - rewrite fire_as_deliver.
    destruct (deliver_frame node (node_val node w) w) as (Hb & _).
    rewrite fire_as_deliver, Hb in Hdeb.
    apply redraws_justified_deliver; [apply Hdeb | apply IH, Hdeb].
  - destruct (deliver_frame node v w) as (Hb & _). rewrite Hb in Hdeb.
    apply redraws_justified_deliver; [apply Hdeb | apply IH, Hdeb].
Qed.

(** Two bursts on a server-side text input: redraws at 600 and 1700, each
    500 after the last edit of its burst. *)
Lemma redraw_follows_search_witness :
  redraws_justified
    (advance 2000
       (run (on_node 0 [(50, "a"); (100, "ab"); (1200, "abc")]%nat)
          (text_page true)))
  ∧ draws
      (advance 2000
         (run (on_node 0 [(50, "a"); (100, "ab"); (1200, "abc")]%nat)
            (text_page true)))
    = [600; 1700]%nat.
Proof.
  split; [| vm_compute; reflexivity].
  apply redraw_follows_search.
  - apply reach_advance. simpl.
    apply reach_deliver, reach_advance, reach_deliver, reach_advance,
      reach_deliver, reach_advance.
    apply (reach_setup browser_globals
             {| aoColumns := [text_column]; bServerSide := true;
                nTable := 1 |} "header").
    vm_compute. reflexivity.
  - intros n h Hb.
    match type of Hb with
    | bindings ?W !! _ = _ =>
        assert (HF : map_Forall (λ (_ : nat) (h' : handler),
                                   debounced h' = true) (bindings W))
          by (apply (bool_decide_unpack _); vm_compute; exact I)
    end.
    exact (HF n h Hb).
Defined.
